(** * The kernel inliner of ARTIQ ([artiq/compiler/inline.py])

    A shallow embedding of the call-site inliner: the value encoder
    [_value_to_ast], the reference manager [_ReferenceManager] with its
    name allocator and remote-call registry, the read-only parameter
    analysis, the reference replacer and the recursive entry point
    [inline].  Python dictionaries are finite maps, the reference manager
    is threaded through a state-and-exception monad, and Python's untyped
    syntax trees are one inductive type of nodes. *)

From Stdlib Require Import ZArith Ascii String.
From stdpp Require Import gmap strings list fin_maps pretty.

Set Warnings "-register-all,-clear-no-such-hyp".
Local Open Scope string_scope.
Local Open Scope list_scope.

(** ** Syntax trees (the [ast] module) *)

Inductive expr_context := Load | Store | Del | AugLoad | AugStore | Param.

(** The number held by an [ast.Num] node or by a quantity: an [int], a
    [bool] (a subclass of [int]) or a [float], the latter kept as the
    pair mantissa, exponent. *)
Inductive pynum :=
| PInt (z : Z)
| PBool (b : bool)
| PFloat (m e : Z).

(** Field values that hold no node: [None], identifiers, numbers. *)
Inductive atom :=
| ANone
| AStr (s : string)
| AInt (z : Z).

(** Nodes.  The classes that [inline.py] names have a constructor of
    their own; every other class is [Generic] with its fields in
    [_fields] order.  [PyList] is a Python list of nodes standing where a
    node is expected: [visit_Call] returns one for an inlined call. *)
Inductive node :=
| Name (id : string) (ctx : expr_context)
| Attribute (value : node) (attr : string) (ctx : expr_context)
| Subscript (value : node) (slice : node) (ctx : expr_context)
| Num (n : pynum)
| Str (s : string)
| Call (func : node) (args : list node) (keywords : list node)
       (starargs : option node) (kwargs : option node)
| Expr (value : node)
| FunctionDef (name : string) (args : node) (body : list node)
              (decorator_list : list node) (returns : option node)
| arguments (args : list node) (more : list field)
| arg (arg : string) (annotation : option node)
| Generic (cls : string) (fields : list field)
| PyList (items : list node)
with field :=
| FNode (n : node)
| FList (l : list node)
| FAtom (a : atom).

(** [ast.Assign(targets=..., value=...)]; the value is whatever the caller
    passes, [None] included. *)
Definition Assign (targets : list node) (value : option node) : node :=
  Generic "Assign"
    [FList targets; match value with Some v => FNode v | None => FAtom ANone end].

Definition Return (value : option node) : node :=
  Generic "Return" [match value with Some v => FNode v | None => FAtom ANone end].

Definition BinOp (left : node) (op : string) (right : node) : node :=
  Generic "BinOp" [FNode left; FNode (Generic op []); FNode right].

Global Instance expr_context_eq_dec : EqDecision expr_context.
Proof. solve_decision. Defined.
Global Instance pynum_eq_dec : EqDecision pynum.
Proof. solve_decision. Defined.
Global Instance atom_eq_dec : EqDecision atom.
Proof. solve_decision. Defined.

Lemma node_eq_dec_rec : ∀ x y : node, {x = y} + {x ≠ y}
with field_eq_dec_rec : ∀ x y : field, {x = y} + {x ≠ y}.
Proof.
  - decide equality;
      try (apply expr_context_eq_dec); try (apply pynum_eq_dec);
      try (apply String.string_dec);
      try (apply (list_eq_dec (dec := node_eq_dec_rec)));
      try (apply (list_eq_dec (dec := field_eq_dec_rec)));
      try (apply (option_eq_dec (dec := node_eq_dec_rec))).
  - decide equality;
      try (apply atom_eq_dec);
      try (apply (list_eq_dec (dec := node_eq_dec_rec))).
Defined.

Global Instance node_eq_dec : EqDecision node := node_eq_dec_rec.
Global Instance field_eq_dec : EqDecision field := field_eq_dec_rec.

(** ** Runtime values of the host *)

(** The callables the module names, and any other host callable. *)
Inductive host_callable :=
| units_Quantity
| experiment_delay
| experiment_at
| experiment_now
| experiment_syscall
| builtin_range
| host_function (oid : positive) (name : string).

(** Python objects as far as the inliner looks at them.  [VKernel] is a
    callable carrying [k_function_info]: [self] is its [__self__] (absent
    for a function that is not bound) and [k_function] is the tree that
    [ast.parse(textwrap.dedent(inspect.getsource(k_function))).body[0]]
    gives for it. *)
Inductive value :=
| VNum (n : pynum)
| VStr (s : string)
| VNone
| VAst (a : node)
| VList (items : list node)
| VQuantity (oid : positive) (amount : pynum) (unit_name : string)
| VCallable (c : host_callable)
| VKernel (self : option value) (k_function : node)
| VObject (oid : positive).

(** What [to_inlined] holds for a key: the named tuple
    [_UserVariable(name)], which is private to the module and which only
    [get] creates, or an object handed in through [set] (a syntax tree or a
    constant object). *)
Inductive binding :=
| _UserVariable (name : string)
| Bound (v : value).

Global Instance host_callable_eq_dec : EqDecision host_callable.
Proof. solve_decision. Defined.

Lemma value_eq_dec_rec : ∀ x y : value, {x = y} + {x ≠ y}.
Proof.
  fix IH 1.
  decide equality;
    try (apply pynum_eq_dec); try (apply String.string_dec);
    try (apply node_eq_dec); try (apply host_callable_eq_dec);
    try (apply Pos.eq_dec);
    try (apply (list_eq_dec (dec := node_eq_dec)));
    try (apply (option_eq_dec (dec := IH))).
Defined.

Global Instance value_eq_dec : EqDecision value := value_eq_dec_rec.

(** What the host interpreter and the modules that are not part of this
    file provide: object identity ([id], and with it [is]), the tuple
    [experiment.kernel_globals] with the attributes of [experiment] it
    names, the dictionary of the module an object belongs to
    ([inspect.getmodule(obj).__dict__], with the builtins that [eval]
    reaches through it; [None] when there is no module) and attribute
    access on host objects. *)
Record host := {
  py_id : value → positive;
  kernel_globals : list string;
  experiment_getattr : string → value;
  getmodule : value → option (gmap string value);
  py_getattr : value → string → option value;
}.

Definition isinstance_int (v : value) : bool :=
  match v with
  | VNum (PInt _) | VNum (PBool _) => true
  | _ => false
  end.

Definition isinstance_str (v : value) : bool :=
  match v with VStr _ => true | _ => false end.

Definition isinstance_Quantity (v : value) : bool :=
  match v with VQuantity _ _ _ => true | _ => false end.

Definition isinstance_AST (v : value) : bool :=
  match v with VAst _ => true | _ => false end.

Section Encoder.
Context (hst : host).

(** [a is b] *)
Definition py_is (a b : value) : bool :=
  bool_decide (py_id hst a = py_id hst b).

(** The loop [for kg in experiment.kernel_globals] of [_value_to_ast]:
    the first name whose attribute is the value itself. *)
Fixpoint find_kernel_global (v : value) (kgs : list string) : option string :=
  match kgs with
  | [] => None
  | kg :: kgs' =>
      if py_is v (experiment_getattr hst kg) then Some kg
      else find_kernel_global v kgs'
  end.

Definition _value_to_ast (v : value) : option node :=
  match v with
  | VNum (PInt z) => Some (Num (PInt z))
  | VNum (PBool b) => Some (Num (PBool b))
  | VStr s => Some (Str s)
  | _ =>
      match find_kernel_global v (kernel_globals hst) with
      | Some kg => Some (Name kg Load)
      | None =>
          match v with
          | VQuantity _ amount unit_name =>
              Some (Call (Name "Quantity" Load)
                         [Num amount; Name ("base_" +:+ unit_name +:+ "_unit") Load]
                         [] None None)
          | _ => None
          end
      end
  end.
End Encoder.

(** ** Exceptions and the monad of the reference manager *)

Inductive exn :=
| KeyError
| NotImplementedError (msg : string)
| AssertionError
| AttributeError
| NameError
| IndexError
| ValueError (msg : string)
| TypeError
| UnsupportedExpression
| RecursionError.

(** The three dictionaries of [_ReferenceManager]: [to_inlined] maps
    [(id(obj), funcname, local)] to a [_UserVariable], a syntax tree or a
    constant object; [use_count] maps an inlined name to its use count;
    [rpc_map] keeps the callables in the order they were entered, each
    with its number. *)
Record _ReferenceManager := {
  to_inlined : gmap (positive * string * string) binding;
  use_count : gmap string nat;
  rpc_map : list (value * nat);
}.

(** A computation that reads and updates the reference manager and may
    raise. *)
Definition M (A : Type) : Type := _ReferenceManager → exn + (A * _ReferenceManager).

Definition ret {A} (a : A) : M A := λ rm, inr (a, rm).

Definition raise {A} (e : exn) : M A := λ _, inl e.

Definition bind {A B} (m : M A) (k : A → M B) : M B :=
  λ rm, match m rm with
        | inl e => inl e
        | inr (a, rm') => k a rm'
        end.

Notation "x <- m ;; k" := (bind m (λ x, k))
  (at level 100, m at next level, right associativity).
Notation "m ;;; k" := (bind m (λ _, k))
  (at level 100, right associativity).

Definition get_rm : M _ReferenceManager := λ rm, inr (rm, rm).

(** [[f(x) for x in l]], left to right. *)
Definition mapM {A B} (f : A → M B) : list A → M (list B) :=
  fix go l :=
    match l with
    | [] => ret []
    | x :: l' => y <- f x ;; ys <- go l' ;; ret (y :: ys)
    end.

Definition set_to_inlined (f : gmap (positive * string * string) binding →
                               gmap (positive * string * string) binding)
    (rm : _ReferenceManager) : _ReferenceManager :=
  {| to_inlined := f (to_inlined rm); use_count := use_count rm; rpc_map := rpc_map rm |}.

Definition set_use_count (f : gmap string nat → gmap string nat)
    (rm : _ReferenceManager) : _ReferenceManager :=
  {| to_inlined := to_inlined rm; use_count := f (use_count rm); rpc_map := rpc_map rm |}.

Definition set_rpc_map (f : list (value * nat) → list (value * nat))
    (rm : _ReferenceManager) : _ReferenceManager :=
  {| to_inlined := to_inlined rm; use_count := use_count rm; rpc_map := f (rpc_map rm) |}.

(** ** Strings *)

(** [c.isdigit()] on the characters of a byte string: the ten decimal
    digits of ASCII. *)
Definition isdigit (c : ascii) : bool :=
  (48 <=? nat_of_ascii c)%nat && (nat_of_ascii c <=? 57)%nat.

(** [s[-1]], absent for the empty string. *)
Definition last_char (s : string) : option ascii :=
  last (list_ascii_of_string s).

(** [s[-1].isdigit()], for a string that is not empty. *)
Definition ends_with_digit (s : string) : bool :=
  match last_char s with Some c => isdigit c | None => false end.

(** [str(n)] for a count. *)
Definition str (n : nat) : string := pretty n.

(** ** Evaluation of references *)

(** Modelled from the spec: [eval_ast] of [artiq.compiler.tools] is not
    part of the sources at hand.  The specification describes it as the
    static evaluation of an expression against an environment and names the
    shapes that fold: name lookup, attribute access, numeric and string
    literals.  A name that the environment lacks and an attribute that the
    object lacks raise; so does every other shape. *)
Fixpoint eval_ast (hst : host) (e : node) (env : gmap string value) : exn + value :=
  match e with
  | Name id _ =>
      match env !! id with
      | Some v => inr v
      | None => inl NameError
      end
  | Num n => inr (VNum n)
  | Str s => inr (VStr s)
  | Attribute v a _ =>
      match eval_ast hst v env with
      | inr o =>
          match py_getattr hst o a with
          | Some r => inr r
          | None => inl AttributeError
          end
      | inl e => inl e
      end
  | _ => inl UnsupportedExpression
  end.

Section Manager.
Context (hst : host).

(** [_replace_global]: any exception of the evaluation, a missing module
    included, gives [None]. *)
Definition _replace_global (obj : value) (ref : node) : option node :=
  match getmodule hst obj with
  | None => None
  | Some module_dict =>
      match eval_ast hst ref module_dict with
      | inl _ => None
      | inr v => _value_to_ast hst v
      end
  end.

(** The names that [__init__] reserves, in the order of the source. *)
Definition reserved_names : list string :=
  ["Quantity"; "base_s_unit"; "base_Hz_unit"] ++ kernel_globals hst ++ ["range"].

Definition __init__ : _ReferenceManager :=
  {| to_inlined := ∅;
     use_count := foldl (λ uc name, <[name := 1%nat]> uc) ∅ reserved_names;
     rpc_map := [] |}.

Definition new_name (base_name : string) : M string := λ rm,
  match last_char base_name with
  | None => inl IndexError
  | Some c =>
      let base_name := if isdigit c then base_name +:+ "_" else base_name in
      match use_count rm !! base_name with
      | Some n =>
          let r := base_name +:+ str n in
          inr (r, set_use_count (<[base_name := S n]>) rm)
      | None =>
          inr (base_name, set_use_count (<[base_name := 1%nat]>) rm)
      end
  end.

(** [ref.ctx]: only these three classes of [visit_ref] have the field. *)
Definition node_ctx (ref : node) : option expr_context :=
  match ref with
  | Name _ ctx | Attribute _ _ ctx | Subscript _ _ ctx => Some ctx
  | _ => None
  end.

(** The [isinstance(ref, ast.Name)] block of [get]: [Some r] when the
    block returns [r], [None] when control leaves it for the code after
    it. *)
Definition get_name (obj : value) (funcname : string) (id : string)
    (ctx : expr_context) (store : bool) : M (option node) := λ rm,
  let key := (py_id hst obj, funcname, id) in
  match to_inlined rm !! key with
  | None =>
      if store then
        (iname <- new_name id ;;
         λ rm', inr (Some (Name iname Store),
                     set_to_inlined (<[key := _UserVariable iname]>) rm')) rm
      else inr (None, rm)
  | Some ival =>
      match ival with
      | _UserVariable name => inr (Some (Name name ctx), rm)
      | Bound (VAst a) => if store then inl AssertionError else inr (Some a, rm)
      | Bound ival =>
          if store then
            inl (NotImplementedError "Cannot turn object into user variable")
          else
            match _value_to_ast hst ival with
            | None => inl (NotImplementedError "Cannot represent inlined value")
            | Some a => inr (Some a, rm)
            end
      end
  end.

Definition get (obj : value) (funcname : string) (ref : node) : M node :=
  match node_ctx ref with
  | None => raise AttributeError
  | Some ctx =>
      let store := bool_decide (ctx = Store) in
      r <- match ref with
           | Name id _ => get_name obj funcname id ctx store
           | _ => ret None
           end ;;
      match r with
      | Some a => ret a
      | None =>
          if store then raise KeyError
          else
            match _replace_global obj ref with
            | Some repl => ret repl
            | None => raise KeyError
            end
      end
  end.

Definition set (obj : value) (funcname : string) (name : string) (v : value)
    : M unit := λ rm,
  inr (tt, set_to_inlined (<[(py_id hst obj, funcname, name) := Bound v]>) rm).

Definition get_constants (rm : _ReferenceManager) (r_obj : value)
    (r_funcname : string) : gmap string value :=
  map_fold
    (λ '(objid, funcname, local) ival acc,
       match ival with
       | Bound v =>
           if bool_decide (objid = py_id hst r_obj)
              && bool_decide (funcname = r_funcname)
              && negb (isinstance_AST v)
           then <[local := v]> acc else acc
       | _UserVariable _ => acc
       end)
    ∅ (to_inlined rm).

(** [self.rpc_map[func]] with the default factory
    [lambda: len(self.rpc_map)]: the factory runs before the key is
    entered.  Keys are compared with [==], which on callables is the
    equality of the values of this model. *)
Definition rpc_lookup (func : value) (l : list (value * nat)) : option nat :=
  snd <$> List.find (λ p, bool_decide (p.1 = func)) l.

Definition rpc_map_getitem (func : value) : M nat := λ rm,
  match rpc_lookup func (rpc_map rm) with
  | Some i => inr (i, rm)
  | None =>
      let i := length (rpc_map rm) in
      inr (i, set_rpc_map (λ l, l ++ [(func, i)]) rm)
  end.
End Manager.

(** ** The reference replacer *)

Definition _embeddable_calls : list value :=
  [VCallable units_Quantity;
   VCallable experiment_delay; VCallable experiment_at;
   VCallable experiment_now; VCallable experiment_syscall;
   VCallable builtin_range].

(** [func.__name__] *)
Definition __name__ (func : value) : option string :=
  match func with
  | VCallable units_Quantity => Some "Quantity"
  | VCallable experiment_delay => Some "delay"
  | VCallable experiment_at => Some "at"
  | VCallable experiment_now => Some "now"
  | VCallable experiment_syscall => Some "syscall"
  | VCallable builtin_range => Some "range"
  | VCallable (host_function _ name) => Some name
  | _ => None
  end.

(** A visited argument as the Python object it is: a node is an instance
    of [ast.AST], a list is not. *)
Definition value_of_node (n : node) : value :=
  match n with
  | PyList items => VList items
  | _ => VAst n
  end.

(** A Python list has no hash. *)
Definition is_unhashable (v : value) : bool :=
  match v with VList _ => true | _ => false end.

(** What [generic_visit] leaves in a field after [setattr]. *)
Definition field_of_node (n : node) : field :=
  match n with
  | PyList items => FList items
  | _ => FNode n
  end.

Section Replacer.
Context (hst : host).

(** The recursive call of [inline] from [visit_Call]. *)
Variable inline_rec : node → list value → M (list node).

(** The fields of [_ReferenceReplacer]; [rm] is the state of [M] and
    [module] is [getmodule hst obj]. *)
Context (obj : value) (funcname : string).

(** The [if]/[elif]/[else] of [visit_Call] on the evaluated target and
    the visited arguments.  The membership test hashes the target, which
    a list does not allow. *)
Definition emit_call (func : value) (new_args : list node) : M node :=
  if is_unhashable func then raise TypeError
  else if bool_decide (func ∈ _embeddable_calls) then
    match __name__ func with
    | Some name => ret (Call (Name name Load) new_args [] None None)
    | None => raise AttributeError
    end
  else
    match func with
    | VKernel self k_function =>
        match self with
        | None => raise AttributeError
        | Some owner =>
            let args := owner :: map value_of_node new_args in
            inlined <- inline_rec k_function args ;;
            ret (PyList inlined)
        end
    | _ =>
        i <- rpc_map_getitem func ;;
        let args := [Str "rpc"; Num (PInt (Z.of_nat i))] ++ new_args in
        ret (Call (Name "syscall" Load) args [] None None)
    end.

(** The dictionary that [visit_Call] evaluates the target in:
    [get_constants] updated with the module's dictionary. *)
Definition calldict (module_dict : gmap string value) (rm : _ReferenceManager)
    : gmap string value :=
  module_dict ∪ get_constants hst rm obj funcname.

(** [visit_Call], given the visit of the arguments. *)
Definition visit_Call_with (visit_args : M (list node)) (func_node : node)
    : M node :=
  rm <- get_rm ;;
  match getmodule hst obj with
  | None => raise AttributeError
  | Some module_dict =>
      match eval_ast hst func_node (calldict module_dict rm) with
      | inl e => raise e
      | inr func =>
          new_args <- visit_args ;;
          emit_call func new_args
      end
  end.

(** The list branch of [generic_visit], for a visit [visit] of the
    items: a list result is spliced into the list, an item that is no
    node is left alone. *)
Definition visit_list_with (visit : node → M node) : list node → M (list node) :=
  fix go l :=
    match l with
    | [] => ret []
    | x :: l' =>
        r <- match x with
             | PyList _ => ret [x]
             | _ => v <- visit x ;;
                    ret (match v with PyList items => items | _ => [v] end)
             end ;;
        rs <- go l' ;;
        ret (r ++ rs)
    end.

(** [generic_visit] on one field that holds a node or a list. *)
Definition visit_child_with (visit : node → M node) (c : node) : M node :=
  match c with
  | PyList items => items' <- visit_list_with visit items ;; ret (PyList items')
  | _ => visit c
  end.

Definition visit_option_with (visit : node → M node) (o : option node)
    : M (option node) :=
  match o with
  | None => ret None
  | Some c => c' <- visit_child_with visit c ;; ret (Some c')
  end.

Definition visit_field_with (visit : node → M node) (f : field) : M field :=
  match f with
  | FNode (PyList items) | FList items =>
      items' <- visit_list_with visit items ;; ret (FList items')
  | FNode c => c' <- visit c ;; ret (field_of_node c')
  | FAtom a => ret (FAtom a)
  end.

(** [NodeTransformer.visit] with the methods of [_ReferenceReplacer]:
    [visit_ref] for names, attributes and subscripts, [visit_Call],
    [visit_Expr], [visit_FunctionDef], and [generic_visit] for the
    rest. *)
Fixpoint visit (n : node) : M node :=
  match n with
  | Name _ _ | Attribute _ _ _ | Subscript _ _ _ => get hst obj funcname n
  | Call func args _ _ _ => visit_Call_with (mapM visit args) func
  | Expr value =>
      match value with
      | Call func args _ _ _ =>
          r <- visit_Call_with (mapM visit args) func ;;
          match r with
          | PyList _ => ret r
          | _ => ret (Expr r)
          end
      | _ => value' <- visit_child_with visit value ;; ret (Expr value')
      end
  | FunctionDef name args body _ returns =>
      args' <- visit_child_with visit args ;;
      body' <- visit_list_with visit body ;;
      returns' <- visit_option_with visit returns ;;
      ret (FunctionDef name args' body' [] returns')
  | arguments args more =>
      args' <- visit_list_with visit args ;;
      more' <- mapM (visit_field_with visit) more ;;
      ret (arguments args' more')
  | arg a annotation =>
      annotation' <- visit_option_with visit annotation ;;
      ret (arg a annotation')
  | Generic cls fields =>
      fields' <- mapM (visit_field_with visit) fields ;;
      ret (Generic cls fields')
  | Num _ | Str _ => ret n
  | PyList _ => raise AttributeError
  end.

Definition visit_Call (n : node) : M node :=
  match n with
  | Call func args _ _ _ => visit_Call_with (mapM visit args) func
  | _ => raise AttributeError
  end.
End Replacer.

(** ** The read-only parameter analysis *)

(** [arg.arg], for a node of class [arg]. *)
Definition arg_name (a : node) : option string :=
  match a with
  | arg name _ => Some name
  | _ => None
  end.

(** [[arg.arg for arg in args]] *)
Fixpoint arg_names (args : list node) : option (list string) :=
  match args with
  | [] => Some []
  | a :: args' =>
      match arg_name a, arg_names args' with
      | Some x, Some xs => Some (x :: xs)
      | _, _ => None
      end
  end.

(** The state of [_ListReadOnlyParams] is its attribute
    [read_only_params], absent before the function definition is met. *)
Definition LRP : Type := option (gset string) → exn + option (gset string).

Definition lrp_skip : LRP := λ st, inr st.

Definition lrp_seq (a b : LRP) : LRP :=
  λ st, match a st with
        | inl e => inl e
        | inr st' => b st'
        end.

Definition lrp_list_with (visit : node → LRP) : list node → LRP :=
  fix go l :=
    match l with
    | [] => lrp_skip
    | x :: l' =>
        lrp_seq (match x with PyList _ => lrp_skip | _ => visit x end) (go l')
    end.

Definition lrp_child_with (visit : node → LRP) (c : node) : LRP :=
  match c with
  | PyList items => lrp_list_with visit items
  | _ => visit c
  end.

Definition lrp_option_with (visit : node → LRP) (o : option node) : LRP :=
  match o with
  | None => lrp_skip
  | Some c => lrp_child_with visit c
  end.

Definition lrp_field_with (visit : node → LRP) (f : field) : LRP :=
  match f with
  | FNode c => lrp_child_with visit c
  | FList items => lrp_list_with visit items
  | FAtom _ => lrp_skip
  end.

Definition lrp_fields_with (visit : node → LRP) : list field → LRP :=
  fix go fs :=
    match fs with
    | [] => lrp_skip
    | f :: fs' => lrp_seq (lrp_field_with visit f) (go fs')
    end.

(** [NodeVisitor.visit] with [visit_FunctionDef] and [visit_Name] of
    [_ListReadOnlyParams]; every other class goes through
    [generic_visit], which visits the fields in order. *)
Fixpoint lrp_visit (n : node) : LRP :=
  match n with
  | FunctionDef _ args body decorator_list returns =>
      λ st,
        match st with
        | Some _ => inl (ValueError "More than one function definition")
        | None =>
            match args with
            | arguments params _ =>
                match arg_names params with
                | Some names =>
                    lrp_seq (lrp_child_with lrp_visit args)
                      (lrp_seq (lrp_list_with lrp_visit body)
                         (lrp_seq (lrp_list_with lrp_visit decorator_list)
                                  (lrp_option_with lrp_visit returns)))
                      (Some (list_to_set names))
                | None => inl AttributeError
                end
            | _ => inl AttributeError
            end
        end
  | Name id ctx =>
      λ st,
        if bool_decide (ctx = Store) then
          match st with
          | Some read_only_params => inr (Some (read_only_params ∖ {[id]}))
          | None => inl AttributeError
          end
        else inr st
  | Attribute value _ _ => lrp_child_with lrp_visit value
  | Subscript value slice _ =>
      lrp_seq (lrp_child_with lrp_visit value) (lrp_child_with lrp_visit slice)
  | Call func args keywords starargs kwargs =>
      lrp_seq (lrp_child_with lrp_visit func)
        (lrp_seq (lrp_list_with lrp_visit args)
           (lrp_seq (lrp_list_with lrp_visit keywords)
              (lrp_seq (lrp_option_with lrp_visit starargs)
                       (lrp_option_with lrp_visit kwargs))))
  | Expr value => lrp_child_with lrp_visit value
  | arguments args more =>
      lrp_seq (lrp_list_with lrp_visit args) (lrp_fields_with lrp_visit more)
  | arg _ annotation => lrp_option_with lrp_visit annotation
  | Generic _ fields => lrp_fields_with lrp_visit fields
  | Num _ | Str _ => lrp_skip
  | PyList _ => λ _, inl AttributeError
  end.

Definition _list_read_only_params (funcdef : node) : exn + gset string :=
  match lrp_visit funcdef None with
  | inl e => inl e
  | inr None => inl AttributeError
  | inr (Some read_only_params) => inr read_only_params
  end.

(** ** The entry point *)

Section Inline.
Context (hst : host).

(** The loop of [_initialize_function_params] over
    [zip(funcdef.args.args, k_args)]; it returns the statements appended
    to [param_init]. *)
Fixpoint initialize_loop (obj : value) (funcname : string) (rop : gset string)
    (params : list node) (k_args : list value) : M (list node) :=
  match params, k_args with
  | arg_ast :: params', arg_value :: k_args' =>
      match arg_name arg_ast with
      | None => raise AttributeError
      | Some name =>
          init <- (if bool_decide (name ∈ rop) then
                     set hst obj funcname name arg_value ;;; ret []
                   else
                     target <- get hst obj funcname (Name name Store) ;;
                     let value := _value_to_ast hst arg_value in
                     ret [Assign [target] value]) ;;
          rest <- initialize_loop obj funcname rop params' k_args' ;;
          ret (init ++ rest)
      end
  | _, _ => ret []
  end.

Definition _initialize_function_params (funcdef : node) (k_args : list value)
    : M (list node) :=
  match k_args with
  | [] => raise IndexError
  | obj :: _ =>
      match funcdef with
      | FunctionDef funcname fargs _ _ _ =>
          match _list_read_only_params funcdef with
          | inl e => raise e
          | inr rop =>
              match fargs with
              | arguments params _ =>
                  initialize_loop obj funcname rop params k_args
              | _ => raise AttributeError
              end
          end
      | _ => raise AttributeError
      end
  end.

(** The body of [inline], with [inline_rec] for the calls that
    [visit_Call] makes.  [funcdef] is the tree of [k_function]. *)
Definition inline_with (inline_rec : node → list value → M (list node))
    (funcdef : node) (k_args : list value) : M (list node) :=
  param_init <- _initialize_function_params funcdef k_args ;;
  match k_args, funcdef with
  | obj :: _, FunctionDef funcname _ _ _ _ =>
      visited <- visit hst inline_rec obj funcname funcdef ;;
      match visited with
      | FunctionDef _ _ body _ _ => ret (param_init ++ body)
      | _ => raise AttributeError
      end
  | _, _ => raise AttributeError
  end.

(** [inline] on a shared reference manager.  The fuel is the depth of
    nested inlining that the interpreter's recursion limit allows. *)
Fixpoint inline_rm (fuel : nat) (k_function : node) (k_args : list value)
    : M (list node) :=
  match fuel with
  | O => raise RecursionError
  | S fuel' => inline_with (inline_rm fuel') k_function k_args
  end.

(** [inline(k_function, k_args, k_kwargs)] with [rm=None]: a new
    reference manager, and the pair of the body and [rm.rpc_map] as the
    result. *)
Definition inline (fuel : nat) (k_function : node) (k_args : list value)
    : exn + (list node * list (value * nat)) :=
  match inline_rm fuel k_function k_args (__init__ hst) with
  | inl e => inl e
  | inr (body, rm) => inr (body, rpc_map rm)
  end.
End Inline.

(** ** A sample host and sample kernels *)

(** [def g(self, a): self.log(a); return a] *)
Definition kernel_g : node :=
  FunctionDef "g" (arguments [arg "self" None; arg "a" None] [])
    [Expr (Call (Attribute (Name "self" Load) "log" Load) [Name "a" Load] [] None None);
     Return (Some (Name "a" Load))]
    [Name "kernel" Load] None.

Definition sample_owner : value := VObject 1.

(** An identity for the objects of the samples; the values that are no
    objects or callables share one. *)
Definition sample_id (v : value) : positive :=
  match v with
  | VObject o => o~0~0
  | VQuantity o _ _ => o~0~1
  | VCallable units_Quantity => 11
  | VCallable experiment_delay => 15
  | VCallable experiment_at => 19
  | VCallable experiment_now => 23
  | VCallable experiment_syscall => 27
  | VCallable builtin_range => 31
  | VCallable (host_function o _) => o~1~0
  | VNone => 3
  | _ => 7
  end.

Definition sample_experiment (kg : string) : value :=
  if String.eqb kg "sequential" then VObject 20
  else if String.eqb kg "parallel" then VObject 21
  else if String.eqb kg "delay" then VCallable experiment_delay
  else if String.eqb kg "now" then VCallable experiment_now
  else if String.eqb kg "at" then VCallable experiment_at
  else VCallable experiment_syscall.

Definition sample_module : gmap string value :=
  list_to_map
    [("Quantity", VCallable units_Quantity);
     ("delay", VCallable experiment_delay);
     ("at", VCallable experiment_at);
     ("now", VCallable experiment_now);
     ("syscall", VCallable experiment_syscall);
     ("range", VCallable builtin_range);
     ("N", VNum (PInt 10));
     ("ratio", VNum (PFloat 3 (-1)));
     ("helper", VCallable (host_function 9 "helper"))].

(** The owner has a host method [log] and the kernel method [g]. *)
Definition sample_getattr (v : value) (a : string) : option value :=
  match v with
  | VObject 1 =>
      if String.eqb a "log" then Some (VCallable (host_function 7 "log"))
      else if String.eqb a "g" then Some (VKernel (Some (VObject 1)) kernel_g)
      else if String.eqb a "period" then Some (VQuantity 5 (PInt 2) "s")
      else None
  | _ => None
  end.

Definition sample_host : host :=
  {| py_id := sample_id;
     kernel_globals := ["sequential"; "parallel"; "delay"; "now"; "at"; "syscall"];
     experiment_getattr := sample_experiment;
     getmodule := λ _, Some sample_module;
     py_getattr := sample_getattr |}.

(** [def f(self, y): y = y + 1; z = self.g(y); self.g(4)] *)
Definition kernel_f : node :=
  FunctionDef "f" (arguments [arg "self" None; arg "y" None] [])
    [Assign [Name "y" Store] (Some (BinOp (Name "y" Load) "Add" (Num (PInt 1))));
     Assign [Name "z" Store]
       (Some (Call (Attribute (Name "self" Load) "g" Load) [Name "y" Load] [] None None));
     Expr (Call (Attribute (Name "self" Load) "g" Load) [Num (PInt 4)] [] None None)]
    [Name "kernel" Load] None.

(** [def h(self, delay): delay(N)] *)
Definition kernel_h : node :=
  FunctionDef "h" (arguments [arg "self" None; arg "delay" None] [])
    [Expr (Call (Name "delay" Load) [Name "N" Load] [] None None)]
    [Name "kernel" Load] None.

(** [def k(self, y): y = y + 1; self.g(y)] *)
Definition kernel_k : node :=
  FunctionDef "k" (arguments [arg "self" None; arg "y" None] [])
    [Assign [Name "y" Store] (Some (BinOp (Name "y" Load) "Add" (Num (PInt 1))));
     Expr (Call (Attribute (Name "self" Load) "g" Load) [Name "y" Load] [] None None)]
    [Name "kernel" Load] None.

(** [def m(self): helper(self.log(1))] *)
Definition kernel_m : node :=
  FunctionDef "m" (arguments [arg "self" None] [])
    [Expr (Call (Name "helper" Load)
             [Call (Attribute (Name "self" Load) "log" Load) [Num (PInt 1)] [] None None]
             [] None None)]
    [Name "kernel" Load] None.

(** The reference manager of the sample owner after [self] was bound in
    the kernel [k], and after the parameter [delay] of [h] was bound to a
    host function. *)
Definition sample_rm_k : _ReferenceManager :=
  set_to_inlined (<[(sample_id sample_owner, "k", "self") := Bound sample_owner]>)
    (__init__ sample_host).

Definition sample_rm_h : _ReferenceManager :=
  set_to_inlined
    (<[(sample_id sample_owner, "h", "delay") := Bound (VCallable (host_function 9 "helper"))]>)
    (__init__ sample_host).

(** The statements and the reference manager that
    [_initialize_function_params] gives for [k] called with 2. *)
Definition sample_init_k : list node * _ReferenceManager :=
  match _initialize_function_params sample_host kernel_k
          [sample_owner; VNum (PInt 2)] (__init__ sample_host) with
  | inr r => r
  | inl _ => ([], __init__ sample_host)
  end.

(** ** Notions of the specification *)

(** A primitive number: an [int], a [bool] or a [float]. *)
Definition is_primitive_number (v : value) : bool :=
  match v with VNum _ => true | _ => false end.

(** A global singleton recognised by identity: the value is an attribute
    of [experiment] that [kernel_globals] names. *)
Definition is_kernel_global (hst : host) (v : value) : bool :=
  existsb (λ kg, py_is hst v (experiment_getattr hst kg)) (kernel_globals hst).

(** The values the encoder turns into a literal. *)
Definition encodable (hst : host) (v : value) : bool :=
  isinstance_int v || isinstance_str v || is_kernel_global hst v
  || isinstance_Quantity v.

(** A folded constant: a binding that is neither a renamed variable nor a
    syntax tree. *)
Definition is_folded_constant (b : binding) : bool :=
  match b with
  | Bound v => negb (isinstance_AST v)
  | _UserVariable _ => false
  end.

(** The callables in the order of their first encounter. *)
Definition first_encounters (seen : list value) (funcs : list value) : list value :=
  foldl (λ acc f, if bool_decide (f ∈ acc) then acc else acc ++ [f]) seen funcs.

(** The position of a callable in a list without repetition. *)
Fixpoint position (f : value) (l : list value) : nat :=
  match l with
  | [] => O
  | g :: l' => if bool_decide (g = f) then O else S (position f l')
  end.

(** A registry whose numbers are [0, 1, ...] in the order of entry. *)
Definition registry_of (funcs : list value) : list (value * nat) :=
  imap (λ i f, (f, i)) funcs.

(** ** Invariants of the reference manager *)

(** The name [r] was issued by the allocator with counts [uc]: it is a
    base with a count that does not end in a digit, either as it is (and
    then it is no reserved name) or followed by a number below the
    count. *)
Definition issued_ok (reserved : list string) (uc : gmap string nat) (r : string)
    : Prop :=
  ∃ b n, uc !! b = Some n ∧ ends_with_digit b = false
         ∧ ((r = b ∧ b ∉ reserved) ∨ (∃ k, (k < n)%nat ∧ r = b +:+ str k)).

Definition allocator_inv (reserved : list string) (uc : gmap string nat)
    (issued : list string) : Prop :=
  NoDup issued
  ∧ Forall (issued_ok reserved uc) issued
  ∧ Forall (λ r, is_Some (uc !! r) ∧ ends_with_digit r = false) reserved.

(** The scope key of a reference has no binding: a name whose key
    [to_inlined] lacks; an attribute or a subscript has no key. *)
Definition unbound (hst : host) (rm : _ReferenceManager) (obj : value)
    (funcname : string) (ref : node) : Prop :=
  match ref with
  | Name id _ => to_inlined rm !! (py_id hst obj, funcname, id) = None
  | _ => True
  end.

Definition is_attribute_or_subscript (ref : node) : bool :=
  match ref with
  | Attribute _ _ _ | Subscript _ _ _ => true
  | _ => false
  end.

(** A registry numbered [0, 1, ...] in the order of entry, without a
    callable entered twice. *)
Definition registry_ok (l : list (value * nat)) : Prop :=
  l = registry_of (map fst l) ∧ NoDup (map fst l).

(** The renamed variables of a reference manager are names that the
    allocator issued, and two keys never share one. *)
Definition names_ok (hst : host) (rm : _ReferenceManager) : Prop :=
  ∃ issued,
    allocator_inv (reserved_names hst) (use_count rm) issued
    ∧ (∀ key name, to_inlined rm !! key = Some (_UserVariable name) → name ∈ issued)
    ∧ (∀ k1 k2 name,
         to_inlined rm !! k1 = Some (_UserVariable name) →
         to_inlined rm !! k2 = Some (_UserVariable name) → k1 = k2).

(** What a step of a session keeps: the two invariants, and the entries
    that the registry already has. *)
Definition session_step (hst : host) (rm rm' : _ReferenceManager) : Prop :=
  (names_ok hst rm → names_ok hst rm')
  ∧ (registry_ok (rpc_map rm) → registry_ok (rpc_map rm'))
  ∧ rpc_map rm `prefix_of` rpc_map rm'.

(** A computation all of whose successful runs are related by [R]. *)
Definition keeps (R : relation _ReferenceManager) {A} (m : M A) : Prop :=
  ∀ rm a rm', m rm = inr (a, rm') → R rm rm'.

(** A binding that is there stays there. *)
Definition binding_stands (key : positive * string * string) (b : binding)
    : relation _ReferenceManager :=
  λ rm rm', to_inlined rm !! key = Some b → to_inlined rm' !! key = Some b.

(** The nested inlining that [visit_Call] runs for a kernel function:
    the arguments are visited, the owner is put before them and [inline]
    is called on the same reference manager. *)
Definition nested_inline (hst : host) (inline_rec : node → list value → M (list node))
    (obj : value) (funcname : string) (args : list node) (owner : value)
    (k_function : node) : M (list node) :=
  new_args <- mapM (visit hst inline_rec obj funcname) args ;;
  inline_rec k_function (owner :: map value_of_node new_args).

(** The names that occur in the tree as a [Name] in [Store] context, over
    the nodes that a [NodeVisitor] reaches. *)
Definition targets_list_with (f : node → gset string) : list node → gset string :=
  fix go l :=
    match l with
    | [] => ∅
    | x :: l' => (match x with PyList _ => ∅ | _ => f x end) ∪ go l'
    end.

Definition targets_child_with (f : node → gset string) (c : node) : gset string :=
  match c with
  | PyList items => targets_list_with f items
  | _ => f c
  end.

Definition targets_option_with (f : node → gset string) (o : option node)
    : gset string :=
  match o with
  | None => ∅
  | Some c => targets_child_with f c
  end.

Definition targets_field_with (f : node → gset string) (fld : field) : gset string :=
  match fld with
  | FNode c => targets_child_with f c
  | FList items => targets_list_with f items
  | FAtom _ => ∅
  end.

Definition targets_fields_with (f : node → gset string) : list field → gset string :=
  fix go fs :=
    match fs with
    | [] => ∅
    | fld :: fs' => targets_field_with f fld ∪ go fs'
    end.

Fixpoint store_targets (n : node) : gset string :=
  match n with
  | Name id ctx => if bool_decide (ctx = Store) then {[id]} else ∅
  | Attribute value _ _ => targets_child_with store_targets value
  | Subscript value slice _ =>
      targets_child_with store_targets value ∪ targets_child_with store_targets slice
  | Call func args keywords starargs kwargs =>
      targets_child_with store_targets func
      ∪ targets_list_with store_targets args
      ∪ targets_list_with store_targets keywords
      ∪ targets_option_with store_targets starargs
      ∪ targets_option_with store_targets kwargs
  | Expr value => targets_child_with store_targets value
  | FunctionDef _ args body decorator_list returns =>
      targets_child_with store_targets args
      ∪ targets_list_with store_targets body
      ∪ targets_list_with store_targets decorator_list
      ∪ targets_option_with store_targets returns
  | arguments args more =>
      targets_list_with store_targets args ∪ targets_fields_with store_targets more
  | arg _ annotation => targets_option_with store_targets annotation
  | Generic _ fields => targets_fields_with store_targets fields
  | Num _ | Str _ | PyList _ => ∅
  end.

(** A visit of the analysis that removes the names [T] from the set of
    read-only parameters. *)
Definition removes (v : LRP) (T : gset string) : Prop :=
  ∀ s st', v (Some s) = inr st' → st' = Some (s ∖ T).

Definition removes_at (n : node) : Prop :=
  removes (lrp_visit n) (store_targets n)
  ∧ ∀ items, n = PyList items →
      removes (lrp_list_with lrp_visit items) (targets_list_with store_targets items).

(** [stmt] is the initialization of the parameter [qv.1] with the argument
    [qv.2]: the assignment of the encoder's result, whatever it is, to the
    renamed variable that the reference manager holds for the parameter. *)
Definition initializes (hst : host) (rm : _ReferenceManager) (obj : value)
    (funcname : string) (stmt : node) (qv : string * value) : Prop :=
  ∃ iname,
    stmt = Assign [Name iname Store] (_value_to_ast hst qv.2)
    ∧ to_inlined rm !! (py_id hst obj, funcname, qv.1) = Some (_UserVariable iname).

(** ** Predicates of the proofs *)

(** A list of characters that does not end in a digit. *)
Definition no_digit_end (l : list ascii) : Prop :=
  match last l with Some c => isdigit c = false | None => True end.

(** A predicate on the node that an optional field or a field holds. *)
Definition option_Forall {A} (P : A → Prop) (o : option A) : Prop :=
  match o with Some x => P x | None => True end.

Definition field_Forall (P : node → Prop) (f : field) : Prop :=
  match f with
  | FNode n => P n
  | FList l => Forall P l
  | FAtom _ => True
  end.

(** The visit of a node keeps [R], and so does the visit of the items
    when the node is a list. *)
Definition visit_keeps_at (R : relation _ReferenceManager) (hst : host)
    (inline_rec : node → list value → M (list node)) (obj : value)
    (funcname : string) (n : node) : Prop :=
  keeps R (visit hst inline_rec obj funcname n)
  ∧ ∀ items, n = PyList items →
      keeps R (visit_list_with (visit hst inline_rec obj funcname) items).

(** ** Further notions: scopes, nested definitions, inert trees *)

(** The bindings outside the scope of [obj] and [funcname] are the same
    in both reference managers. *)
Definition same_outside (hst : host) (obj : value) (funcname : string)
    : relation _ReferenceManager :=
  λ rm rm', ∀ oid fn local,
    (oid ≠ py_id hst obj ∨ fn ≠ funcname) →
    to_inlined rm' !! (oid, fn, local) = to_inlined rm !! (oid, fn, local).

(** A function definition among the nodes that a [NodeVisitor] reaches
    from a list, a field or a node. *)
Definition defs_list_with (f : node → bool) : list node → bool :=
  fix go l :=
    match l with
    | [] => false
    | x :: l' => (match x with PyList _ => false | _ => f x end) || go l'
    end.

Definition defs_child_with (f : node → bool) (c : node) : bool :=
  match c with
  | PyList items => defs_list_with f items
  | _ => f c
  end.

Definition defs_option_with (f : node → bool) (o : option node) : bool :=
  match o with
  | None => false
  | Some c => defs_child_with f c
  end.

Definition defs_field_with (f : node → bool) (fld : field) : bool :=
  match fld with
  | FNode c => defs_child_with f c
  | FList items => defs_list_with f items
  | FAtom _ => false
  end.

Definition defs_fields_with (f : node → bool) : list field → bool :=
  fix go fs :=
    match fs with
    | [] => false
    | fld :: fs' => defs_field_with f fld || go fs'
    end.

Fixpoint holds_def (n : node) : bool :=
  match n with
  | FunctionDef _ _ _ _ _ => true
  | Name _ _ | Num _ | Str _ | PyList _ => false
  | Attribute value _ _ => defs_child_with holds_def value
  | Subscript value slice _ =>
      defs_child_with holds_def value || defs_child_with holds_def slice
  | Call func args keywords starargs kwargs =>
      defs_child_with holds_def func
      || defs_list_with holds_def args
      || defs_list_with holds_def keywords
      || defs_option_with holds_def starargs
      || defs_option_with holds_def kwargs
  | Expr value => defs_child_with holds_def value
  | arguments args more =>
      defs_list_with holds_def args || defs_fields_with holds_def more
  | arg _ annotation => defs_option_with holds_def annotation
  | Generic _ fields => defs_fields_with holds_def fields
  end.

(** A function definition inside the function definition [funcdef]. *)
Definition holds_nested_def (funcdef : node) : bool :=
  match funcdef with
  | FunctionDef _ args body decorator_list returns =>
      defs_child_with holds_def args
      || defs_list_with holds_def body
      || defs_list_with holds_def decorator_list
      || defs_option_with holds_def returns
  | _ => false
  end.

(** The analysis of a node in a state that has [read_only_params]: it
    raises when the node holds a function definition and removes the
    [Store] targets otherwise. *)
Definition lrp_outcome (v : LRP) (d : bool) (T : gset string) : Prop :=
  ∀ s, v (Some s) =
       if d then inl (ValueError "More than one function definition")
       else inr (Some (s ∖ T)).

Definition lrp_outcome_at (n : node) : Prop :=
  match n with
  | PyList items =>
      lrp_outcome (lrp_list_with lrp_visit items)
        (defs_list_with holds_def items) (targets_list_with store_targets items)
  | _ => lrp_outcome (lrp_visit n) (holds_def n) (store_targets n)
  end.

(** Every renamed variable begins with the local name of its scope key. *)
Definition names_traceable (rm : _ReferenceManager) : Prop :=
  ∀ oid fn local name,
    to_inlined rm !! (oid, fn, local) = Some (_UserVariable name) →
    ∃ suffix, name = local +:+ suffix.

(** A step that keeps [names_traceable]. *)
Definition traceable_step : relation _ReferenceManager :=
  λ rm rm', names_traceable rm → names_traceable rm'.

(** The callables that [visit_Call] sends to its last branch: hashable,
    no member of [_embeddable_calls] and without [k_function_info]. *)
Definition is_remote (func : value) : bool :=
  negb (is_unhashable func)
  && negb (bool_decide (func ∈ _embeddable_calls))
  && match func with VKernel _ _ => false | _ => true end.

(** The remote call that stands for a call of the callable numbered [i]. *)
Definition remote_call (i : nat) (new_args : list node) : node :=
  Call (Name "syscall" Load) ([Str "rpc"; Num (PInt (Z.of_nat i))] ++ new_args)
    [] None None.

(** A tree without references, calls, decorators or lists in the place
    of a node: literals and the statements and expressions built from
    them. *)
Definition inert_field_with (f : node → bool) (fld : field) : bool :=
  match fld with
  | FNode (PyList _) => false
  | FNode c => f c
  | FList items => forallb f items
  | FAtom _ => true
  end.

Definition inert_option_with (f : node → bool) (o : option node) : bool :=
  match o with
  | None => true
  | Some c => f c
  end.

Fixpoint inert (n : node) : bool :=
  match n with
  | Num _ | Str _ => true
  | Expr value =>
      match value with
      | Call _ _ _ _ _ => false
      | _ => inert value
      end
  | FunctionDef _ args body decorator_list returns =>
      inert args && forallb inert body
      && bool_decide (decorator_list = []) && inert_option_with inert returns
  | arguments args more =>
      forallb inert args && forallb (inert_field_with inert) more
  | arg _ annotation => inert_option_with inert annotation
  | Generic _ fields => forallb (inert_field_with inert) fields
  | Name _ _ | Attribute _ _ _ | Subscript _ _ _ | Call _ _ _ _ _ | PyList _ => false
  end.

(** Every successful run of [m1] is a run of [m2] with the same
    result. *)
Definition refines {A} (m1 m2 : M A) : Prop :=
  ∀ rm r, m1 rm = inr r → m2 rm = inr r.

Definition visit_refines_at (hst : host)
    (rec1 rec2 : node → list value → M (list node)) (obj : value)
    (funcname : string) (n : node) : Prop :=
  refines (visit hst rec1 obj funcname n) (visit hst rec2 obj funcname n)
  ∧ ∀ items, n = PyList items →
      refines (visit_list_with (visit hst rec1 obj funcname) items)
        (visit_list_with (visit hst rec2 obj funcname) items).

(** The visit of an inert tree returns the tree and leaves the reference
    manager alone. *)
Definition visit_fixes (hst : host) (inline_rec : node → list value → M (list node))
    (obj : value) (funcname : string) (n : node) : Prop :=
  inert n = true →
  ∀ rm, visit hst inline_rec obj funcname n rm = inr (n, rm).


(** ** Further samples *)



(** [def n(self, a): (def inner(b): b = a); a = 1], a kernel with a
    function definition inside. *)
Definition kernel_n : node :=
  FunctionDef "n" (arguments [arg "self" None; arg "a" None] [])
    [FunctionDef "inner" (arguments [arg "b" None] [])
       [Assign [Name "b" Store] (Some (Name "a" Load))] [] None;
     Assign [Name "a" Store] (Some (Num (PInt 1)))]
    [Name "kernel" Load] None.

(** The statements [pass; 1; return None], which hold no reference. *)
Definition inert_statements : list node :=
  [Generic "Pass" []; Expr (Num (PInt 1)); Return None].

(** The statements and the reference manager that [inline] gives for [h]
    called with a host function. *)
Definition sample_run_h : list node * _ReferenceManager :=
  match inline_rm sample_host 3 kernel_h
          [sample_owner; VCallable (host_function 9 "helper")] (__init__ sample_host) with
  | inr r => r
  | inl _ => ([], __init__ sample_host)
  end.

(** The statements and the reference manager that [inline] gives for [k]
    called with 2. *)
Definition sample_run_k : list node * _ReferenceManager :=
  match inline_rm sample_host 3 kernel_k
          [sample_owner; VNum (PInt 2)] (__init__ sample_host) with
  | inr r => r
  | inl _ => ([], __init__ sample_host)
  end.

(** * Properties *)

(** ** The value encoder *)

Section EncoderFacts.
Context (hst : host).

Lemma find_kernel_global_Some v kgs kg :
  find_kernel_global hst v kgs = Some kg →
  kg ∈ kgs ∧ py_is hst v (experiment_getattr hst kg) = true.
Proof.
  induction kgs as [|k kgs IH]; simpl; [done|].
  destruct (py_is hst v (experiment_getattr hst k)) eqn:E.
  - intros [= <-]. split; [left | done].
  - intros H. destruct (IH H) as [? ?]. split; [by right | done].
Qed.

Lemma find_kernel_global_is_Some v kgs :
  is_Some (find_kernel_global hst v kgs) ↔
  existsb (λ kg, py_is hst v (experiment_getattr hst kg)) kgs = true.
Proof.
  induction kgs as [|k kgs IH]; simpl.
  - split; [by intros [? ?] | done].
  - destruct (py_is hst v (experiment_getattr hst k)); simpl; [|done].
    split; [done | by eexists].
Qed.

Lemma value_to_ast_is_Some v :
  is_Some (_value_to_ast hst v) ↔ encodable hst v = true.
Proof.
  unfold encodable, is_kernel_global.
  pose proof (find_kernel_global_is_Some v (kernel_globals hst)) as Hk.
  destruct (existsb _ (kernel_globals hst)) eqn:Ex.
  - assert (is_Some (find_kernel_global hst v (kernel_globals hst))) as [kg Hkg]
      by by apply Hk.
    rewrite orb_true_r; simpl.
    destruct v as [[]| | | | | | | |]; simpl; rewrite ?Hkg; by split.
  - assert (find_kernel_global hst v (kernel_globals hst) = None) as Hn.
    { destruct (find_kernel_global _ _ _) eqn:E; [|done].
      assert (false = true) by (apply Hk; by eexists). done. }
    destruct v as [[]| | | | | | | |]; simpl; rewrite ?Hn; simpl;
      split; try done; by intros [? ?].
Qed.
End EncoderFacts.

(** C7, as the code has it.  [_value_to_ast] is total (it raises nothing)
    and returns a literal exactly for an [int] (a [bool] included), a
    [str], an attribute of [experiment] named by [kernel_globals] and
    recognised by identity, or a [Quantity]; every other value, a [float]
    included, gives [None].  The literal is the number, the string, the
    global's name, or the call of [Quantity] on the amount and the
    base-unit constant, in this order of precedence. *)
Theorem value_to_ast_total_cases (hst : host) (v : value) :
  (is_Some (_value_to_ast hst v) ↔ encodable hst v = true)
  ∧ (∀ lit, _value_to_ast hst v = Some lit →
       (∃ n, v = VNum n ∧ isinstance_int v = true ∧ lit = Num n)
       ∨ (∃ s, v = VStr s ∧ lit = Str s)
       ∨ (∃ kg, kg ∈ kernel_globals hst
                ∧ py_is hst v (experiment_getattr hst kg) = true
                ∧ lit = Name kg Load)
       ∨ (∃ oid amount unit_name, v = VQuantity oid amount unit_name
            ∧ lit = Call (Name "Quantity" Load)
                      [Num amount; Name ("base_" +:+ unit_name +:+ "_unit") Load]
                      [] None None)).
Proof.
  split; [apply value_to_ast_is_Some|].
  intros lit H.
  assert (isinstance_int v = false → isinstance_str v = false →
          (match find_kernel_global hst v (kernel_globals hst) with
           | Some kg => Some (Name kg Load)
           | None => match v with
                     | VQuantity _ amount unit_name =>
                         Some (Call (Name "Quantity" Load)
                                 [Num amount; Name ("base_" +:+ unit_name +:+ "_unit") Load]
                                 [] None None)
                     | _ => None
                     end
           end) = Some lit →
          (∃ kg, kg ∈ kernel_globals hst
                ∧ py_is hst v (experiment_getattr hst kg) = true
                ∧ lit = Name kg Load)
          ∨ (∃ oid amount unit_name, v = VQuantity oid amount unit_name
            ∧ lit = Call (Name "Quantity" Load)
                      [Num amount; Name ("base_" +:+ unit_name +:+ "_unit") Load]
                      [] None None)) as Hrest.
  { intros _ _. destruct (find_kernel_global _ _ _) as [kg|] eqn:E.
    - intros [= <-]. left. exists kg.
      destruct (find_kernel_global_Some _ _ _ _ E). done.
    - destruct v; try done. intros [= <-]. right. by eexists _, _, _. }
  destruct v as [[]| | | | | | | |]; simpl in H;
    try (right; right; by apply Hrest).
  - injection H as <-. left. by eexists.
  - injection H as <-. left. by eexists.
  - injection H as <-. right; left. by eexists.
Qed.

(** C7, counterexample.  The float 1.5 (3 * 2^-1) is a primitive number,
    and the encoder of the sample host returns [None] for it. *)
Lemma value_to_ast_float_not_encoded :
  is_primitive_number (VNum (PFloat 3 (-1))) = true
  ∧ _value_to_ast sample_host (VNum (PFloat 3 (-1))) = None.
Proof. split; reflexivity. Qed.

(** ** Strings and decimal numerals *)

Lemma chars_app (a b : string) :
  list_ascii_of_string (a +:+ b) = list_ascii_of_string a ++ list_ascii_of_string b.
Proof. induction a as [|c a IH]; simpl; [done | by rewrite IH]. Qed.

Lemma chars_inj (a b : string) :
  list_ascii_of_string a = list_ascii_of_string b → a = b.
Proof.
  intros H. rewrite <- (string_of_list_ascii_of_string a),
    <- (string_of_list_ascii_of_string b). by rewrite H.
Qed.

Lemma pretty_N_char_isdigit (x : N) : isdigit (pretty_N_char x) = true.
Proof. unfold pretty_N_char. by repeat case_match. Qed.

Lemma pretty_N_go_digits (x : N) : ∀ s,
  ∃ d, list_ascii_of_string (pretty_N_go x s) = d ++ list_ascii_of_string s
       ∧ Forall (λ c, isdigit c = true) d
       ∧ ((0 < x)%N → d ≠ []).
Proof.
  induction (N.lt_wf_0 x) as [x _ IH]. intros s.
  destruct (decide (x = 0%N)) as [->|Hx].
  - exists []. rewrite pretty_N_go_0. split; [done|]. split; [constructor | lia].
  - rewrite pretty_N_go_step by lia.
    destruct (IH (x `div` 10)%N) with (s := String (pretty_N_char (x `mod` 10)) s)
      as (d & Hd & Hall & _).
    { apply N.div_lt; lia. }
    exists (d ++ [pretty_N_char (x `mod` 10)%N]). split; [|split].
    + rewrite Hd. simpl. by rewrite <- app_assoc.
    + apply Forall_app. split; [done|]. constructor; [|constructor].
      apply pretty_N_char_isdigit.
    + intros _ ?. by destruct d.
Qed.

(** [str(n)] is a string of decimal digits that is not empty. *)
Lemma str_digits (n : nat) :
  Forall (λ c, isdigit c = true) (list_ascii_of_string (str n))
  ∧ list_ascii_of_string (str n) ≠ [].
Proof.
  unfold str, pretty, pretty_nat, pretty, pretty_N.
  case_decide as Hn.
  - split; [by repeat constructor | done].
  - destruct (pretty_N_go_digits (N.of_nat n) "") as (d & Hd & Hall & Hne).
    rewrite Hd. simpl. rewrite app_nil_r. split; [done|]. apply Hne. lia.
Qed.

Lemma str_inj (n m : nat) : str n = str m → n = m.
Proof. apply (inj pretty). Qed.

Lemma no_digit_end_tail c l : no_digit_end (c :: l) → no_digit_end l.
Proof. destruct l; [done|]. unfold no_digit_end. by rewrite last_cons_cons. Qed.

Lemma no_digit_end_not_digits l :
  l ≠ [] → no_digit_end l → Forall (λ c, isdigit c = true) l → False.
Proof.
  intros Hne Hend Hall. unfold no_digit_end in Hend.
  destruct (last l) as [c|] eqn:E.
  - apply last_Some in E as [l' ->].
    apply Forall_app in Hall as [_ Hall]. inversion Hall; subst. congruence.
  - apply last_None in E. done.
Qed.

(** A name splits in one way only into a base that does not end in a digit
    and a run of digits. *)
Lemma base_suffix_unique (b1 b2 d1 d2 : list ascii) :
  b1 ++ d1 = b2 ++ d2 →
  no_digit_end b1 → no_digit_end b2 →
  Forall (λ c, isdigit c = true) d1 → Forall (λ c, isdigit c = true) d2 →
  b1 = b2 ∧ d1 = d2.
Proof.
  revert b2. induction b1 as [|c b1 IH]; intros b2 Heq H1 H2 Hd1 Hd2.
  - destruct b2 as [|c2 b2]; [done|]. exfalso.
    simpl in Heq. subst d1. rewrite app_comm_cons in Hd1.
    apply Forall_app in Hd1 as [Hb2 _].
    by apply (no_digit_end_not_digits (c2 :: b2)).
  - destruct b2 as [|c2 b2].
    + exfalso. simpl in Heq. subst d2. rewrite app_comm_cons in Hd2.
      apply Forall_app in Hd2 as [Hb1 _].
      by apply (no_digit_end_not_digits (c :: b1)).
    + simpl in Heq. injection Heq as -> Heq.
      destruct (IH b2 Heq) as [-> ->]; eauto using no_digit_end_tail.
Qed.

Lemma ends_with_digit_false (s : string) :
  ends_with_digit s = false → no_digit_end (list_ascii_of_string s).
Proof.
  unfold ends_with_digit, last_char, no_digit_end.
  by destruct (last _).
Qed.

Lemma string_split_unique (b1 b2 d1 d2 : string) :
  b1 +:+ d1 = b2 +:+ d2 →
  ends_with_digit b1 = false → ends_with_digit b2 = false →
  Forall (λ c, isdigit c = true) (list_ascii_of_string d1) →
  Forall (λ c, isdigit c = true) (list_ascii_of_string d2) →
  b1 = b2 ∧ d1 = d2.
Proof.
  intros Heq H1 H2 Hd1 Hd2.
  apply (f_equal list_ascii_of_string) in Heq. rewrite !chars_app in Heq.
  destruct (base_suffix_unique _ _ _ _ Heq) as [Hb Hd];
    auto using ends_with_digit_false.
  split; apply chars_inj; assumption.
Qed.

Lemma string_app_empty_r (s : string) : s +:+ "" = s.
Proof.
  induction s as [|c s IH]; [done|].
  change (String c (s +:+ "") = String c s). by rewrite IH.
Qed.

(** The base that [new_name] looks up does not end in a digit. *)
Lemma new_name_base_no_digit (base_name : string) (c : ascii) :
  last_char base_name = Some c →
  ends_with_digit (if isdigit c then base_name +:+ "_" else base_name) = false.
Proof.
  intros Hc. destruct (isdigit c) eqn:E.
  - unfold ends_with_digit, last_char. rewrite chars_app. simpl.
    by rewrite last_snoc.
  - unfold ends_with_digit. by rewrite Hc.
Qed.

(** ** The name allocator *)

Lemma issued_not_reserved reserved uc issued r :
  allocator_inv reserved uc issued → r ∈ issued → r ∉ reserved.
Proof.
  intros (_ & Hiss & Hres) Hr Hin.
  rewrite Forall_forall in Hiss, Hres.
  destruct (Hiss r Hr) as (b & n & Hb & Hend & [[-> Hnot] | (k & Hk & ->)]); [done|].
  destruct (Hres _ Hin) as [_ Hrend].
  destruct (str_digits k) as [Hdig Hne].
  destruct (string_split_unique b (b +:+ str k) (str k) "") as [_ Hs];
    [by rewrite string_app_empty_r | done | done | done | constructor |].
  rewrite Hs in Hne. done.
Qed.

Lemma issued_ok_mono reserved uc b n r :
  (∀ m, uc !! b = Some m → (m ≤ n)%nat) →
  issued_ok reserved uc r → issued_ok reserved (<[b := n]> uc) r.
Proof.
  intros Hle (b0 & n0 & Hb0 & Hend & Hcase).
  destruct (decide (b = b0)) as [->|Hne].
  - exists b0, n. rewrite lookup_insert_eq. split; [done|]. split; [done|].
    destruct Hcase as [?|(k & Hk & ->)]; [by left | right].
    exists k. split; [|done]. specialize (Hle _ Hb0). lia.
  - exists b0, n0. rewrite lookup_insert_ne by done. done.
Qed.

Lemma new_name_step reserved issued base_name rm :
  allocator_inv reserved (use_count rm) issued →
  base_name ≠ "" →
  ∃ r rm', new_name base_name rm = inr (r, rm')
           ∧ allocator_inv reserved (use_count rm') (issued ++ [r])
           ∧ to_inlined rm' = to_inlined rm ∧ rpc_map rm' = rpc_map rm.
Proof.
  intros (Hnd & Hiss & Hres) Hne. unfold new_name.
  destruct (last_char base_name) as [c|] eqn:Hc.
  2:{ exfalso. unfold last_char in Hc. apply last_None in Hc.
      apply Hne, chars_inj. by rewrite Hc. }
  pose proof (new_name_base_no_digit _ _ Hc) as Hend.
  set (b := if isdigit c then base_name +:+ "_" else base_name) in *.
  rewrite Forall_forall in Hiss.
  destruct (use_count rm !! b) as [n|] eqn:Hb.
  - eexists _, _. split; [done|]. simpl. split; [|done].
    destruct (str_digits n) as [Hdig Hnonempty].
    split; [|split].
    + apply NoDup_app. split; [done|]. split; [|apply NoDup_singleton].
      intros r Hr ->%list_elem_of_singleton.
      destruct (Hiss _ Hr) as (b0 & n0 & Hb0 & Hend0 & [[Heq _] | (k & Hk & Heq)]).
      * destruct (string_split_unique b b0 (str n) "") as [_ Hs];
          [by rewrite string_app_empty_r | done | done | done | constructor |].
        rewrite Hs in Hnonempty. done.
      * destruct (str_digits k) as [Hdigk _].
        destruct (string_split_unique b b0 (str n) (str k)) as [-> Hs];
          [done..|].
        apply str_inj in Hs as ->. rewrite Hb in Hb0. injection Hb0 as <-. lia.
    + apply Forall_app. split.
      * apply Forall_forall. intros r Hr. apply issued_ok_mono; [|by apply Hiss].
        intros m. rewrite Hb. intros [= <-]. lia.
      * constructor; [|constructor]. exists b, (S n).
        rewrite lookup_insert_eq. split; [done|]. split; [done|].
        right. exists n. split; [lia | done].
    + eapply Forall_impl; [exact Hres|]. simpl. intros r [Hsome ?]. split; [|done].
      rewrite lookup_insert. case_decide; [by eexists | done].
  - eexists _, _. split; [done|]. simpl. split; [|done].
    assert (b ∉ reserved) as Hbres.
    { intros Hin. rewrite Forall_forall in Hres. destruct (Hres _ Hin) as [[? Hs] _].
      congruence. }
    split; [|split].
    + apply NoDup_app. split; [done|]. split; [|apply NoDup_singleton].
      intros r Hr ->%list_elem_of_singleton.
      destruct (Hiss _ Hr) as (b0 & n0 & Hb0 & Hend0 & [[Heq _] | (k & Hk & Heq)]).
      * subst b0. congruence.
      * destruct (str_digits k) as [Hdigk Hnonempty].
        destruct (string_split_unique b b0 "" (str k)) as [_ Hs];
          [by rewrite string_app_empty_r | done | done | constructor | done |].
        rewrite <- Hs in Hnonempty. done.
    + apply Forall_app. split.
      * apply Forall_forall. intros r Hr. apply issued_ok_mono; [|by apply Hiss].
        intros m. rewrite Hb. done.
      * constructor; [|constructor]. exists b, 1%nat.
        rewrite lookup_insert_eq. split; [done|]. split; [done|]. by left.
    + eapply Forall_impl; [exact Hres|]. simpl. intros r [Hsome ?]. split; [|done].
      rewrite lookup_insert. case_decide; [by eexists | done].
Qed.

Lemma new_names_run reserved bases : ∀ issued rm,
  allocator_inv reserved (use_count rm) issued →
  Forall (λ b, b ≠ "") bases →
  ∃ names rm', mapM new_name bases rm = inr (names, rm')
               ∧ allocator_inv reserved (use_count rm') (issued ++ names).
Proof.
  induction bases as [|b bases IH]; intros issued rm Hinv Hne.
  - exists [], rm. split; [done|]. by rewrite app_nil_r.
  - inversion Hne as [|? ? Hb Hbs]; subst.
    destruct (new_name_step _ _ b rm Hinv Hb) as (r & rm1 & Hrun & Hinv1 & _).
    destruct (IH _ _ Hinv1 Hbs) as (names & rm2 & Hrun2 & Hinv2).
    exists (r :: names), rm2. split.
    + simpl. unfold bind. rewrite Hrun. fold (mapM new_name bases).
      rewrite Hrun2. done.
    + by rewrite <- app_assoc in Hinv2.
Qed.

Lemma reserved_seeded (names : list string) : ∀ (uc : gmap string nat) x,
  x ∈ names ∨ is_Some (uc !! x) →
  is_Some (foldl (λ uc name, <[name := 1%nat]> uc) uc names !! x).
Proof.
  induction names as [|n names IH]; intros uc x; simpl.
  - intros [H|H]; [by apply elem_of_nil in H | done].
  - intros [H|H]; apply IH.
    + apply elem_of_cons in H as [->|H]; [right | by left].
      rewrite lookup_insert_eq. by eexists.
    + right. rewrite lookup_insert. case_decide; [by eexists | done].
Qed.

Lemma init_allocator_inv (hst : host) :
  Forall (λ kg, ends_with_digit kg = false) (kernel_globals hst) →
  allocator_inv (reserved_names hst) (use_count (__init__ hst)) [].
Proof.
  intros Hkg. split; [constructor|]. split; [constructor|].
  apply Forall_forall. intros r Hr. split.
  - apply (reserved_seeded (reserved_names hst) ∅ r). left. exact Hr.
  - unfold reserved_names in Hr.
    rewrite !elem_of_app in Hr. destruct Hr as [Hr | [Hr | Hr]].
    + repeat (apply elem_of_cons in Hr as [->|Hr]; [reflexivity|]).
      by apply elem_of_nil in Hr.
    + rewrite Forall_forall in Hkg. by apply Hkg.
    + apply list_elem_of_singleton in Hr as ->. reflexivity.
Qed.

(** From the reserved names on, the allocator answers every request for a
    base name that is not empty with a name that it did not return before
    and that is not reserved. *)
Lemma new_names_unique_and_unreserved (hst : host) (bases : list string) :
  Forall (λ kg, ends_with_digit kg = false) (kernel_globals hst) →
  Forall (λ b, b ≠ "") bases →
  ∃ names rm', mapM new_name bases (__init__ hst) = inr (names, rm')
               ∧ length names = length bases
               ∧ NoDup names
               ∧ Forall (λ r, r ∉ reserved_names hst) names.
Proof.
  intros Hkg Hne.
  destruct (new_names_run (reserved_names hst) bases [] (__init__ hst))
    as (names & rm' & Hrun & Hinv); [by apply init_allocator_inv | done |].
  exists names, rm'. split; [done|]. simpl in Hinv. split; [|split].
  - clear Hinv Hne. revert names rm' Hrun. generalize (__init__ hst).
    induction bases as [|b bases IH]; intros rm names rm' Hrun.
    + by injection Hrun as <- <-.
    + simpl in Hrun. unfold bind in Hrun.
      destruct (new_name b rm) as [?|[r rm1]]; [done|].
      fold (mapM new_name bases) in Hrun.
      destruct (mapM new_name bases rm1) as [?|[ns rm2]] eqn:E; [done|].
      injection Hrun as <- <-. simpl. f_equal. eapply IH. exact E.
  - apply Hinv.
  - apply Forall_forall. intros r Hr. by eapply issued_not_reserved.
Qed.

(** ** The remote-call registry *)

Lemma rpc_lookup_imap (f : value) (l : list value) : ∀ k,
  rpc_lookup f (imap (λ i g, (g, k + i)%nat) l)
  = if bool_decide (f ∈ l) then Some (k + position f l)%nat else None.
Proof.
  unfold rpc_lookup.
  induction l as [|g l IH]; intros k; simpl; [done|].
  destruct (decide (g = f)) as [->|Hne].
  - rewrite !bool_decide_eq_true_2 by (done || left). simpl.
    by rewrite Nat.add_0_r.
  - rewrite (bool_decide_eq_false_2 (g = f)) by done.
    rewrite (imap_ext _ (λ i g0, (g0, S k + i)%nat)) by (intros; simpl; f_equal; lia).
    rewrite IH. destruct (decide (f ∈ l)).
    + rewrite !bool_decide_eq_true_2 by (done || by right). f_equal. lia.
    + rewrite !bool_decide_eq_false_2; [done | | done].
      intros [?|?]%elem_of_cons; congruence.
Qed.

Lemma rpc_lookup_registry (f : value) (seen : list value) :
  rpc_lookup f (registry_of seen)
  = if bool_decide (f ∈ seen) then Some (position f seen) else None.
Proof. apply (rpc_lookup_imap f seen 0). Qed.

Lemma registry_of_snoc (seen : list value) (f : value) :
  registry_of seen ++ [(f, length (registry_of seen))] = registry_of (seen ++ [f]).
Proof.
  unfold registry_of. rewrite imap_app. simpl.
  by rewrite length_imap, Nat.add_0_r.
Qed.

(** One query of the registry: a callable that is there keeps its number
    and leaves the registry alone; a new one gets the number of entries so
    far and is entered last. *)
Lemma rpc_map_getitem_registry (f : value) (seen : list value) rm :
  rpc_map rm = registry_of seen →
  ∃ rm', rpc_map_getitem f rm = inr (position f (first_encounters seen [f]), rm')
         ∧ rpc_map rm' = registry_of (first_encounters seen [f])
         ∧ to_inlined rm' = to_inlined rm ∧ use_count rm' = use_count rm.
Proof.
  intros Hreg. unfold rpc_map_getitem. rewrite Hreg, rpc_lookup_registry. simpl.
  destruct (decide (f ∈ seen)) as [Hin|Hnin].
  - rewrite !bool_decide_eq_true_2 by done. by exists rm.
  - rewrite !bool_decide_eq_false_2 by done.
    assert (position f (seen ++ [f]) = length (registry_of seen)) as ->.
    { unfold registry_of. rewrite length_imap.
      clear Hreg. induction seen as [|g seen IH]; simpl.
      - by rewrite bool_decide_eq_true_2.
      - rewrite bool_decide_eq_false_2.
        + f_equal. apply IH. intros ?. apply Hnin. by right.
        + intros ->. apply Hnin. by left. }
    eexists. split; [reflexivity|]. split; [|done].
    simpl. rewrite Hreg. apply registry_of_snoc.
Qed.

Lemma first_encounters_cons seen f funcs :
  first_encounters seen (f :: funcs) = first_encounters (first_encounters seen [f]) funcs.
Proof. done. Qed.

Lemma first_encounters_prefix funcs : ∀ seen,
  ∃ extra, first_encounters seen funcs = seen ++ extra.
Proof.
  induction funcs as [|f funcs IH]; intros seen.
  - exists []. by rewrite app_nil_r.
  - rewrite first_encounters_cons. destruct (IH (first_encounters seen [f])) as [e ->].
    simpl. case_bool_decide.
    + by exists e.
    + exists (f :: e). by rewrite <- app_assoc.
Qed.

Lemma first_encounters_NoDup funcs : ∀ seen,
  NoDup seen → NoDup (first_encounters seen funcs).
Proof.
  induction funcs as [|f funcs IH]; intros seen Hnd; [done|].
  rewrite first_encounters_cons. apply IH. simpl. case_bool_decide; [done|].
  apply NoDup_app. split; [done|]. split; [|apply NoDup_singleton].
  intros x Hx ->%list_elem_of_singleton. done.
Qed.

Lemma position_app_l f seen extra :
  f ∈ seen → position f (seen ++ extra) = position f seen.
Proof.
  induction seen as [|g seen IH]; simpl; [by intros ?%elem_of_nil|].
  intros Hin. case_bool_decide; [done|]. f_equal. apply IH.
  apply elem_of_cons in Hin as [->|?]; done.
Qed.

Lemma first_encounters_elem seen f : f ∈ first_encounters seen [f].
Proof.
  simpl. case_bool_decide; [done|]. apply elem_of_app. right. by left.
Qed.

Lemma rpc_ids_run funcs : ∀ seen rm,
  rpc_map rm = registry_of seen →
  ∃ rm', mapM rpc_map_getitem funcs rm
           = inr (map (λ f, position f (first_encounters seen funcs)) funcs, rm')
         ∧ rpc_map rm' = registry_of (first_encounters seen funcs).
Proof.
  induction funcs as [|f funcs IH]; intros seen rm Hreg.
  - by exists rm.
  - destruct (rpc_map_getitem_registry f seen rm Hreg) as (rm1 & Hrun & Hreg1 & _).
    destruct (IH _ _ Hreg1) as (rm2 & Hrun2 & Hreg2).
    exists rm2. split; [|done].
    rewrite map_cons, (first_encounters_cons seen f funcs).
    pose proof (first_encounters_elem seen f) as Helem.
    set (seen1 := first_encounters seen [f]) in *.
    simpl mapM. unfold bind. rewrite Hrun. fold (mapM rpc_map_getitem funcs).
    rewrite Hrun2.
    destruct (first_encounters_prefix funcs seen1) as [e ->].
    by rewrite (position_app_l f seen1 e Helem).
Qed.

(** C5.  From the empty registry of a new session, the queries
    [rpc_map[func]] for a sequence of callables return, for each, its
    position among the distinct callables in the order of their first
    encounter: 0 for the first distinct one, 1 for the second, and the
    number it already has for one met before.  The registry ends as these
    callables numbered 0, 1, ... without gap or repetition. *)
Theorem rpc_ids_dense_in_first_encounter_order (hst : host) (funcs : list value) :
  ∃ rm', mapM rpc_map_getitem funcs (__init__ hst)
           = inr (map (λ f, position f (first_encounters [] funcs)) funcs, rm')
         ∧ rpc_map rm' = registry_of (first_encounters [] funcs)
         ∧ map snd (rpc_map rm') = seq 0 (length (first_encounters [] funcs))
         ∧ NoDup (first_encounters [] funcs).
Proof.
  destruct (rpc_ids_run funcs [] (__init__ hst)) as (rm' & Hrun & Hreg); [done|].
  exists rm'. split; [done|]. split; [done|]. split.
  - rewrite Hreg. unfold registry_of. generalize (first_encounters [] funcs).
    intros l. change (seq 0 (length l)) with (seq 0 (length l)).
    assert (∀ k, map snd (imap (λ i (f : value), (f, k + i)%nat) l) = seq k (length l)) as H.
    { induction l as [|x l IH]; intros k; simpl; [done|].
      rewrite Nat.add_0_r. f_equal.
      rewrite (imap_ext _ (λ i (g0 : value), (g0, S k + i)%nat)) by (intros; simpl; f_equal; lia).
      apply IH. }
    apply (H 0%nat).
  - apply first_encounters_NoDup. constructor.
Qed.

(** The first distinct callable gets 0, the second 1, and asking again
    for the first returns 0. *)
Example rpc_ids_three_queries (hst : host) (f g : value) :
  f ≠ g →
  ∃ rm', mapM rpc_map_getitem [f; g; f] (__init__ hst) = inr ([0; 1; 0]%nat, rm')
         ∧ rpc_map rm' = [(f, 0%nat); (g, 1%nat)].
Proof.
  intros Hne.
  destruct (rpc_ids_run [f; g; f] [] (__init__ hst)) as (rm' & Hrun & Hreg); [done|].
  assert (first_encounters [] [f; g; f] = [f; g]) as HFE.
  { unfold first_encounters. simpl.
    repeat (case_bool_decide; simpl); try done.
    all: repeat match goal with
           | H : _ ∈ [] |- _ => by apply elem_of_nil in H
           | H : _ ∈ [_] |- _ => apply list_elem_of_singleton in H
           | H : ¬ (_ ∈ _ :: _) |- _ => exfalso; apply H; left
           end; try congruence. }
  rewrite HFE in Hrun, Hreg. exists rm'. rewrite Hrun, Hreg. simpl.
  rewrite !(bool_decide_eq_true_2 (f = f)) by done.
  rewrite (bool_decide_eq_false_2 (f = g)) by done.
  by rewrite (bool_decide_eq_true_2 (g = g)) by done.
Qed.

(** In [helper(self.log(1))] the registry is asked for [log] first, when
    the argument is visited, and for [helper] after it. *)
Example rpc_ids_of_nested_calls :
  inline sample_host 3 kernel_m [sample_owner]
  = inr ([Expr (Call (Name "syscall" Load)
                  [Str "rpc"; Num (PInt 1);
                   Call (Name "syscall" Load)
                     [Str "rpc"; Num (PInt 0); Num (PInt 1)] [] None None]
                  [] None None)],
         [(VCallable (host_function 7 "log"), 0%nat);
          (VCallable (host_function 9 "helper"), 1%nat)]).
Proof. vm_compute. reflexivity. Qed.

(** ** Resolution of references *)

Section GetFacts.
Context (hst : host).

(** [get] on a reference in a context other than [Store] that the
    [isinstance(ref, ast.Name)] block does not settle. *)
Lemma get_falls_through obj funcname ref ctx rm :
  node_ctx ref = Some ctx → ctx ≠ Store →
  unbound hst rm obj funcname ref →
  get hst obj funcname ref rm =
    match _replace_global hst obj ref with
    | Some repl => inr (repl, rm)
    | None => inl KeyError
    end.
Proof.
  intros Hctx Hns Hun. unfold get. rewrite Hctx.
  rewrite (bool_decide_eq_false_2 _ Hns). unfold bind.
  destruct ref; try done; simpl in *.
  - injection Hctx as ->. unfold get_name. rewrite Hun.
    by destruct (_replace_global _ _ _).
  - by destruct (_replace_global _ _ _).
  - by destruct (_replace_global _ _ _).
Qed.

Lemma get_constants_lookup rm obj funcname local :
  get_constants hst rm obj funcname !! local =
    match to_inlined rm !! (py_id hst obj, funcname, local) with
    | Some (Bound v) => if isinstance_AST v then None else Some v
    | _ => None
    end.
Proof.
  unfold get_constants.
  apply (map_fold_weak_ind
           (λ (r : gmap string value) (m : gmap (positive * string * string) binding),
              r !! local =
                match m !! (py_id hst obj, funcname, local) with
                | Some (Bound v) => if isinstance_AST v then None else Some v
                | _ => None
                end)).
  - by rewrite !lookup_empty.
  - intros [[o f] l] ival m r Hfresh IH.
    destruct (decide ((o, f, l) = (py_id hst obj, funcname, local))) as [Heq|Hne].
    + injection Heq as -> -> ->. rewrite lookup_insert_eq.
      rewrite Hfresh in IH.
      destruct ival as [name|v]; [done|].
      rewrite !bool_decide_eq_true_2 by done. simpl.
      destruct (isinstance_AST v); simpl; [done|]. by rewrite lookup_insert_eq.
    + rewrite lookup_insert_ne by done. rewrite <- IH.
      destruct ival as [name|v]; [done|].
      destruct (bool_decide (o = py_id hst obj) && bool_decide (f = funcname)
                && negb (isinstance_AST v)) eqn:E; [|done].
      apply andb_true_iff in E as [E _]. apply andb_true_iff in E as [E1 E2].
      apply bool_decide_eq_true in E1, E2. subst.
      rewrite lookup_insert_ne; [done|]. congruence.
Qed.
End GetFacts.

Lemma get_load_falls_to_module (hst : host) (obj : value)
    (funcname : string) (ref : node) (rm : _ReferenceManager) :
  node_ctx ref = Some Load →
  unbound hst rm obj funcname ref →
  get hst obj funcname ref rm =
    match getmodule hst obj with
    | Some module_dict =>
        match eval_ast hst ref module_dict with
        | inr v =>
            match _value_to_ast hst v with
            | Some lit => inr (lit, rm)
            | None => inl KeyError
            end
        | inl _ => inl KeyError
        end
    | None => inl KeyError
    end.
Proof.
  intros Hctx Hun. rewrite (get_falls_through hst obj funcname ref Load) by done.
  unfold _replace_global.
  destruct (getmodule hst obj) as [d|]; [|done].
  destruct (eval_ast hst ref d) as [e|v]; [done|].
  by destruct (_value_to_ast hst v).
Qed.

(** C6.  A reference in [Load] context whose scope key has no binding is
    evaluated in the dictionary of the module that [inspect.getmodule]
    gives for the owner; when the evaluation succeeds and the value is
    encodable, [get] returns the literal and leaves the reference manager
    as it was; in every other case (no module, the evaluation raises, the
    value is not encodable) it raises [KeyError]. *)
Theorem get_unbound_load_resolves_in_module (hst : host) (obj : value)
    (funcname : string) (ref : node) (rm : _ReferenceManager) :
  node_ctx ref = Some Load →
  unbound hst rm obj funcname ref →
  get hst obj funcname ref rm =
    match getmodule hst obj with
    | Some module_dict =>
        match eval_ast hst ref module_dict with
        | inr v =>
            match _value_to_ast hst v with
            | Some lit => inr (lit, rm)
            | None => inl KeyError
            end
        | inl _ => inl KeyError
        end
    | None => inl KeyError
    end.
Proof. apply get_load_falls_to_module. Qed.

(** C10.  For an attribute or a subscript [get] never looks at the
    bindings and never adds one: in [Store] context it raises [KeyError]
    whatever the reference manager holds; in [Load] context it returns a
    node exactly when the reference evaluates in the module's dictionary
    to an encodable value, the node is the literal of that value and the
    reference manager is unchanged. *)
Theorem get_attribute_or_subscript (hst : host) (obj : value) (funcname : string)
    (ref : node) (rm : _ReferenceManager) :
  is_attribute_or_subscript ref = true →
  (node_ctx ref = Some Store → get hst obj funcname ref rm = inl KeyError)
  ∧ (node_ctx ref = Some Load →
     ∀ r rm', get hst obj funcname ref rm = inr (r, rm') ↔
              rm' = rm ∧ ∃ module_dict v,
                getmodule hst obj = Some module_dict
                ∧ eval_ast hst ref module_dict = inr v
                ∧ _value_to_ast hst v = Some r).
Proof.
  intros Hkind. split.
  - intros Hctx. unfold get. rewrite Hctx. simpl. unfold bind.
    by destruct ref.
  - intros Hctx r rm'.
    rewrite (get_load_falls_to_module hst obj funcname ref rm Hctx).
    + destruct (getmodule hst obj) as [d|] eqn:Hd.
      2:{ split; [done|]. intros (_ & ? & ? & ? & _). congruence. }
      destruct (eval_ast hst ref d) as [e|v] eqn:He.
      { split; [done|]. intros (_ & ? & ? & [= <-] & ? & _). congruence. }
      destruct (_value_to_ast hst v) as [lit|] eqn:Hv.
      * split.
        -- intros [= <- <-]. split; [done|]. by exists d, v.
        -- intros (-> & ? & ? & [= <-] & ? & ?). congruence.
      * split; [done|]. intros (_ & ? & ? & [= <-] & ? & ?). congruence.
    + by destruct ref.
Qed.

(** ** Induction on syntax trees *)

Section NodeInduction.
Variable P : node → Prop.
Hypothesis HName : ∀ id ctx, P (Name id ctx).
Hypothesis HAttribute : ∀ v a ctx, P v → P (Attribute v a ctx).
Hypothesis HSubscript : ∀ v s ctx, P v → P s → P (Subscript v s ctx).
Hypothesis HNum : ∀ n, P (Num n).
Hypothesis HStr : ∀ s, P (Str s).
Hypothesis HCall : ∀ f args kws sa ka,
  P f → Forall P args → Forall P kws → option_Forall P sa → option_Forall P ka →
  P (Call f args kws sa ka).
Hypothesis HExpr : ∀ v, P v → P (Expr v).
Hypothesis HFunctionDef : ∀ name args body decos returns,
  P args → Forall P body → Forall P decos → option_Forall P returns →
  P (FunctionDef name args body decos returns).
Hypothesis Harguments : ∀ args more,
  Forall P args → Forall (field_Forall P) more → P (arguments args more).
Hypothesis Harg : ∀ a ann, option_Forall P ann → P (arg a ann).
Hypothesis HGeneric : ∀ cls fields,
  Forall (field_Forall P) fields → P (Generic cls fields).
Hypothesis HPyList : ∀ items, Forall P items → P (PyList items).

Lemma node_nested_ind : ∀ n, P n.
Proof.
  fix IH 1. intros n.
  assert (∀ l : list node, Forall P l) as Hlist.
  { intros l. induction l as [|x l IHl]; constructor; [apply IH | exact IHl]. }
  assert (∀ o : option node, option_Forall P o) as Hopt.
  { intros [x|]; simpl; [apply IH | exact I]. }
  assert (∀ fs : list field, Forall (field_Forall P) fs) as Hfields.
  { intros fs. induction fs as [|f fs IHfs]; constructor; [|exact IHfs].
    destruct f as [c|l|a]; simpl; [apply IH | apply Hlist | exact I]. }
  destruct n.
  - apply HName.
  - apply HAttribute, IH.
  - apply HSubscript; apply IH.
  - apply HNum.
  - apply HStr.
  - apply HCall; [apply IH | apply Hlist | apply Hlist | apply Hopt | apply Hopt].
  - apply HExpr, IH.
  - apply HFunctionDef; [apply IH | apply Hlist | apply Hlist | apply Hopt].
  - apply Harguments; [apply Hlist | apply Hfields].
  - apply Harg, Hopt.
  - apply HGeneric, Hfields.
  - apply HPyList, Hlist.
Qed.
End NodeInduction.

(** ** Relations that every step keeps *)

Section Steps.
Context (R : relation _ReferenceManager) `{!PreOrder R}.

Lemma keeps_ret {A} (a : A) : keeps R (ret a).
Proof. intros rm a' rm' [= <- <-]. reflexivity. Qed.

Lemma keeps_raise {A} (e : exn) : keeps R (raise e : M A).
Proof. by intros rm a rm'. Qed.

Lemma keeps_get_rm : keeps R get_rm.
Proof. intros rm a' rm' [= <- <-]. reflexivity. Qed.

Lemma keeps_bind {A B} (m : M A) (k : A → M B) :
  keeps R m → (∀ a, keeps R (k a)) → keeps R (bind m k).
Proof.
  intros Hm Hk rm b rm'. unfold bind.
  destruct (m rm) as [e|[a rm1]] eqn:E; [done|].
  intros Hrun. etrans; [by eapply Hm | by eapply Hk].
Qed.

Lemma keeps_mapM {A B} (f : A → M B) (l : list A) :
  Forall (λ x, keeps R (f x)) l → keeps R (mapM f l).
Proof.
  induction 1 as [|x l Hx Hl IH]; simpl; [apply keeps_ret|].
  apply keeps_bind; [done|]. intros y.
  apply keeps_bind; [done|]. intros ys. apply keeps_ret.
Qed.
End Steps.

Section StepsVisit.
Context (R : relation _ReferenceManager) `{!PreOrder R}.
Context (hst : host).
Variable inline_rec : node → list value → M (list node).
Context (obj : value) (funcname : string).
Hypothesis keeps_get : ∀ ref, keeps R (get hst obj funcname ref).
Hypothesis keeps_rpc_map_getitem : ∀ func, keeps R (rpc_map_getitem func).
Hypothesis keeps_inline_rec : ∀ k args, keeps R (inline_rec k args).

Lemma keeps_emit_call func new_args :
  keeps R (emit_call inline_rec func new_args).
Proof.
  unfold emit_call. destruct (is_unhashable func); [apply (keeps_raise R)|].
  case_bool_decide.
  - destruct (__name__ func); [apply (keeps_ret R) | apply (keeps_raise R)].
  - destruct func;
      try (apply (keeps_bind R); [apply keeps_rpc_map_getitem | intros; apply (keeps_ret R)]).
    destruct self; [|apply (keeps_raise R)].
    apply (keeps_bind R); [apply keeps_inline_rec | intros; apply (keeps_ret R)].
Qed.

Lemma keeps_visit_Call_with visit_args func_node :
  keeps R visit_args →
  keeps R (visit_Call_with hst inline_rec obj funcname visit_args func_node).
Proof.
  intros Hargs. unfold visit_Call_with.
  apply (keeps_bind R); [apply (keeps_get_rm R)|]. intros rm.
  destruct (getmodule hst obj); [|apply (keeps_raise R)].
  destruct (eval_ast hst func_node _); [apply (keeps_raise R)|].
  apply (keeps_bind R); [done|]. intros. apply keeps_emit_call.
Qed.

Lemma keeps_visit_list_with (visit : node → M node) l :
  Forall (λ x, keeps R (visit x)) l → keeps R (visit_list_with visit l).
Proof.
  induction 1 as [|x l Hx Hl IH]; simpl; [apply (keeps_ret R)|].
  apply (keeps_bind R).
  - destruct x; try (apply (keeps_bind R); [done | intros; apply (keeps_ret R)]).
    apply (keeps_ret R).
  - intros r. apply (keeps_bind R); [done|]. intros. apply (keeps_ret R).
Qed.

Lemma keeps_visit_child_with (visit : node → M node) c :
  keeps R (visit c) →
  (∀ items, c = PyList items → Forall (λ x, keeps R (visit x)) items) →
  keeps R (visit_child_with visit c).
Proof.
  intros Hc Hitems. destruct c; try done. simpl.
  apply (keeps_bind R); [|intros; apply (keeps_ret R)].
  apply keeps_visit_list_with. by apply Hitems.
Qed.
Local Abbreviation visit_here := (visit hst inline_rec obj funcname).

Local Abbreviation visit_keeps_here := (visit_keeps_at R hst inline_rec obj funcname).

Lemma visit_keeps_list l :
  Forall visit_keeps_here l → keeps R (visit_list_with visit_here l).
Proof.
  intros H. apply keeps_visit_list_with.
  eapply Forall_impl; [exact H|]. by intros x [? _].
Qed.

Lemma visit_keeps_child c :
  visit_keeps_here c → keeps R (visit_child_with visit_here c).
Proof.
  intros [Hc Hitems]. destruct c; try done. simpl.
  apply (keeps_bind R); [by apply Hitems | intros; apply (keeps_ret R)].
Qed.

Lemma visit_keeps_option o :
  option_Forall visit_keeps_here o → keeps R (visit_option_with visit_here o).
Proof.
  destruct o as [c|]; simpl; [|intros; apply (keeps_ret R)].
  intros Hc. apply (keeps_bind R); [by apply visit_keeps_child | intros; apply (keeps_ret R)].
Qed.

Lemma visit_keeps_field f :
  field_Forall visit_keeps_here f → keeps R (visit_field_with visit_here f).
Proof.
  destruct f as [c|l|a]; simpl.
  - intros [Hc Hitems].
    destruct c; try (apply (keeps_bind R); [done | intros; apply (keeps_ret R)]).
    apply (keeps_bind R); [by apply Hitems | intros; apply (keeps_ret R)].
  - intros Hl. apply (keeps_bind R); [by apply visit_keeps_list | intros; apply (keeps_ret R)].
  - intros _. apply (keeps_ret R).
Qed.

Lemma visit_keeps_fields fs :
  Forall (field_Forall visit_keeps_here) fs →
  keeps R (mapM (visit_field_with visit_here) fs).
Proof.
  intros H. apply (keeps_mapM R).
  eapply Forall_impl; [exact H|]. intros f. apply visit_keeps_field.
Qed.

Lemma visit_keeps_args l :
  Forall visit_keeps_here l → keeps R (mapM visit_here l).
Proof.
  intros H. apply (keeps_mapM R).
  eapply Forall_impl; [exact H|]. by intros x [? _].
Qed.

Lemma visit_keeps_everywhere : ∀ n, visit_keeps_here n.
Proof.
  induction n using node_nested_ind; (split; [|try done]).
  - apply keeps_get.
  - apply keeps_get.
  - apply keeps_get.
  - apply (keeps_ret R).
  - apply (keeps_ret R).
  - apply keeps_visit_Call_with. by apply visit_keeps_args.
  - destruct n; try (apply (keeps_bind R); [by apply visit_keeps_child | intros; apply (keeps_ret R)]).
    apply (keeps_bind R).
    + destruct IHn as [IH _]. exact IH.
    + intros r. destruct r; apply (keeps_ret R).
  - simpl. apply (keeps_bind R); [by apply visit_keeps_child|]. intros.
    apply (keeps_bind R); [by apply visit_keeps_list|]. intros.
    apply (keeps_bind R); [by apply visit_keeps_option|]. intros. apply (keeps_ret R).
  - simpl. apply (keeps_bind R); [by apply visit_keeps_list|]. intros.
    apply (keeps_bind R); [by apply visit_keeps_fields|]. intros. apply (keeps_ret R).
  - simpl. apply (keeps_bind R); [by apply visit_keeps_option|]. intros. apply (keeps_ret R).
  - simpl. apply (keeps_bind R); [by apply visit_keeps_fields|]. intros. apply (keeps_ret R).
  - apply (keeps_raise R).
  - intros items' [= <-]. by apply visit_keeps_list.
Qed.

Lemma keeps_visit n : keeps R (visit_here n).
Proof. apply visit_keeps_everywhere. Qed.
End StepsVisit.

(** ** Steps of a session *)

Section Session.
Context (hst : host).

Global Instance session_step_preorder : PreOrder (session_step hst).
Proof.
  split.
  - intros rm. split; [done|]. split; [done|]. reflexivity.
  - intros rm1 rm2 rm3 (Hn1 & Hr1 & Hp1) (Hn2 & Hr2 & Hp2).
    split; [auto|]. split; [auto|]. by etrans.
Qed.

Lemma new_name_frame base_name rm r rm' :
  new_name base_name rm = inr (r, rm') →
  to_inlined rm' = to_inlined rm ∧ rpc_map rm' = rpc_map rm.
Proof.
  unfold new_name. destruct (last_char base_name); [|done].
  by destruct (use_count rm !! _); intros [= <- <-].
Qed.

Lemma new_name_success base_name rm r rm' issued :
  new_name base_name rm = inr (r, rm') →
  allocator_inv (reserved_names hst) (use_count rm) issued →
  allocator_inv (reserved_names hst) (use_count rm') (issued ++ [r]).
Proof.
  intros Hrun Hinv.
  assert (base_name ≠ "") as Hne.
  { intros ->. by cbv in Hrun. }
  destruct (new_name_step _ _ base_name rm Hinv Hne) as (r0 & rm0 & Hrun0 & H & _).
  rewrite Hrun in Hrun0. injection Hrun0 as <- <-. exact H.
Qed.

Lemma sound_set obj funcname name v : keeps (session_step hst) (set hst obj funcname name v).
Proof.
  intros rm [] rm' [= <-]. split; [|split; [done | reflexivity]].
  intros (issued & Hinv & Hin & Hinj). exists issued. split; [done|]. simpl.
  split.
  - intros key n. rewrite lookup_insert. case_decide; [done | apply Hin].
  - intros k1 k2 n. rewrite !lookup_insert. repeat case_decide; try done.
    apply Hinj.
Qed.

Lemma sound_get_name obj funcname id ctx store :
  keeps (session_step hst) (get_name hst obj funcname id ctx store).
Proof.
  intros rm a rm'. unfold get_name.
  destruct (to_inlined rm !! (py_id hst obj, funcname, id)) as [ival|] eqn:Hkey.
  - destruct ival as [name|v].
    + intros [= <- <-]. reflexivity.
    + destruct v; destruct store; try done;
        try (intros [= <- <-]; reflexivity);
        try (destruct (_value_to_ast hst _); [|done];
             intros [= <- <-]; reflexivity).
  - destruct store; [|intros [= <- <-]; reflexivity].
    unfold bind. destruct (new_name id rm) as [e|[iname rm1]] eqn:Hnew; [done|].
    intros [= <- <-].
    destruct (new_name_frame _ _ _ _ Hnew) as [Hto Hrpc].
    split; [|simpl; rewrite Hrpc; split; [done | reflexivity]].
    intros (issued & Hinv & Hin & Hinj).
    pose proof (new_name_success _ _ _ _ _ Hnew Hinv) as Hinv1.
    exists (issued ++ [iname]). split; [done|]. simpl. rewrite Hto.
    assert (iname ∉ issued) as Hfresh.
    { destruct Hinv1 as (Hnd & _). apply NoDup_app in Hnd as (_ & Hnd & _).
      intros Hi. apply (Hnd _ Hi). by left. }
    split.
    + intros key n. rewrite lookup_insert. case_decide.
      * intros [= <-]. apply elem_of_app. right. by left.
      * intros Hk. apply elem_of_app. left. by eapply Hin.
    + intros k1 k2 n. rewrite !lookup_insert. repeat case_decide; subst.
      * done.
      * intros [= <-] Hk. exfalso. apply Hfresh. by eapply Hin.
      * intros Hk [= <-]. exfalso. apply Hfresh. by eapply Hin.
      * apply Hinj.
Qed.

Lemma sound_get obj funcname ref : keeps (session_step hst) (get hst obj funcname ref).
Proof.
  unfold get. destruct (node_ctx ref) as [ctx|]; [|apply (keeps_raise (session_step hst))].
  apply (keeps_bind (session_step hst)).
  - destruct ref; try apply (keeps_ret (session_step hst)). apply sound_get_name.
  - intros [a|]; [apply (keeps_ret (session_step hst))|].
    destruct (bool_decide (ctx = Store)); [apply (keeps_raise (session_step hst))|].
    destruct (_replace_global hst obj ref); [apply (keeps_ret (session_step hst)) | apply (keeps_raise (session_step hst))].
Qed.

Lemma registry_ok_snoc (l : list (value * nat)) (f : value) :
  registry_ok l → rpc_lookup f l = None → registry_ok (l ++ [(f, length l)]).
Proof.
  intros [Hreg Hnd] Hnone.
  assert (f ∉ map fst l) as Hnin.
  { rewrite Hreg, rpc_lookup_registry in Hnone. by case_bool_decide. }
  split.
  - rewrite map_app. simpl. rewrite <- registry_of_snoc.
    unfold registry_of at 2. rewrite length_imap, length_map. by rewrite <- Hreg.
  - rewrite map_app. apply NoDup_app. split; [done|].
    split; [|apply NoDup_singleton].
    intros x Hx ->%list_elem_of_singleton. done.
Qed.

Lemma sound_rpc_map_getitem func : keeps (session_step hst) (rpc_map_getitem func).
Proof.
  intros rm i rm'. unfold rpc_map_getitem.
  destruct (rpc_lookup func (rpc_map rm)) as [j|] eqn:E.
  - intros [= <- <-]. reflexivity.
  - intros [= <- <-]. split; [done|]. simpl. split.
    + intros Hok. by apply registry_ok_snoc.
    + by apply prefix_app_r.
Qed.
Lemma sound_visit inline_rec obj funcname n :
  (∀ k args, keeps (session_step hst) (inline_rec k args)) →
  keeps (session_step hst) (visit hst inline_rec obj funcname n).
Proof.
  intros Hrec. apply keeps_visit; auto using sound_get, sound_rpc_map_getitem.
  apply _.
Qed.
End Session.

Section SessionInline.
Context (hst : host).

Lemma sound_initialize_loop obj funcname rop params : ∀ k_args,
  keeps (session_step hst) (initialize_loop hst obj funcname rop params k_args).
Proof.
  induction params as [|arg_ast params IH]; intros k_args; simpl; [apply (keeps_ret (session_step hst))|].
  destruct k_args as [|arg_value k_args]; [apply (keeps_ret (session_step hst))|].
  destruct (arg_name arg_ast) as [name|]; [|apply (keeps_raise (session_step hst))].
  apply (keeps_bind (session_step hst)).
  - case_bool_decide.
    + apply (keeps_bind (session_step hst)); [apply sound_set | intros; apply (keeps_ret (session_step hst))].
    + apply (keeps_bind (session_step hst)); [apply sound_get | intros; apply (keeps_ret (session_step hst))].
  - intros init. apply (keeps_bind (session_step hst)); [apply IH | intros; apply (keeps_ret (session_step hst))].
Qed.

Lemma sound_initialize_function_params funcdef k_args :
  keeps (session_step hst) (_initialize_function_params hst funcdef k_args).
Proof.
  unfold _initialize_function_params.
  destruct k_args as [|obj k_args]; [apply (keeps_raise (session_step hst))|].
  destruct funcdef; try apply (keeps_raise (session_step hst)).
  destruct (_list_read_only_params _); [apply (keeps_raise (session_step hst))|].
  destruct funcdef; try apply (keeps_raise (session_step hst)).
  apply sound_initialize_loop.
Qed.

Lemma sound_inline_with inline_rec funcdef k_args :
  (∀ k args, keeps (session_step hst) (inline_rec k args)) →
  keeps (session_step hst) (inline_with hst inline_rec funcdef k_args).
Proof.
  intros Hrec. unfold inline_with.
  apply (keeps_bind (session_step hst)); [apply sound_initialize_function_params|]. intros param_init.
  destruct k_args as [|obj k_args]; [apply (keeps_raise (session_step hst))|].
  destruct funcdef; try apply (keeps_raise (session_step hst)).
  apply (keeps_bind (session_step hst)); [by apply sound_visit|]. intros visited.
  destruct visited; try apply (keeps_raise (session_step hst)). apply (keeps_ret (session_step hst)).
Qed.

(** Every run of [inline] on a shared reference manager is a step of the
    session. *)
Lemma sound_inline_rm fuel : ∀ k_function k_args,
  keeps (session_step hst) (inline_rm hst fuel k_function k_args).
Proof.
  induction fuel as [|fuel IH]; intros k_function k_args; simpl.
  - apply (keeps_raise (session_step hst)).
  - by apply sound_inline_with.
Qed.

Lemma init_names_ok :
  Forall (λ kg, ends_with_digit kg = false) (kernel_globals hst) →
  names_ok hst (__init__ hst).
Proof.
  intros Hkg. exists []. split; [by apply init_allocator_inv|].
  split; intros *; simpl; by rewrite lookup_empty.
Qed.

Lemma init_registry_ok : registry_ok (rpc_map (__init__ hst)).
Proof. split; [done | constructor]. Qed.

Lemma names_ok_unreserved rm key name :
  names_ok hst rm → to_inlined rm !! key = Some (_UserVariable name) →
  name ∉ reserved_names hst.
Proof.
  intros (issued & Hinv & Hin & _) Hkey.
  eapply issued_not_reserved; [exact Hinv | by eapply Hin].
Qed.
End SessionInline.

(** ** Bindings stand *)

Section BindingStands.
Context (hst : host) (key : positive * string * string) (b : binding).

Global Instance binding_stands_preorder : PreOrder (binding_stands key b).
Proof.
  split.
  - intros rm Hb. exact Hb.
  - intros rm1 rm2 rm3 H12 H23 Hb. apply H23, H12, Hb.
Qed.

(** [get] adds a binding only for a key that has none. *)
Lemma get_keeps_binding obj funcname ref :
  keeps (binding_stands key b) (get hst obj funcname ref).
Proof.
  unfold get. destruct (node_ctx ref) as [ctx|]; [|apply (keeps_raise _)].
  apply (keeps_bind _).
  - destruct ref; try apply (keeps_ret _).
    intros rm a rm'. unfold get_name.
    destruct (to_inlined rm !! (py_id hst obj, funcname, id)) as [ival|] eqn:Hkey.
    + destruct ival as [name|v].
      * by intros [= <- <-].
      * destruct v; destruct (bool_decide (ctx = Store)); try done;
          try (by intros [= <- <-]);
          try (destruct (_value_to_ast hst _); [|done]; by intros [= <- <-]).
    + destruct (bool_decide (ctx = Store)); [|by intros [= <- <-]].
      unfold bind. destruct (new_name id rm) as [e|[iname rm1]] eqn:Hnew; [done|].
      intros [= <- <-] Hb. simpl.
      destruct (new_name_frame _ _ _ _ Hnew) as [-> _].
      rewrite lookup_insert_ne; [done|]. intros <-. congruence.
  - intros [a|]; [apply (keeps_ret _)|].
    destruct (bool_decide (ctx = Store)); [apply (keeps_raise _)|].
    destruct (_replace_global hst obj ref); [apply (keeps_ret _) | apply (keeps_raise _)].
Qed.

Lemma rpc_map_getitem_keeps_binding func :
  keeps (binding_stands key b) (rpc_map_getitem func).
Proof.
  intros rm i rm'. unfold rpc_map_getitem.
  destruct (rpc_lookup func (rpc_map rm)); intros [= <- <-] Hb; exact Hb.
Qed.

(** The visit of a tree changes no binding, unless a nested inlining
    does. *)
Lemma visit_keeps_binding inline_rec obj funcname n :
  (∀ k args, keeps (binding_stands key b) (inline_rec k args)) →
  keeps (binding_stands key b) (visit hst inline_rec obj funcname n).
Proof.
  intros Hrec. apply keeps_visit;
    auto using get_keeps_binding, rpc_map_getitem_keeps_binding.
  apply _.
Qed.
End BindingStands.

(** ** Classification of calls *)

Lemma visit_Call_with_target (hst : host) inline_rec obj funcname visit_args
    func_node module_dict func rm :
  getmodule hst obj = Some module_dict →
  eval_ast hst func_node (calldict hst obj funcname module_dict rm) = inr func →
  visit_Call_with hst inline_rec obj funcname visit_args func_node rm
  = (new_args <- visit_args ;; emit_call inline_rec func new_args) rm.
Proof.
  intros Hmod Heval. unfold visit_Call_with, bind at 1, get_rm.
  by rewrite Hmod, Heval.
Qed.

Lemma embeddable_name (func : value) :
  func ∈ _embeddable_calls →
  ∃ name, __name__ func = Some name
          ∧ name ∈ ["Quantity"; "delay"; "at"; "now"; "syscall"; "range"].
Proof.
  unfold _embeddable_calls. rewrite !elem_of_cons, elem_of_nil.
  intros [->|[->|[->|[->|[->|[->|[]]]]]]]; eexists; (split; [reflexivity|]);
    rewrite !elem_of_cons; tauto.
Qed.

(** C8.  A call whose target evaluates to a member of [_embeddable_calls]
    becomes the call of the member's own name ([Quantity], [delay], [at],
    [now], [syscall] or [range]) on the visited arguments, as an
    expression and as an expression statement alike; the reference manager
    is the one the visit of the arguments leaves, so that the nested
    [inline] is not run and the registry gets no entry for it. *)
Theorem visit_Call_embeddable (hst : host) inline_rec (obj : value)
    (funcname : string) (func_node : node) (args keywords : list node)
    (starargs kwargs : option node) (module_dict : gmap string value)
    (func : value) (rm : _ReferenceManager) :
  getmodule hst obj = Some module_dict →
  eval_ast hst func_node (calldict hst obj funcname module_dict rm) = inr func →
  func ∈ _embeddable_calls →
  ∃ name,
    __name__ func = Some name
    ∧ name ∈ ["Quantity"; "delay"; "at"; "now"; "syscall"; "range"]
    ∧ visit hst inline_rec obj funcname
        (Call func_node args keywords starargs kwargs) rm
      = (new_args <- mapM (visit hst inline_rec obj funcname) args ;;
         ret (Call (Name name Load) new_args [] None None)) rm
    ∧ visit hst inline_rec obj funcname
        (Expr (Call func_node args keywords starargs kwargs)) rm
      = (new_args <- mapM (visit hst inline_rec obj funcname) args ;;
         ret (Expr (Call (Name name Load) new_args [] None None))) rm.
Proof.
  intros Hmod Heval Hin.
  destruct (embeddable_name func Hin) as (name & Hname & Hcanon).
  exists name. split; [done|]. split; [done|].
  assert (∀ new_args, emit_call inline_rec func new_args
                      = ret (Call (Name name Load) new_args [] None None)) as Hemit.
  { intros new_args. unfold emit_call.
    assert (is_unhashable func = false) as ->.
    { destruct (embeddable_name func Hin) as (? & Hn & _). by destruct func. }
    by rewrite bool_decide_eq_true_2, Hname by done. }
  split.
  - simpl. rewrite (visit_Call_with_target _ _ _ _ _ _ _ _ _ Hmod Heval).
    unfold bind. destruct (mapM _ args rm) as [e|[new_args rm1]]; [done|].
    by rewrite Hemit.
  - simpl. unfold bind at 1.
    rewrite (visit_Call_with_target _ _ _ _ _ _ _ _ _ Hmod Heval).
    unfold bind. destruct (mapM _ args rm) as [e|[new_args rm1]]; [done|].
    by rewrite Hemit.
Qed.

(** C9.  When a name is bound both as a folded constant of the current
    owner and function and in the dictionary of the module, the
    dictionary that [visit_Call] evaluates the target in holds the
    module's value for it: [get_constants] has the constant, the update
    with the module's dictionary overwrites it, the target evaluates to
    the module's value and the call is classified by that value. *)
Theorem call_target_module_overrides_constants (hst : host) inline_rec
    (obj : value) (funcname : string) (rm : _ReferenceManager) (x : string)
    (c : binding) (v : value) (module_dict : gmap string value)
    (visit_args : M (list node)) (ctx : expr_context) :
  to_inlined rm !! (py_id hst obj, funcname, x) = Some c →
  is_folded_constant c = true →
  getmodule hst obj = Some module_dict →
  module_dict !! x = Some v →
  (∃ cv, c = Bound cv ∧ get_constants hst rm obj funcname !! x = Some cv)
  ∧ calldict hst obj funcname module_dict rm !! x = Some v
  ∧ eval_ast hst (Name x ctx) (calldict hst obj funcname module_dict rm) = inr v
  ∧ visit_Call_with hst inline_rec obj funcname visit_args (Name x ctx) rm
    = (new_args <- visit_args ;; emit_call inline_rec v new_args) rm.
Proof.
  intros Hkey Hconst Hmod Hx.
  assert (calldict hst obj funcname module_dict rm !! x = Some v) as Hdict.
  { unfold calldict. by apply lookup_union_Some_l. }
  assert (eval_ast hst (Name x ctx) (calldict hst obj funcname module_dict rm) = inr v)
    as Heval by (simpl; by rewrite Hdict).
  split; [|split; [done|split; [done|]]].
  - destruct c as [name|cv]; [done|]. exists cv. split; [done|].
    rewrite get_constants_lookup, Hkey. simpl in Hconst.
    by destruct (isinstance_AST cv).
  - by eapply visit_Call_with_target.
Qed.

(** ** Calls of kernel functions *)

Lemma kernel_not_embeddable self k_function :
  VKernel self k_function ∉ _embeddable_calls.
Proof.
  unfold _embeddable_calls. rewrite !elem_of_cons, elem_of_nil.
  intros [?|[?|[?|[?|[?|[?|[]]]]]]]; discriminate.
Qed.

Lemma emit_call_kernel inline_rec owner k_function new_args :
  emit_call inline_rec (VKernel (Some owner) k_function) new_args
  = (inlined <- inline_rec k_function (owner :: map value_of_node new_args) ;;
     ret (PyList inlined)).
Proof.
  unfold emit_call.
  by rewrite bool_decide_eq_false_2 by apply kernel_not_embeddable.
Qed.

Lemma visit_Call_with_kernel (hst : host) inline_rec obj funcname func_node args
    module_dict owner k_function rm :
  getmodule hst obj = Some module_dict →
  eval_ast hst func_node (calldict hst obj funcname module_dict rm)
    = inr (VKernel (Some owner) k_function) →
  visit_Call_with hst inline_rec obj funcname
    (mapM (visit hst inline_rec obj funcname) args) func_node rm
  = (inlined <- nested_inline hst inline_rec obj funcname args owner k_function ;;
     ret (PyList inlined)) rm.
Proof.
  intros Hmod Heval.
  rewrite (visit_Call_with_target _ _ _ _ _ _ _ _ _ Hmod Heval).
  unfold nested_inline, bind.
  destruct (mapM _ args rm) as [e|[new_args rm1]]; [done|].
  by rewrite emit_call_kernel.
Qed.

(** C1, as the code has it.  A call whose target evaluates to a kernel
    function bound to an owner is replaced by the list of statements that
    the nested [inline] returns for the visited arguments with the owner
    put before them; no call node stands for it.  As an expression
    statement the list is spliced into the enclosing list of statements; as
    a value (an operand, the right-hand side of an assignment) the list
    itself is stored in the field that held the call.  The nested run
    shares the reference manager: it keeps every entry of the registry with
    its number and keeps the registry numbered 0, 1, ... without
    repetition. *)
Theorem visit_Call_kernel_gives_statement_list (hst : host) (fuel : nat)
    (obj : value) (funcname : string) (func_node : node)
    (args keywords : list node) (starargs kwargs : option node)
    (module_dict : gmap string value) (owner : value) (k_function : node)
    (rest : list node) (rm : _ReferenceManager) :
  getmodule hst obj = Some module_dict →
  eval_ast hst func_node (calldict hst obj funcname module_dict rm)
    = inr (VKernel (Some owner) k_function) →
  visit hst (inline_rm hst fuel) obj funcname
    (Call func_node args keywords starargs kwargs) rm
  = (inlined <- nested_inline hst (inline_rm hst fuel) obj funcname args owner k_function ;;
     ret (PyList inlined)) rm
  ∧ visit_list_with (visit hst (inline_rm hst fuel) obj funcname)
      (Expr (Call func_node args keywords starargs kwargs) :: rest) rm
    = (inlined <- nested_inline hst (inline_rm hst fuel) obj funcname args owner k_function ;;
       rs <- visit_list_with (visit hst (inline_rm hst fuel) obj funcname) rest ;;
       ret (inlined ++ rs)) rm
  ∧ visit_field_with (visit hst (inline_rm hst fuel) obj funcname)
      (FNode (Call func_node args keywords starargs kwargs)) rm
    = (inlined <- nested_inline hst (inline_rm hst fuel) obj funcname args owner k_function ;;
       ret (FList inlined)) rm
  ∧ ∀ inlined rm',
      nested_inline hst (inline_rm hst fuel) obj funcname args owner k_function rm
        = inr (inlined, rm') →
      rpc_map rm `prefix_of` rpc_map rm'
      ∧ (registry_ok (rpc_map rm) → registry_ok (rpc_map rm')).
Proof.
  intros Hmod Heval.
  pose proof (visit_Call_with_kernel hst (inline_rm hst fuel) obj funcname
                func_node args module_dict owner k_function rm Hmod Heval) as Hcall.
  split; [exact Hcall|]. split; [|split].
  - simpl. unfold bind at 1 2 3. rewrite Hcall. unfold bind at 1 3.
    by destruct (nested_inline _ _ _ _ _ _ _ rm) as [e|[inlined rm1]].
  - simpl. unfold bind at 1. rewrite Hcall. unfold bind.
    by destruct (nested_inline _ _ _ _ _ _ _ rm) as [e|[inlined rm1]].
  - intros inlined rm' Hrun.
    assert (keeps (session_step hst) (nested_inline hst (inline_rm hst fuel) obj funcname args
                         owner k_function)) as Hsound.
    { apply (keeps_bind (session_step hst)).
      - apply (keeps_mapM (session_step hst)), Forall_forall. intros x _.
        apply sound_visit, sound_inline_rm.
      - intros. apply sound_inline_rm. }
    destruct (Hsound _ _ _ Hrun) as (_ & Hreg & Hpre). done.
Qed.

(** ** The read-only parameter analysis *)

Lemma removes_skip : removes lrp_skip ∅.
Proof. intros s st' [= <-]. f_equal. set_solver. Qed.

Lemma removes_seq a b A B :
  removes a A → removes b B → removes (lrp_seq a b) (A ∪ B).
Proof.
  intros Ha Hb s st'. unfold lrp_seq.
  destruct (a (Some s)) as [e|st1] eqn:E; [done|].
  rewrite (Ha _ _ E). intros H. rewrite (Hb _ _ H). f_equal. set_solver.
Qed.

Lemma removes_list l :
  Forall removes_at l →
  removes (lrp_list_with lrp_visit l) (targets_list_with store_targets l).
Proof.
  induction 1 as [|x l [Hx _] Hl IH]; simpl; [apply removes_skip|].
  apply removes_seq; [|done]. destruct x; try done. apply removes_skip.
Qed.

Lemma removes_child c :
  removes_at c →
  removes (lrp_child_with lrp_visit c) (targets_child_with store_targets c).
Proof. intros [Hc Hitems]. destruct c; try done. by apply Hitems. Qed.

Lemma removes_option o :
  option_Forall removes_at o →
  removes (lrp_option_with lrp_visit o) (targets_option_with store_targets o).
Proof.
  destruct o as [c|]; simpl; [apply removes_child | intros; apply removes_skip].
Qed.

Lemma removes_fields fs :
  Forall (field_Forall removes_at) fs →
  removes (lrp_fields_with lrp_visit fs) (targets_fields_with store_targets fs).
Proof.
  induction 1 as [|f fs Hf Hfs IH]; simpl; [apply removes_skip|].
  apply removes_seq; [|done].
  destruct f as [c|l|a]; simpl in *.
  - by apply removes_child.
  - by apply removes_list.
  - apply removes_skip.
Qed.

Lemma removes_everywhere : ∀ n, removes_at n.
Proof.
  induction n using node_nested_ind; (split; [|try done]); simpl.
  - intros s st'. case_bool_decide.
    + by intros [= <-].
    + intros [= <-]. f_equal. set_solver.
  - by apply removes_child.
  - apply removes_seq; by apply removes_child.
  - apply removes_skip.
  - apply removes_skip.
  - rewrite <- !(assoc_L (∪)).
    repeat apply removes_seq;
      auto using removes_child, removes_list, removes_option.
  - by apply removes_child.
  - by intros s st'.
  - apply removes_seq; auto using removes_list, removes_fields.
  - by apply removes_option.
  - by apply removes_fields.
  - by intros s st'.
  - intros items' [= <-]. by apply removes_list.
Qed.

(** The analysis of a function definition returns its parameter names
    without the names that are assigned somewhere in the definition. *)
Lemma list_read_only_params_spec name params more body decorator_list returns rop :
  _list_read_only_params
    (FunctionDef name (arguments params more) body decorator_list returns) = inr rop →
  ∃ names, arg_names params = Some names
    ∧ rop = list_to_set names
            ∖ store_targets
                (FunctionDef name (arguments params more) body decorator_list returns).
Proof.
  unfold _list_read_only_params. simpl lrp_visit.
  destruct (arg_names params) as [names|]; [|done].
  intros H. exists names. split; [done|].
  destruct (lrp_seq _ _ _) as [e|[s|]] eqn:E; try done. injection H as <-.
  assert (removes
            (lrp_seq (lrp_child_with lrp_visit (arguments params more))
               (lrp_seq (lrp_list_with lrp_visit body)
                  (lrp_seq (lrp_list_with lrp_visit decorator_list)
                     (lrp_option_with lrp_visit returns))))
            (store_targets
               (FunctionDef name (arguments params more) body decorator_list returns)))
    as Hrem.
  { change (store_targets (FunctionDef name (arguments params more) body
                             decorator_list returns))
      with (targets_child_with store_targets (arguments params more)
            ∪ targets_list_with store_targets body
            ∪ targets_list_with store_targets decorator_list
            ∪ targets_option_with store_targets returns).
    rewrite <- !(assoc_L (∪)).
    apply removes_seq; [apply removes_child, removes_everywhere|].
    apply removes_seq;
      [apply removes_list, Forall_forall; intros; apply removes_everywhere|].
    apply removes_seq;
      [apply removes_list, Forall_forall; intros; apply removes_everywhere|].
    apply removes_option. destruct returns; simpl; [apply removes_everywhere | done]. }
  specialize (Hrem _ _ E). by injection Hrem.
Qed.

(** ** Initialization of the parameters *)

Section Initialization.
Context (hst : host).

Lemma get_store_name obj funcname q rm target rm1 :
  get hst obj funcname (Name q Store) rm = inr (target, rm1) →
  ∃ iname, target = Name iname Store
    ∧ to_inlined rm1 !! (py_id hst obj, funcname, q) = Some (_UserVariable iname)
    ∧ ∀ k, k ≠ (py_id hst obj, funcname, q) → to_inlined rm1 !! k = to_inlined rm !! k.
Proof.
  unfold get. simpl. unfold bind, get_name.
  destruct (to_inlined rm !! (py_id hst obj, funcname, q)) as [ival|] eqn:Hkey.
  - destruct ival as [name|v].
    + intros [= <- <-]. by exists name.
    + by destruct v.
  - unfold bind. destruct (new_name q rm) as [e|[iname rm0]] eqn:Hnew; [done|].
    intros [= <- <-]. exists iname. split; [done|]. simpl.
    destruct (new_name_frame _ _ _ _ Hnew) as [-> _].
    split; [by rewrite lookup_insert_eq|]. intros k Hk. by rewrite lookup_insert_ne.
Qed.

Lemma initialize_loop_spec obj funcname rop params : ∀ names k_args rm init rm',
  arg_names params = Some names → NoDup names →
  initialize_loop hst obj funcname rop params k_args rm = inr (init, rm') →
  Forall2 (initializes hst rm' obj funcname) init
    (filter (λ qv, qv.1 ∉ rop) (zip names k_args))
  ∧ (∀ i p v, names !! i = Some p → k_args !! i = Some v → p ∈ rop →
       to_inlined rm' !! (py_id hst obj, funcname, p) = Some (Bound v))
  ∧ (∀ l, l ∉ names →
       to_inlined rm' !! (py_id hst obj, funcname, l)
       = to_inlined rm !! (py_id hst obj, funcname, l)).
Proof.
  induction params as [|arg_ast params IH]; intros names k_args rm init rm' Hnames Hnd.
  - injection Hnames as <-. simpl. intros [= <- <-].
    split; [constructor|]. split; [by intros [] | done].
  - simpl in Hnames. destruct (arg_name arg_ast) as [p|] eqn:Hp; [|done].
    destruct (arg_names params) as [names'|] eqn:Hn'; [|done].
    injection Hnames as <-. apply NoDup_cons in Hnd as [Hfresh Hnd].
    simpl. destruct k_args as [|v k_args].
    { intros [= <- <-]. split; [constructor|]. split; [by intros [] | done]. }
    rewrite Hp. unfold bind at 1.
    case_bool_decide as Hrop.
    + unfold bind at 1. unfold set at 1. unfold ret at 1. unfold bind at 1.
      set (rm1 := set_to_inlined _ rm).
      destruct (initialize_loop hst obj funcname rop params k_args rm1)
        as [e|[rest rm2]] eqn:Hrest; [done|].
      intros [= <- <-].
      destruct (IH _ _ _ _ _ eq_refl Hnd Hrest) as (Hinit & Hbound & Hframe).
      split; [|split].
      * simpl. rewrite filter_cons_False by (simpl; tauto). exact Hinit.
      * intros [|i] q w; simpl.
        -- intros [= <-] [= <-] _. rewrite Hframe by done.
           subst rm1. simpl. by rewrite lookup_insert_eq.
        -- apply Hbound.
      * intros l Hl. apply not_elem_of_cons in Hl as [Hlp Hl].
        rewrite Hframe by done. subst rm1. simpl.
        rewrite lookup_insert_ne; [done|]. congruence.
    + unfold bind at 1.
      destruct (get hst obj funcname (Name p Store) rm) as [e|[target rm1]] eqn:Hget;
        [done|].
      unfold ret at 1. unfold bind at 1.
      destruct (initialize_loop hst obj funcname rop params k_args rm1)
        as [e|[rest rm2]] eqn:Hrest; [done|].
      intros [= <- <-].
      destruct (get_store_name _ _ _ _ _ _ Hget) as (iname & -> & Hkey & Hother).
      destruct (IH _ _ _ _ _ eq_refl Hnd Hrest) as (Hinit & Hbound & Hframe).
      split; [|split].
      * simpl. rewrite filter_cons_True by done. constructor; [|exact Hinit].
        exists iname. split; [done|]. simpl. by rewrite Hframe.
      * intros [|i] q w; simpl.
        -- by intros [= <-] [= <-] ?.
        -- apply Hbound.
      * intros l Hl. apply not_elem_of_cons in Hl as [Hlp Hl].
        rewrite Hframe by done. apply Hother. congruence.
Qed.

Lemma filter_params_targets (names : list string) (k_args : list value)
    (T : gset string) :
  filter (λ qv, qv.1 ∉ (list_to_set names ∖ T : gset string)) (zip names k_args)
  = filter (λ qv, qv.1 ∈ T) (zip names k_args).
Proof.
  assert (∀ (seen : list string) l,
            (∀ q, q ∈ l → q ∈ seen) → ∀ k_args,
            filter (λ qv : string * value, qv.1 ∉ (list_to_set seen ∖ T : gset string))
              (zip l k_args)
            = filter (λ qv : string * value, qv.1 ∈ T) (zip l k_args)) as H.
  { clear k_args. intros seen l. induction l as [|q l IH]; intros Hsub ks; [done|].
    destruct ks as [|v ks]; [done|]. simpl.
    assert (q ∈ seen) as Hq by (apply Hsub; left).
    destruct (decide (q ∈ T)) as [Hin|Hnin].
    - rewrite !filter_cons_True by (simpl; set_solver).
      f_equal. apply IH. intros; apply Hsub; by right.
    - rewrite !filter_cons_False by (simpl; set_solver).
      apply IH. intros; apply Hsub; by right. }
  by apply H.
Qed.

Lemma get_bound_load obj funcname p v rm :
  to_inlined rm !! (py_id hst obj, funcname, p) = Some (Bound v) →
  get hst obj funcname (Name p Load) rm =
    match v with
    | VAst a => inr (a, rm)
    | _ =>
        match _value_to_ast hst v with
        | Some lit => inr (lit, rm)
        | None => inl (NotImplementedError "Cannot represent inlined value")
        end
    end.
Proof.
  intros Hkey. unfold get. simpl. unfold bind, get_name. rewrite Hkey.
  destruct v; try done; by destruct (_value_to_ast hst _).
Qed.
End Initialization.

(** C3, as the code has it.  A parameter that is paired with an argument
    and whose name is no [Store] target anywhere in the function
    definition is bound by [set] to the argument as it is, and no
    initialization statement is emitted for it: the statements are those
    of the parameters that are [Store] targets, in order.  A later [Load]
    reference to it, resolved while the binding stands, gives the literal
    of the argument when the argument is a constant object (and fails when
    that has no literal); when the argument is a syntax tree, as for the
    arguments of a nested inlining, the binding is no folded constant and
    the reference gives that tree.  The visit of the body leaves the
    binding as it is, as long as the nested inlinings do. *)
Theorem read_only_param_bound_without_initialization (hst : host)
    (name : string) (params : list node) (more : list field)
    (body decorator_list : list node) (returns : option node)
    (obj : value) (k_rest : list value) (rm rm' : _ReferenceManager)
    (param_init : list node) (names : list string) (i : nat) (p : string)
    (v : value) :
  _initialize_function_params hst
    (FunctionDef name (arguments params more) body decorator_list returns)
    (obj :: k_rest) rm = inr (param_init, rm') →
  arg_names params = Some names →
  NoDup names →
  names !! i = Some p →
  (obj :: k_rest) !! i = Some v →
  p ∉ store_targets
        (FunctionDef name (arguments params more) body decorator_list returns) →
  to_inlined rm' !! (py_id hst obj, name, p) = Some (Bound v)
  ∧ is_folded_constant (Bound v) = negb (isinstance_AST v)
  ∧ (∀ rm1, to_inlined rm1 !! (py_id hst obj, name, p) = Some (Bound v) →
       get hst obj name (Name p Load) rm1 =
         match v with
         | VAst a => inr (a, rm1)
         | _ =>
             match _value_to_ast hst v with
             | Some lit => inr (lit, rm1)
             | None => inl (NotImplementedError "Cannot represent inlined value")
             end
         end)
  ∧ (∀ inline_rec n,
       (∀ k args,
          keeps (binding_stands (py_id hst obj, name, p) (Bound v)) (inline_rec k args)) →
       keeps (binding_stands (py_id hst obj, name, p) (Bound v))
         (visit hst inline_rec obj name n))
  ∧ Forall2 (initializes hst rm' obj name) param_init
      (filter (λ qv, qv.1 ∈ store_targets
                 (FunctionDef name (arguments params more) body decorator_list returns))
         (zip names (obj :: k_rest))).
Proof.
  intros Hrun Hnames Hnd Hp Hv Hnot.
  unfold _initialize_function_params in Hrun.
  destruct (_list_read_only_params _) as [e|rop] eqn:Hrop; [done|].
  destruct (list_read_only_params_spec _ _ _ _ _ _ _ Hrop) as (names0 & Hn0 & ->).
  rewrite Hnames in Hn0. injection Hn0 as <-.
  destruct (initialize_loop_spec hst _ _ _ _ _ _ _ _ _ Hnames Hnd Hrun)
    as (Hinit & Hbound & _).
  assert (to_inlined rm' !! (py_id hst obj, name, p) = Some (Bound v)) as Hkey.
  { apply (Hbound i); [done..|]. apply elem_of_difference. split; [|done].
    apply elem_of_list_to_set. by eapply list_elem_of_lookup_2. }
  split; [done|]. split; [done|].
  split; [intros rm1 Hrm1; by apply get_bound_load|].
  split; [intros inline_rec n Hrec; by apply visit_keeps_binding|].
  by rewrite <- filter_params_targets.
Qed.

(** ** The session as a whole, and the sample host *)

(** C4.  In a session, which starts from the reserved names ([Quantity],
    [base_s_unit], [base_Hz_unit], the kernel globals, [range]), the name
    allocator answers every request for a base name that is not empty,
    never returns the same name twice and never returns a reserved name;
    and after any run of [inline] on a new reference manager two scope
    keys never hold the same renamed variable and no renamed variable is a
    reserved name.  The kernel globals, which another module defines, are
    taken to be names that do not end in a digit. *)
Theorem renamed_variables_unique_and_unreserved (hst : host) :
  Forall (λ kg, ends_with_digit kg = false) (kernel_globals hst) →
  (∀ bases, Forall (λ b, b ≠ "") bases →
     ∃ names rm', mapM new_name bases (__init__ hst) = inr (names, rm')
                  ∧ length names = length bases
                  ∧ NoDup names
                  ∧ Forall (λ r, r ∉ reserved_names hst) names)
  ∧ (∀ fuel k_function k_args body rm',
       inline_rm hst fuel k_function k_args (__init__ hst) = inr (body, rm') →
       (∀ k1 k2 name,
          to_inlined rm' !! k1 = Some (_UserVariable name) →
          to_inlined rm' !! k2 = Some (_UserVariable name) → k1 = k2)
       ∧ (∀ key name,
            to_inlined rm' !! key = Some (_UserVariable name) →
            name ∉ reserved_names hst)).
Proof.
  intros Hkg. split.
  - intros bases Hne. by apply new_names_unique_and_unreserved.
  - intros fuel k_function k_args body rm' Hrun.
    destruct (sound_inline_rm hst fuel k_function k_args _ _ _ Hrun) as (Hnames & _).
    specialize (Hnames (init_names_ok hst Hkg)).
    split.
    + destruct Hnames as (issued & _ & _ & Hinj). exact Hinj.
    + intros key name Hkey. by eapply names_ok_unreserved.
Qed.

(** C4 on the sample host, whose kernel globals end in no digit. *)
Lemma renamed_variables_unique_and_unreserved_witness :
  (∀ bases, Forall (λ b, b ≠ "") bases →
     ∃ names rm', mapM new_name bases (__init__ sample_host) = inr (names, rm')
                  ∧ length names = length bases
                  ∧ NoDup names
                  ∧ Forall (λ r, r ∉ reserved_names sample_host) names)
  ∧ (∀ fuel k_function k_args body rm',
       inline_rm sample_host fuel k_function k_args (__init__ sample_host)
         = inr (body, rm') →
       (∀ k1 k2 name,
          to_inlined rm' !! k1 = Some (_UserVariable name) →
          to_inlined rm' !! k2 = Some (_UserVariable name) → k1 = k2)
       ∧ (∀ key name,
            to_inlined rm' !! key = Some (_UserVariable name) →
            name ∉ reserved_names sample_host)).
Proof.
  apply (renamed_variables_unique_and_unreserved sample_host).
  repeat constructor.
Defined.

(** The names that five requests get in a new session. *)
Example new_name_five_requests :
  fst <$> (match mapM new_name ["y"; "y"; "y1"; "range"; "y"] (__init__ sample_host) with
           | inr r => Some r
           | inl _ => None
           end)
  = Some ["y"; "y1"; "y1_"; "range1"; "y2"].
Proof. vm_compute. reflexivity. Qed.

(** C6 on the sample host: [N] has no binding and is 10 in the module. *)
Lemma get_unbound_load_resolves_in_module_witness :
  get sample_host sample_owner "k" (Name "N" Load) (__init__ sample_host)
  = inr (Num (PInt 10), __init__ sample_host).
Proof.
  rewrite (get_unbound_load_resolves_in_module sample_host sample_owner "k"
             (Name "N" Load) (__init__ sample_host));
    reflexivity.
Defined.

(** C10 on the sample host: [self.period] as the target of an assignment. *)
Lemma get_attribute_or_subscript_witness :
  get sample_host sample_owner "k"
    (Attribute (Name "self" Load) "period" Store) sample_rm_k = inl KeyError.
Proof.
  apply (get_attribute_or_subscript sample_host sample_owner "k"
           (Attribute (Name "self" Load) "period" Store) sample_rm_k);
    reflexivity.
Defined.

(** In [Load] context the attribute of the owner is not found either: the
    module's dictionary has no [self], although the reference manager
    binds it. *)
Example get_attribute_of_self_fails :
  get sample_host sample_owner "k"
    (Attribute (Name "self" Load) "period" Load) sample_rm_k = inl KeyError.
Proof. vm_compute. reflexivity. Qed.

(** C8 on the sample host: [delay(N)]. *)
Lemma visit_Call_embeddable_witness :
  ∃ name,
    __name__ (VCallable experiment_delay) = Some name
    ∧ name ∈ ["Quantity"; "delay"; "at"; "now"; "syscall"; "range"]
    ∧ visit sample_host (inline_rm sample_host 2) sample_owner "k"
        (Call (Name "delay" Load) [Name "N" Load] [] None None) sample_rm_k
      = (new_args <- mapM (visit sample_host (inline_rm sample_host 2) sample_owner "k")
                       [Name "N" Load] ;;
         ret (Call (Name name Load) new_args [] None None)) sample_rm_k
    ∧ visit sample_host (inline_rm sample_host 2) sample_owner "k"
        (Expr (Call (Name "delay" Load) [Name "N" Load] [] None None)) sample_rm_k
      = (new_args <- mapM (visit sample_host (inline_rm sample_host 2) sample_owner "k")
                       [Name "N" Load] ;;
         ret (Expr (Call (Name name Load) new_args [] None None))) sample_rm_k.
Proof.
  apply (visit_Call_embeddable sample_host (inline_rm sample_host 2) sample_owner "k"
           (Name "delay" Load) [Name "N" Load] [] None None sample_module
           (VCallable experiment_delay) sample_rm_k).
  - reflexivity.
  - vm_compute. reflexivity.
  - right. left.
Defined.

(** [delay(N)] in the kernel [k] becomes [delay(10)]. *)
Example visit_delay_call :
  fst <$> (match visit sample_host (inline_rm sample_host 2) sample_owner "k"
                   (Call (Name "delay" Load) [Name "N" Load] [] None None) sample_rm_k with
           | inr r => Some r
           | inl _ => None
           end)
  = Some (Call (Name "delay" Load) [Num (PInt 10)] [] None None).
Proof. vm_compute. reflexivity. Qed.

(** C9 on the sample host: the parameter [delay] of [h] and the [delay]
    of the module. *)
Lemma call_target_module_overrides_constants_witness :
  (∃ cv, Bound (VCallable (host_function 9 "helper")) = Bound cv
         ∧ get_constants sample_host sample_rm_h sample_owner "h" !! "delay" = Some cv)
  ∧ calldict sample_host sample_owner "h" sample_module sample_rm_h !! "delay"
    = Some (VCallable experiment_delay)
  ∧ eval_ast sample_host (Name "delay" Load)
      (calldict sample_host sample_owner "h" sample_module sample_rm_h)
    = inr (VCallable experiment_delay)
  ∧ visit_Call_with sample_host (inline_rm sample_host 2) sample_owner "h"
      (ret [Num (PInt 10)]) (Name "delay" Load) sample_rm_h
    = (new_args <- ret [Num (PInt 10)] ;;
       emit_call (inline_rm sample_host 2) (VCallable experiment_delay) new_args)
        sample_rm_h.
Proof.
  apply (call_target_module_overrides_constants sample_host (inline_rm sample_host 2)
           sample_owner "h" sample_rm_h "delay"
           (Bound (VCallable (host_function 9 "helper")))
           (VCallable experiment_delay) sample_module (ret [Num (PInt 10)]) Load);
    reflexivity.
Defined.

(** The kernel [h], whose parameter [delay] is bound to a host function,
    calls the [delay] of the module all the same. *)
Example inline_kernel_h :
  inline sample_host 3 kernel_h [sample_owner; VCallable (host_function 9 "helper")]
  = inr ([Expr (Call (Name "delay" Load) [Num (PInt 10)] [] None None)], []).
Proof. vm_compute. reflexivity. Qed.

(** C1 on the sample host: [self.g(4)] in the kernel [k]. *)
Lemma visit_Call_kernel_gives_statement_list_witness :
  visit sample_host (inline_rm sample_host 2) sample_owner "k"
    (Call (Attribute (Name "self" Load) "g" Load) [Num (PInt 4)] [] None None)
    sample_rm_k
  = (inlined <- nested_inline sample_host (inline_rm sample_host 2) sample_owner "k"
                  [Num (PInt 4)] sample_owner kernel_g ;;
     ret (PyList inlined)) sample_rm_k.
Proof.
  apply (visit_Call_kernel_gives_statement_list sample_host 2 sample_owner "k"
           (Attribute (Name "self" Load) "g" Load) [Num (PInt 4)] [] None None
           sample_module sample_owner kernel_g [] sample_rm_k).
  - reflexivity.
  - vm_compute. reflexivity.
Defined.

(** C1, counterexample.  In [z = self.g(y)] the call produces a value.
    The kernel [g] ends in [return a], and after inlining the value field
    of the assignment holds the two statements of [g], the [return]
    among them, where the returned expression [y] would stand. *)
Lemma value_call_holds_statement_list :
  inline sample_host 3 kernel_f [sample_owner; VNum (PInt 2)]
  = inr ([Assign [Name "y" Store] (Some (Num (PInt 2)));
          Assign [Name "y" Store] (Some (BinOp (Name "y" Load) "Add" (Num (PInt 1))));
          Generic "Assign"
            [FList [Name "z" Store];
             FList [Expr (Call (Name "syscall" Load)
                            [Str "rpc"; Num (PInt 0); Name "y" Load] [] None None);
                    Return (Some (Name "y" Load))]];
          Expr (Call (Name "syscall" Load)
                  [Str "rpc"; Num (PInt 0); Num (PInt 4)] [] None None);
          Return (Some (Num (PInt 4)))],
         [(VCallable (host_function 7 "log"), 0%nat)]).
Proof. vm_compute. reflexivity. Qed.

(** C2, on the code.  The parameter [y] of [k] is assigned in the body and
    the argument [None] has no literal: [inline] does not fail, and the
    first statement of its result is an assignment whose value is
    [None]. *)
Theorem mutable_param_unencodable_argument_not_refused :
  _value_to_ast sample_host VNone = None
  ∧ inline sample_host 3 kernel_k [sample_owner; VNone]
    = inr ([Assign [Name "y" Store] None;
            Assign [Name "y" Store] (Some (BinOp (Name "y" Load) "Add" (Num (PInt 1))));
            Expr (Call (Name "syscall" Load)
                    [Str "rpc"; Num (PInt 0); Name "y" Load] [] None None);
            Return (Some (Name "y" Load))],
           [(VCallable (host_function 7 "log"), 0%nat)]).
Proof. split; vm_compute; reflexivity. Qed.

(** With an argument that has a literal the same kernel starts with the
    one initialization of [y]. *)
Example inline_kernel_k :
  inline sample_host 3 kernel_k [sample_owner; VNum (PInt 2)]
  = inr ([Assign [Name "y" Store] (Some (Num (PInt 2)));
          Assign [Name "y" Store] (Some (BinOp (Name "y" Load) "Add" (Num (PInt 1))));
          Expr (Call (Name "syscall" Load)
                  [Str "rpc"; Num (PInt 0); Name "y" Load] [] None None);
          Return (Some (Name "y" Load))],
         [(VCallable (host_function 7 "log"), 0%nat)]).
Proof. vm_compute. reflexivity. Qed.

(** C3 on the sample host: the parameter [self] of [k]. *)
Lemma read_only_param_bound_without_initialization_witness :
  to_inlined sample_init_k.2 !! (py_id sample_host sample_owner, "k", "self")
    = Some (Bound sample_owner)
  ∧ is_folded_constant (Bound sample_owner) = negb (isinstance_AST sample_owner)
  ∧ (∀ rm1, to_inlined rm1 !! (py_id sample_host sample_owner, "k", "self")
              = Some (Bound sample_owner) →
       get sample_host sample_owner "k" (Name "self" Load) rm1 =
         match sample_owner with
         | VAst a => inr (a, rm1)
         | _ =>
             match _value_to_ast sample_host sample_owner with
             | Some lit => inr (lit, rm1)
             | None => inl (NotImplementedError "Cannot represent inlined value")
             end
         end)
  ∧ (∀ inline_rec n,
       (∀ k args,
          keeps (binding_stands (py_id sample_host sample_owner, "k", "self")
                   (Bound sample_owner)) (inline_rec k args)) →
       keeps (binding_stands (py_id sample_host sample_owner, "k", "self")
                (Bound sample_owner))
         (visit sample_host inline_rec sample_owner "k" n))
  ∧ Forall2 (initializes sample_host sample_init_k.2 sample_owner "k") sample_init_k.1
      (filter (λ qv, qv.1 ∈ store_targets kernel_k)
         (zip ["self"; "y"] [sample_owner; VNum (PInt 2)])).
Proof.
  apply (read_only_param_bound_without_initialization sample_host "k"
           [arg "self" None; arg "y" None] []
           [Assign [Name "y" Store] (Some (BinOp (Name "y" Load) "Add" (Num (PInt 1))));
            Expr (Call (Attribute (Name "self" Load) "g" Load) [Name "y" Load] [] None None)]
           [Name "kernel" Load] None
           sample_owner [VNum (PInt 2)] (__init__ sample_host) sample_init_k.2
           sample_init_k.1 ["self"; "y"] 0 "self" sample_owner).
  - vm_compute. reflexivity.
  - reflexivity.
  - apply (bool_decide_unpack _). vm_compute. exact I.
  - reflexivity.
  - reflexivity.
  - apply (bool_decide_unpack _). vm_compute. exact I.
Defined.

(** C3, counterexample.  The parameter [a] of [g] is no [Store] target.
    When [k] calls [self.g(y)], [a] is bound to the tree of the argument,
    the renamed variable [y]: the binding is no folded constant
    ([get_constants] lacks it), the tree has no literal, and the reference
    to [a] in the output is the variable [y]. *)
Lemma read_only_param_bound_to_tree :
  ∃ rm',
    inline_rm sample_host 3 kernel_k [sample_owner; VNum (PInt 2)] (__init__ sample_host)
    = inr ([Assign [Name "y" Store] (Some (Num (PInt 2)));
            Assign [Name "y" Store] (Some (BinOp (Name "y" Load) "Add" (Num (PInt 1))));
            Expr (Call (Name "syscall" Load)
                    [Str "rpc"; Num (PInt 0); Name "y" Load] [] None None);
            Return (Some (Name "y" Load))], rm')
    ∧ ("a" ∉ store_targets kernel_g)
    ∧ to_inlined rm' !! (py_id sample_host sample_owner, "g", "a")
      = Some (Bound (VAst (Name "y" Load)))
    ∧ is_folded_constant (Bound (VAst (Name "y" Load))) = false
    ∧ get_constants sample_host rm' sample_owner "g" !! "a" = None
    ∧ _value_to_ast sample_host (VAst (Name "y" Load)) = None.
Proof.
  eexists. split; [vm_compute; reflexivity|].
  split; [apply (bool_decide_unpack _); vm_compute; exact I|].
  repeat split; vm_compute; reflexivity.
Qed.

(** * Further properties of the reference manager *)

(** ** Resolution of names *)

Lemma get_user_variable (hst : host) obj funcname id ctx iname rm :
  to_inlined rm !! (py_id hst obj, funcname, id) = Some (_UserVariable iname) →
  get hst obj funcname (Name id ctx) rm = inr (Name iname ctx, rm).
Proof.
  intros Hkey. unfold get. simpl. unfold bind, get_name. by rewrite Hkey.
Qed.

Lemma get_store_bound (hst : host) obj funcname id v rm :
  to_inlined rm !! (py_id hst obj, funcname, id) = Some (Bound v) →
  get hst obj funcname (Name id Store) rm
  = inl (if isinstance_AST v then AssertionError
         else NotImplementedError "Cannot turn object into user variable").
Proof.
  intros Hkey. unfold get. simpl. unfold bind, get_name. rewrite Hkey.
  by destruct v.
Qed.

(** X1.  Renaming is stable.  When a name resolves in [Store] context,
    the result is a [Name] in [Store] context that holds the renamed
    variable recorded for the scope key; when the key had a binding
    already, nothing is allocated and the reference manager is
    unchanged.  From then on every resolution of the name in the same
    scope, in any context and in any later state that still has the
    binding, gives the same renamed variable with the context of the
    reference and leaves the reference manager unchanged, and a visit
    does not change the binding unless a nested inlining does. *)
Theorem get_renamed_variable_stable (hst : host) (obj : value)
    (funcname id : string) (rm rm1 : _ReferenceManager) (target : node) :
  get hst obj funcname (Name id Store) rm = inr (target, rm1) →
  ∃ iname,
    target = Name iname Store
    ∧ to_inlined rm1 !! (py_id hst obj, funcname, id) = Some (_UserVariable iname)
    ∧ (is_Some (to_inlined rm !! (py_id hst obj, funcname, id)) → rm1 = rm)
    ∧ (∀ ctx rm2,
         to_inlined rm2 !! (py_id hst obj, funcname, id) = Some (_UserVariable iname) →
         get hst obj funcname (Name id ctx) rm2 = inr (Name iname ctx, rm2))
    ∧ (∀ inline_rec n,
         (∀ k args,
            keeps (binding_stands (py_id hst obj, funcname, id) (_UserVariable iname))
              (inline_rec k args)) →
         keeps (binding_stands (py_id hst obj, funcname, id) (_UserVariable iname))
           (visit hst inline_rec obj funcname n)).
Proof.
  intros Hget.
  destruct (get_store_name hst _ _ _ _ _ _ Hget) as (iname & -> & Hkey & _).
  exists iname. split; [done|]. split; [done|]. split; [|split].
  - intros [b Hb]. destruct b as [name|v].
    + rewrite (get_user_variable hst _ _ _ _ _ _ Hb) in Hget. congruence.
    + rewrite (get_store_bound hst _ _ _ _ _ Hb) in Hget. done.
  - intros ctx rm2. apply get_user_variable.
  - intros inline_rec n Hrec. by apply visit_keeps_binding.
Qed.

Lemma get_renamed_variable_stable_witness :
  ∃ iname,
    Name "y" Store = Name iname Store
    ∧ to_inlined sample_init_k.2 !! (py_id sample_host sample_owner, "k", "y")
      = Some (_UserVariable iname)
    ∧ (is_Some (to_inlined sample_rm_k !! (py_id sample_host sample_owner, "k", "y")) →
       sample_init_k.2 = sample_rm_k)
    ∧ (∀ ctx rm2,
         to_inlined rm2 !! (py_id sample_host sample_owner, "k", "y")
           = Some (_UserVariable iname) →
         get sample_host sample_owner "k" (Name "y" ctx) rm2 = inr (Name iname ctx, rm2))
    ∧ (∀ inline_rec n,
         (∀ k args,
            keeps (binding_stands (py_id sample_host sample_owner, "k", "y")
                     (_UserVariable iname)) (inline_rec k args)) →
         keeps (binding_stands (py_id sample_host sample_owner, "k", "y")
                  (_UserVariable iname))
           (visit sample_host inline_rec sample_owner "k" n)).
Proof.
  apply (get_renamed_variable_stable sample_host sample_owner "k" "y" sample_rm_k).
  vm_compute. reflexivity.
Defined.

(** X2.  A name that [set] has bound cannot become a variable: the
    resolution of the name in [Store] context right after [set] raises,
    [AssertionError] when the bound object is a syntax tree and
    [NotImplementedError] when it is a constant object, and it does so
    in every later state that has the same binding for the name. *)
Theorem set_then_store_is_refused (hst : host) (obj : value)
    (funcname name : string) (v : value) (rm : _ReferenceManager) :
  (set hst obj funcname name v ;;; get hst obj funcname (Name name Store)) rm
  = inl (if isinstance_AST v then AssertionError
         else NotImplementedError "Cannot turn object into user variable")
  ∧ ∀ rm1 rm2,
      set hst obj funcname name v rm = inr (tt, rm1) →
      to_inlined rm2 !! (py_id hst obj, funcname, name)
        = to_inlined rm1 !! (py_id hst obj, funcname, name) →
      get hst obj funcname (Name name Store) rm2
      = inl (if isinstance_AST v then AssertionError
             else NotImplementedError "Cannot turn object into user variable").
Proof.
  split.
  - unfold bind at 1, set. apply get_store_bound. simpl. by rewrite lookup_insert_eq.
  - intros rm1 rm2 [= <-] Hsame. apply get_store_bound. rewrite Hsame. simpl.
    by rewrite lookup_insert_eq.
Qed.

(** ** The constants of a scope *)

(** X3.  [get_constants] gives exactly the folded constants of the scope
    it is asked for: a local name is a key of the result, with the value
    [v], if and only if [to_inlined] binds the name in the scope of
    [r_obj] and [r_funcname] to the object [v] and [v] is no syntax tree.
    Renamed variables, substituted trees and the bindings of every other
    owner or function are left out. *)
Theorem get_constants_are_the_scope_constants (hst : host)
    (rm : _ReferenceManager) (r_obj : value) (r_funcname local : string)
    (v : value) :
  get_constants hst rm r_obj r_funcname !! local = Some v
  ↔ to_inlined rm !! (py_id hst r_obj, r_funcname, local) = Some (Bound v)
    ∧ isinstance_AST v = false.
Proof.
  rewrite get_constants_lookup.
  destruct (to_inlined rm !! (py_id hst r_obj, r_funcname, local)) as [[name|w]|];
    [naive_solver| |naive_solver].
  destruct (isinstance_AST w) eqn:Hw.
  { split; [done|]. intros [[= ->] Hv]. congruence. }
  split.
  + intros [= <-]. by split.
  + intros [Heq _]. by injection Heq as <-.
Qed.

(** X4.  [set] and then [get_constants]: after [set] has bound a name,
    the constants of that scope hold the bound object under that name
    when it is no syntax tree and have no entry for the name when it is
    one (an earlier constant of that name is dropped); every other name
    of the scope and the constants of every other scope are as they
    were. *)
Theorem set_then_get_constants (hst : host) (rm : _ReferenceManager)
    (obj : value) (funcname name : string) (v : value) :
  ∃ rm', set hst obj funcname name v rm = inr (tt, rm')
    ∧ get_constants hst rm' obj funcname !! name
      = (if isinstance_AST v then None else Some v)
    ∧ (∀ local, local ≠ name →
         get_constants hst rm' obj funcname !! local
         = get_constants hst rm obj funcname !! local)
    ∧ (∀ r_obj r_funcname,
         py_id hst r_obj ≠ py_id hst obj ∨ r_funcname ≠ funcname →
         get_constants hst rm' r_obj r_funcname = get_constants hst rm r_obj r_funcname).
Proof.
  eexists. split; [reflexivity|]. split; [|split].
  - rewrite get_constants_lookup. simpl. by rewrite lookup_insert_eq.
  - intros local Hne. rewrite !get_constants_lookup. simpl.
    rewrite lookup_insert_ne; [done|]. congruence.
  - intros r_obj r_funcname Hne. apply map_eq. intros local.
    rewrite !get_constants_lookup. simpl.
    rewrite lookup_insert_ne; [done|]. intros [= ? ? ?]. naive_solver.
Qed.

(** ** The registry of remote calls *)

Lemma rpc_lookup_app_l (f : value) (l l' : list (value * nat)) (i : nat) :
  rpc_lookup f l = Some i → rpc_lookup f (l ++ l') = Some i.
Proof.
  unfold rpc_lookup. induction l as [|p l IH]; [done|]. simpl.
  by case_bool_decide.
Qed.

Lemma rpc_lookup_snoc_new (f : value) (l : list (value * nat)) (i : nat) :
  rpc_lookup f l = None → rpc_lookup f (l ++ [(f, i)]) = Some i.
Proof.
  unfold rpc_lookup. induction l as [|p l IH]; simpl.
  - by rewrite bool_decide_eq_true_2.
  - by case_bool_decide.
Qed.

Lemma rpc_map_getitem_lookup (func : value) (rm : _ReferenceManager) :
  ∃ i rm', rpc_map_getitem func rm = inr (i, rm')
           ∧ rpc_lookup func (rpc_map rm') = Some i.
Proof.
  unfold rpc_map_getitem.
  destruct (rpc_lookup func (rpc_map rm)) as [i|] eqn:Hl.
  - by exists i, rm.
  - eexists _, _. split; [reflexivity|]. simpl. by apply rpc_lookup_snoc_new.
Qed.

(** X5.  [rpc_map[func]] never raises, and it is a lookup that enters
    what it lacks: the answer is the number that the registry holds for
    the callable afterwards, a second query gives the same answer without
    touching the registry, the entries that were there stay (the registry
    only grows at its end, by at most one entry), so every callable keeps
    the number it had, and the names and bindings are not touched. *)
Theorem rpc_map_getitem_enters_once (func : value) (rm : _ReferenceManager) :
  ∃ i rm',
    rpc_map_getitem func rm = inr (i, rm')
    ∧ rpc_lookup func (rpc_map rm') = Some i
    ∧ rpc_map_getitem func rm' = inr (i, rm')
    ∧ (rpc_map rm' = rpc_map rm ∨ rpc_map rm' = rpc_map rm ++ [(func, length (rpc_map rm))])
    ∧ (∀ g j, rpc_lookup g (rpc_map rm) = Some j → rpc_lookup g (rpc_map rm') = Some j)
    ∧ to_inlined rm' = to_inlined rm ∧ use_count rm' = use_count rm.
Proof.
  unfold rpc_map_getitem.
  destruct (rpc_lookup func (rpc_map rm)) as [i|] eqn:Hl.
  - exists i, rm. rewrite Hl. naive_solver.
  - eexists _, _. split; [reflexivity|]. simpl.
    rewrite (rpc_lookup_snoc_new _ _ _ Hl).
    split; [done|]. split; [done|]. split; [by right|]. split; [|done].
    intros g j. apply rpc_lookup_app_l.
Qed.

(** * Further properties of the reference replacer *)

(** ** Remote calls *)

Lemma mapM_length {A B} (f : A → M B) (l : list A) : ∀ rm ys rm',
  mapM f l rm = inr (ys, rm') → length ys = length l.
Proof.
  induction l as [|x l IH]; intros rm ys rm'; simpl.
  - by intros [= <- <-].
  - unfold bind at 1. destruct (f x rm) as [e|[y rm1]]; [done|].
    unfold bind at 1. destruct (mapM f l rm1) as [e|[ys' rm2]] eqn:Hl; [done|].
    intros [= <- <-]. simpl. f_equal. by eapply IH.
Qed.

Lemma emit_call_remote inline_rec (func : value) (new_args : list node) :
  is_remote func = true →
  emit_call inline_rec func new_args
  = (i <- rpc_map_getitem func ;; ret (remote_call i new_args)).
Proof.
  unfold is_remote, emit_call. intros H.
  apply andb_prop in H as [H Hk]. apply andb_prop in H as [Hh He].
  apply negb_true_iff in Hh, He. rewrite Hh, He. by destruct func.
Qed.

(** X6.  A call whose target evaluates to a callable that is hashable,
    is no member of [_embeddable_calls] and has no [k_function_info]
    becomes a remote call: [syscall("rpc", i, args...)] with the visited
    arguments, one for each argument of the call and in their order,
    without keywords, [starargs] or [kwargs] whatever the call had.  The
    number [i] is asked of the registry after the arguments have been
    visited, and it is the number the registry holds for the callable
    when the visit returns.  As an expression statement the call stays
    wrapped in its [Expr]. *)
Theorem visit_Call_remote (hst : host) inline_rec (obj : value)
    (funcname : string) (func_node : node) (args keywords : list node)
    (starargs kwargs : option node) (module_dict : gmap string value)
    (func : value) (rm : _ReferenceManager) :
  getmodule hst obj = Some module_dict →
  eval_ast hst func_node (calldict hst obj funcname module_dict rm) = inr func →
  is_remote func = true →
  visit hst inline_rec obj funcname
    (Call func_node args keywords starargs kwargs) rm
  = (new_args <- mapM (visit hst inline_rec obj funcname) args ;;
     i <- rpc_map_getitem func ;;
     ret (remote_call i new_args)) rm
  ∧ visit hst inline_rec obj funcname
      (Expr (Call func_node args keywords starargs kwargs)) rm
    = (new_args <- mapM (visit hst inline_rec obj funcname) args ;;
       i <- rpc_map_getitem func ;;
       ret (Expr (remote_call i new_args))) rm
  ∧ ∀ r rm',
      visit hst inline_rec obj funcname
        (Call func_node args keywords starargs kwargs) rm = inr (r, rm') →
      ∃ i new_args,
        r = remote_call i new_args
        ∧ length new_args = length args
        ∧ rpc_lookup func (rpc_map rm') = Some i.
Proof.
  intros Hmod Heval Hremote.
  assert (Hcall : visit hst inline_rec obj funcname
            (Call func_node args keywords starargs kwargs) rm
          = (new_args <- mapM (visit hst inline_rec obj funcname) args ;;
             i <- rpc_map_getitem func ;;
             ret (remote_call i new_args)) rm).
  { simpl. rewrite (visit_Call_with_target hst _ _ _ _ _ _ _ _ Hmod Heval).
    unfold bind. destruct (mapM _ args rm) as [e|[new_args rm1]]; [done|].
    by rewrite emit_call_remote. }
  split; [exact Hcall|]. split.
  - simpl. unfold bind at 1.
    rewrite (visit_Call_with_target hst _ _ _ _ _ _ _ _ Hmod Heval).
    unfold bind. destruct (mapM _ args rm) as [e|[new_args rm1]]; [done|].
    rewrite emit_call_remote by done. unfold bind.
    by destruct (rpc_map_getitem func rm1) as [e|[i rm2]].
  - intros r rm'. rewrite Hcall. unfold bind at 1.
    destruct (mapM _ args rm) as [e|[new_args rm1]] eqn:Hargs; [done|].
    destruct (rpc_map_getitem_lookup func rm1) as (i & rm2 & Hi & Hl).
    unfold bind. rewrite Hi. intros [= <- <-].
    exists i, new_args. split; [done|]. split; [|done].
    by eapply mapM_length.
Qed.

Lemma visit_Call_remote_witness :
  visit sample_host (inline_rm sample_host 2) sample_owner "k"
    (Call (Attribute (Name "self" Load) "log" Load) [Name "N" Load]
       [Generic "keyword" [FAtom (AStr "level"); FNode (Num (PInt 3))]] None None)
    sample_rm_k
  = (new_args <- mapM (visit sample_host (inline_rm sample_host 2) sample_owner "k")
                   [Name "N" Load] ;;
     i <- rpc_map_getitem (VCallable (host_function 7 "log")) ;;
     ret (remote_call i new_args)) sample_rm_k
  ∧ visit sample_host (inline_rm sample_host 2) sample_owner "k"
      (Expr (Call (Attribute (Name "self" Load) "log" Load) [Name "N" Load]
               [Generic "keyword" [FAtom (AStr "level"); FNode (Num (PInt 3))]]
               None None))
      sample_rm_k
    = (new_args <- mapM (visit sample_host (inline_rm sample_host 2) sample_owner "k")
                     [Name "N" Load] ;;
       i <- rpc_map_getitem (VCallable (host_function 7 "log")) ;;
       ret (Expr (remote_call i new_args))) sample_rm_k
  ∧ ∀ r rm',
      visit sample_host (inline_rm sample_host 2) sample_owner "k"
        (Call (Attribute (Name "self" Load) "log" Load) [Name "N" Load]
           [Generic "keyword" [FAtom (AStr "level"); FNode (Num (PInt 3))]] None None)
        sample_rm_k = inr (r, rm') →
      ∃ i new_args,
        r = remote_call i new_args
        ∧ length new_args = length [Name "N" Load]
        ∧ rpc_lookup (VCallable (host_function 7 "log")) (rpc_map rm') = Some i.
Proof.
  apply (visit_Call_remote sample_host (inline_rm sample_host 2) sample_owner "k"
           (Attribute (Name "self" Load) "log" Load) [Name "N" Load]
           [Generic "keyword" [FAtom (AStr "level"); FNode (Num (PInt 3))]] None None
           sample_module (VCallable (host_function 7 "log")) sample_rm_k).
  - reflexivity.
  - vm_compute. reflexivity.
  - vm_compute. reflexivity.
Defined.

(** The call [self.log(N, level=3)] in the kernel [k] becomes
    [syscall("rpc", 0, 10)]: the keyword is gone. *)
Example visit_remote_call_drops_keywords :
  fst <$> (match visit sample_host (inline_rm sample_host 2) sample_owner "k"
                   (Call (Attribute (Name "self" Load) "log" Load) [Name "N" Load]
                      [Generic "keyword" [FAtom (AStr "level"); FNode (Num (PInt 3))]]
                      None None) sample_rm_k with
           | inr r => Some r
           | inl _ => None
           end)
  = Some (Call (Name "syscall" Load) [Str "rpc"; Num (PInt 0); Num (PInt 10)]
            [] None None).
Proof. vm_compute. reflexivity. Qed.

(** ** The registry that [inline] returns *)

Lemma position_lookup (f : value) (l : list value) :
  f ∈ l → l !! position f l = Some f.
Proof.
  induction l as [|x l IH]; simpl; [by intros ?%elem_of_nil|].
  intros Hf. case_bool_decide as Hx; [by subst|].
  simpl. apply IH. apply elem_of_cons in Hf as [->|Hf]; done.
Qed.

Lemma lookup_position (f : value) (l : list value) (i : nat) :
  NoDup l → l !! i = Some f → position f l = i.
Proof.
  intros Hnd. revert i. induction Hnd as [|x l Hx Hnd IH]; intros i; [done|].
  destruct i as [|i]; simpl.
  - intros [= ->]. by rewrite bool_decide_eq_true_2.
  - intros Hi. rewrite bool_decide_eq_false_2.
    + f_equal. by apply IH.
    + intros ->. apply Hx. by eapply list_elem_of_lookup_2.
Qed.

Lemma registry_of_numbers (l : list value) :
  map snd (registry_of l) = seq 0 (length l).
Proof.
  unfold registry_of.
  assert (∀ k, map snd (imap (λ i (f : value), (f, k + i)%nat) l) = seq k (length l)) as H.
  { induction l as [|x l IH]; intros k; simpl; [done|].
    rewrite Nat.add_0_r. f_equal.
    rewrite (imap_ext _ (λ i (g0 : value), (g0, S k + i)%nat))
      by (intros; simpl; f_equal; lia).
    apply IH. }
  apply (H 0%nat).
Qed.

Lemma registry_ok_entry (reg : list (value * nat)) (f : value) (i : nat) :
  registry_ok reg →
  rpc_lookup f reg = Some i ↔ reg !! i = Some (f, i).
Proof.
  intros [Hreg Hnd]. rewrite Hreg at 1 2. rewrite rpc_lookup_registry.
  unfold registry_of. rewrite list_lookup_imap.
  split.
  - case_bool_decide as Hin; [|done]. intros [= <-].
    by rewrite (position_lookup _ _ Hin).
  - destruct (map fst reg !! i) as [g|] eqn:Hi; [|done]. simpl.
    intros [= ->]. rewrite bool_decide_eq_true_2 by by eapply list_elem_of_lookup_2.
    f_equal. by apply lookup_position.
Qed.

(** X7.  The registry that [inline] returns beside the statements is
    well numbered whatever was inlined, nested kernel calls included: no
    callable is entered twice, the numbers are 0, 1, ... in the order of
    entry, the callable numbered [i] is the entry at position [i], and
    two callables never have the same number. *)
Theorem inline_registry_well_numbered (hst : host) (fuel : nat)
    (k_function : node) (k_args : list value) (body : list node)
    (reg : list (value * nat)) :
  inline hst fuel k_function k_args = inr (body, reg) →
  NoDup (map fst reg)
  ∧ map snd reg = seq 0 (length reg)
  ∧ (∀ f i, rpc_lookup f reg = Some i ↔ reg !! i = Some (f, i))
  ∧ (∀ f g i, rpc_lookup f reg = Some i → rpc_lookup g reg = Some i → f = g).
Proof.
  unfold inline.
  destruct (inline_rm hst fuel k_function k_args (__init__ hst))
    as [e|[body' rm']] eqn:Hrun; [done|].
  intros [= <- <-].
  destruct (sound_inline_rm hst fuel _ _ _ _ _ Hrun) as (_ & Hreg & _).
  specialize (Hreg (init_registry_ok hst)).
  split; [apply Hreg|]. split; [|split].
  - destruct Hreg as [Hreg _]. rewrite Hreg at 1.
    by rewrite registry_of_numbers, length_map.
  - intros f i. by apply registry_ok_entry.
  - intros f g i Hf Hg.
    apply (registry_ok_entry _ _ _ Hreg) in Hf, Hg. congruence.
Qed.

Lemma inline_registry_well_numbered_witness :
  NoDup (map fst [(VCallable (host_function 7 "log"), 0%nat);
                  (VCallable (host_function 9 "helper"), 1%nat)])
  ∧ map snd [(VCallable (host_function 7 "log"), 0%nat);
             (VCallable (host_function 9 "helper"), 1%nat)]
    = seq 0 (length [(VCallable (host_function 7 "log"), 0%nat);
                     (VCallable (host_function 9 "helper"), 1%nat)])
  ∧ (∀ f i, rpc_lookup f [(VCallable (host_function 7 "log"), 0%nat);
                          (VCallable (host_function 9 "helper"), 1%nat)] = Some i
            ↔ [(VCallable (host_function 7 "log"), 0%nat);
               (VCallable (host_function 9 "helper"), 1%nat)] !! i = Some (f, i))
  ∧ (∀ f g i,
       rpc_lookup f [(VCallable (host_function 7 "log"), 0%nat);
                     (VCallable (host_function 9 "helper"), 1%nat)] = Some i →
       rpc_lookup g [(VCallable (host_function 7 "log"), 0%nat);
                     (VCallable (host_function 9 "helper"), 1%nat)] = Some i →
       f = g).
Proof.
  apply (inline_registry_well_numbered sample_host 3 kernel_m [sample_owner]
           [Expr (Call (Name "syscall" Load)
                    [Str "rpc"; Num (PInt 1);
                     Call (Name "syscall" Load)
                       [Str "rpc"; Num (PInt 0); Num (PInt 1)] [] None None]
                    [] None None)]).
  vm_compute. reflexivity.
Defined.

(** * Further properties of the read-only parameter analysis *)

Lemma outcome_skip : lrp_outcome lrp_skip false ∅.
Proof. intros s. unfold lrp_skip. f_equal. f_equal. set_solver. Qed.

Lemma outcome_seq a b da db A B :
  lrp_outcome a da A → lrp_outcome b db B →
  lrp_outcome (lrp_seq a b) (da || db) (A ∪ B).
Proof.
  intros Ha Hb s. unfold lrp_seq. rewrite Ha. destruct da; simpl; [done|].
  rewrite Hb. destruct db; [done|]. f_equal. f_equal. set_solver.
Qed.

Lemma outcome_list l :
  Forall lrp_outcome_at l →
  lrp_outcome (lrp_list_with lrp_visit l) (defs_list_with holds_def l)
    (targets_list_with store_targets l).
Proof.
  induction 1 as [|x l Hx Hl IH]; simpl; [apply outcome_skip|].
  apply outcome_seq; [|done]. destruct x; try done. apply outcome_skip.
Qed.

Lemma outcome_child c :
  lrp_outcome_at c →
  lrp_outcome (lrp_child_with lrp_visit c) (defs_child_with holds_def c)
    (targets_child_with store_targets c).
Proof. by destruct c. Qed.

Lemma outcome_option o :
  option_Forall lrp_outcome_at o →
  lrp_outcome (lrp_option_with lrp_visit o) (defs_option_with holds_def o)
    (targets_option_with store_targets o).
Proof.
  destruct o as [c|]; simpl; [apply outcome_child | intros; apply outcome_skip].
Qed.

Lemma outcome_fields fs :
  Forall (field_Forall lrp_outcome_at) fs →
  lrp_outcome (lrp_fields_with lrp_visit fs) (defs_fields_with holds_def fs)
    (targets_fields_with store_targets fs).
Proof.
  induction 1 as [|f fs Hf Hfs IH]; simpl; [apply outcome_skip|].
  apply outcome_seq; [|done].
  destruct f as [c|l|a]; simpl in *.
  - by apply outcome_child.
  - by apply outcome_list.
  - apply outcome_skip.
Qed.

Lemma outcome_everywhere : ∀ n, lrp_outcome_at n.
Proof.
  induction n using node_nested_ind; simpl.
  - intros s. case_bool_decide; [done|]. f_equal. f_equal. set_solver.
  - by apply outcome_child.
  - apply outcome_seq; by apply outcome_child.
  - apply outcome_skip.
  - apply outcome_skip.
  - rewrite <- !(assoc_L (∪)), <- !orb_assoc.
    repeat apply outcome_seq;
      auto using outcome_child, outcome_list, outcome_option.
  - by apply outcome_child.
  - by intros s.
  - apply outcome_seq; auto using outcome_list, outcome_fields.
  - by apply outcome_option.
  - by apply outcome_fields.
  - by apply outcome_list.
Qed.

Lemma list_read_only_params_outcome name params more body decorator_list returns :
  _list_read_only_params
    (FunctionDef name (arguments params more) body decorator_list returns)
  = match arg_names params with
    | None => inl AttributeError
    | Some names =>
        if holds_nested_def
             (FunctionDef name (arguments params more) body decorator_list returns)
        then inl (ValueError "More than one function definition")
        else inr (list_to_set names
                  ∖ store_targets
                      (FunctionDef name (arguments params more) body
                         decorator_list returns))
    end.
Proof.
  unfold _list_read_only_params. simpl lrp_visit.
  destruct (arg_names params) as [names|]; [|done].
  assert (lrp_outcome
            (lrp_seq (lrp_child_with lrp_visit (arguments params more))
               (lrp_seq (lrp_list_with lrp_visit body)
                  (lrp_seq (lrp_list_with lrp_visit decorator_list)
                     (lrp_option_with lrp_visit returns))))
            (holds_nested_def
               (FunctionDef name (arguments params more) body decorator_list returns))
            (store_targets
               (FunctionDef name (arguments params more) body decorator_list returns)))
    as Hout.
  { change (store_targets (FunctionDef name (arguments params more) body
                             decorator_list returns))
      with (targets_child_with store_targets (arguments params more)
            ∪ targets_list_with store_targets body
            ∪ targets_list_with store_targets decorator_list
            ∪ targets_option_with store_targets returns).
    change (holds_nested_def (FunctionDef name (arguments params more) body
                                decorator_list returns))
      with (defs_child_with holds_def (arguments params more)
            || defs_list_with holds_def body
            || defs_list_with holds_def decorator_list
            || defs_option_with holds_def returns).
    rewrite <- !(assoc_L (∪)), <- !orb_assoc.
    apply outcome_seq; [apply outcome_child, outcome_everywhere|].
    apply outcome_seq;
      [apply outcome_list, Forall_forall; intros; apply outcome_everywhere|].
    apply outcome_seq;
      [apply outcome_list, Forall_forall; intros; apply outcome_everywhere|].
    apply outcome_option. destruct returns; simpl; [apply outcome_everywhere | done]. }
  rewrite Hout. by destruct (holds_nested_def _).
Qed.

(** X8.  The analysis of a function definition is decided by two facts
    of the tree.  When the parameters are [arg] nodes, it raises
    [ValueError] ("More than one function definition") exactly when a
    function definition occurs somewhere inside the definition (in the
    body, the decorators, the annotations or the defaults), and otherwise
    it returns the parameter names less the names that occur as a [Name]
    in [Store] context anywhere in the definition; being read at the same
    time does not matter.  It raises nothing else.  Once the set of
    parameters is there, the visit of any node goes the same way: it
    raises that [ValueError] when the node holds a function definition and
    removes the [Store] targets of the node otherwise. *)
Theorem list_read_only_params_decided (name : string) (params : list node)
    (more : list field) (body decorator_list : list node) (returns : option node) :
  _list_read_only_params
    (FunctionDef name (arguments params more) body decorator_list returns)
  = match arg_names params with
    | None => inl AttributeError
    | Some names =>
        if holds_nested_def
             (FunctionDef name (arguments params more) body decorator_list returns)
        then inl (ValueError "More than one function definition")
        else inr (list_to_set names
                  ∖ store_targets
                      (FunctionDef name (arguments params more) body
                         decorator_list returns))
    end
  ∧ ∀ n read_only_params,
      (∀ items, n ≠ PyList items) →
      lrp_visit n (Some read_only_params)
      = if holds_def n then inl (ValueError "More than one function definition")
        else inr (Some (read_only_params ∖ store_targets n)).
Proof.
  split; [apply list_read_only_params_outcome|].
  intros n s Hn. pose proof (outcome_everywhere n) as Hout.
  destruct n; try apply Hout. by destruct (Hn items).
Qed.

(** X9.  [inline] refuses a kernel with a function definition inside:
    whatever the arguments, the reference manager and the recursion
    limit that is left, it raises the [ValueError] of the analysis. *)
Theorem inline_refuses_nested_def (hst : host) (fuel : nat) (name : string)
    (params : list node) (more : list field) (body decorator_list : list node)
    (returns : option node) (obj : value) (k_rest : list value)
    (rm : _ReferenceManager) :
  is_Some (arg_names params) →
  holds_nested_def
    (FunctionDef name (arguments params more) body decorator_list returns) = true →
  inline_rm hst (S fuel)
    (FunctionDef name (arguments params more) body decorator_list returns)
    (obj :: k_rest) rm
  = inl (ValueError "More than one function definition")
  ∧ inline hst (S fuel)
      (FunctionDef name (arguments params more) body decorator_list returns)
      (obj :: k_rest)
    = inl (ValueError "More than one function definition").
Proof.
  intros [names Hnames] Hdef.
  assert (∀ rm0, inline_rm hst (S fuel)
            (FunctionDef name (arguments params more) body decorator_list returns)
            (obj :: k_rest) rm0
          = inl (ValueError "More than one function definition")) as H.
  { intros rm0. simpl. unfold inline_with, bind, _initialize_function_params.
    by rewrite list_read_only_params_outcome, Hnames, Hdef. }
  split; [apply H|]. unfold inline. by rewrite H.
Qed.

Lemma inline_refuses_nested_def_witness :
  inline_rm sample_host 3 kernel_n [sample_owner; VNum (PInt 2)] (__init__ sample_host)
  = inl (ValueError "More than one function definition")
  ∧ inline sample_host 3 kernel_n [sample_owner; VNum (PInt 2)]
    = inl (ValueError "More than one function definition").
Proof.
  apply (inline_refuses_nested_def sample_host 2 "n"
           [arg "self" None; arg "a" None] []); [by eexists | reflexivity].
Defined.

(** * Further properties of the initialization and of [inline] *)

(** ** What the output is made of *)

Lemma inline_with_parts (hst : host) inline_rec name fargs body decorator_list
    returns obj k_rest rm :
  inline_with hst inline_rec
    (FunctionDef name fargs body decorator_list returns) (obj :: k_rest) rm
  = (param_init <- _initialize_function_params hst
                     (FunctionDef name fargs body decorator_list returns)
                     (obj :: k_rest) ;;
     visit_child_with (visit hst inline_rec obj name) fargs ;;;
     body' <- visit_list_with (visit hst inline_rec obj name) body ;;
     visit_option_with (visit hst inline_rec obj name) returns ;;;
     ret (param_init ++ body')) rm.
Proof.
  unfold inline_with. simpl visit. unfold bind.
  destruct (_initialize_function_params _ _ _ rm) as [e|[param_init rm1]]; [done|].
  destruct (visit_child_with _ fargs rm1) as [e|[args' rm2]]; [done|].
  destruct (visit_list_with _ body rm2) as [e|[body' rm3]]; [done|].
  by destruct (visit_option_with _ returns rm3) as [e|[returns' rm4]].
Qed.

(** X10.  What [inline] returns is the initialization statements followed
    by the visited body, and nothing else.  The initialization statements
    are, in the order of the parameters, one assignment for each parameter
    that is paired with an argument and is a [Store] target somewhere in
    the definition, each to the renamed variable that the reference
    manager holds for the parameter.  The body is visited after the
    parameters and before the return annotation, all on the reference
    manager that the initialization leaves; the decorators are not
    visited, so they are never resolved and never reach the output. *)
Theorem inline_output_is_initialization_then_body (hst : host) (fuel : nat)
    (name : string) (params : list node) (more : list field)
    (body decorator_list : list node) (returns : option node)
    (obj : value) (k_rest : list value) (rm rm' : _ReferenceManager)
    (out : list node) (names : list string) :
  inline_rm hst (S fuel)
    (FunctionDef name (arguments params more) body decorator_list returns)
    (obj :: k_rest) rm = inr (out, rm') →
  arg_names params = Some names →
  NoDup names →
  ∃ param_init rm1 args' rm2 body' rm3 returns',
    _initialize_function_params hst
      (FunctionDef name (arguments params more) body decorator_list returns)
      (obj :: k_rest) rm = inr (param_init, rm1)
    ∧ Forall2 (initializes hst rm1 obj name) param_init
        (filter (λ qv, qv.1 ∈ store_targets
                   (FunctionDef name (arguments params more) body decorator_list returns))
           (zip names (obj :: k_rest)))
    ∧ visit_child_with (visit hst (inline_rm hst fuel) obj name)
        (arguments params more) rm1 = inr (args', rm2)
    ∧ visit_list_with (visit hst (inline_rm hst fuel) obj name) body rm2
      = inr (body', rm3)
    ∧ visit_option_with (visit hst (inline_rm hst fuel) obj name) returns rm3
      = inr (returns', rm')
    ∧ out = param_init ++ body'.
Proof.
  intros Hrun Hnames Hnd. simpl in Hrun. rewrite inline_with_parts in Hrun.
  unfold bind in Hrun.
  destruct (_initialize_function_params _ _ _ rm) as [e|[param_init rm1]] eqn:Hinit;
    [done|].
  destruct (visit_child_with _ _ rm1) as [e|[args' rm2]] eqn:Hargs; [done|].
  destruct (visit_list_with _ body rm2) as [e|[body' rm3]] eqn:Hbody; [done|].
  destruct (visit_option_with _ returns rm3) as [e|[returns' rm4]] eqn:Hret; [done|].
  injection Hrun as <- <-.
  exists param_init, rm1, args', rm2, body', rm3, returns'.
  split; [done|]. split; [|done].
  unfold _initialize_function_params in Hinit.
  destruct (_list_read_only_params _) as [e|rop] eqn:Hrop; [done|].
  destruct (list_read_only_params_spec _ _ _ _ _ _ _ Hrop) as (names0 & Hn0 & ->).
  rewrite Hnames in Hn0. injection Hn0 as <-.
  destruct (initialize_loop_spec hst _ _ _ _ _ _ _ _ _ Hnames Hnd Hinit)
    as (Hforall & _ & _).
  by rewrite <- filter_params_targets.
Qed.

Lemma inline_output_is_initialization_then_body_witness :
  ∃ param_init rm1 args' rm2 body' rm3 returns',
    _initialize_function_params sample_host kernel_h
      [sample_owner; VCallable (host_function 9 "helper")] (__init__ sample_host)
      = inr (param_init, rm1)
    ∧ Forall2 (initializes sample_host rm1 sample_owner "h") param_init
        (filter (λ qv, qv.1 ∈ store_targets kernel_h)
           (zip ["self"; "delay"] [sample_owner; VCallable (host_function 9 "helper")]))
    ∧ visit_child_with (visit sample_host (inline_rm sample_host 2) sample_owner "h")
        (arguments [arg "self" None; arg "delay" None] []) rm1 = inr (args', rm2)
    ∧ visit_list_with (visit sample_host (inline_rm sample_host 2) sample_owner "h")
        [Expr (Call (Name "delay" Load) [Name "N" Load] [] None None)] rm2
      = inr (body', rm3)
    ∧ visit_option_with (visit sample_host (inline_rm sample_host 2) sample_owner "h")
        None rm3
      = inr (returns', sample_run_h.2)
    ∧ sample_run_h.1 = param_init ++ body'.
Proof.
  unfold kernel_h.
  apply (inline_output_is_initialization_then_body sample_host 2 "h"
           [arg "self" None; arg "delay" None] []
           [Expr (Call (Name "delay" Load) [Name "N" Load] [] None None)]
           [Name "kernel" Load] None sample_owner
           [VCallable (host_function 9 "helper")] (__init__ sample_host)
           sample_run_h.2 sample_run_h.1 ["self"; "delay"]).
  - vm_compute. reflexivity.
  - reflexivity.
  - apply NoDup_cons. split; [set_solver|]. apply NoDup_singleton.
Defined.

(** ** Parameters and arguments that have no partner *)






(** ** Scopes *)

Section Scope.
Context (hst : host) (obj : value) (funcname : string).

Global Instance same_outside_preorder : PreOrder (same_outside hst obj funcname).
Proof.
  split.
  - by intros rm oid fn local Hout.
  - intros rm1 rm2 rm3 H12 H23 oid fn local Hout.
    by rewrite (H23 _ _ _ Hout), (H12 _ _ _ Hout).
Qed.

Lemma set_same_outside name v :
  keeps (same_outside hst obj funcname) (set hst obj funcname name v).
Proof.
  intros rm a rm' [= <- <-] oid fn local Hout. simpl.
  rewrite lookup_insert_ne; [done|]. intros [= <- <- <-]. by destruct Hout.
Qed.

Lemma get_same_outside ref :
  keeps (same_outside hst obj funcname) (get hst obj funcname ref).
Proof.
  unfold get. destruct (node_ctx ref) as [ctx|]; [|apply (keeps_raise _)].
  apply (keeps_bind _).
  - destruct ref; try apply (keeps_ret _).
    intros rm a rm'. unfold get_name.
    destruct (to_inlined rm !! (py_id hst obj, funcname, id)) as [ival|] eqn:Hkey.
    + destruct ival as [name|v].
      * intros [= <- <-]. reflexivity.
      * destruct v; destruct (bool_decide (ctx = Store)); try done;
          try (intros [= <- <-]; reflexivity);
          try (destruct (_value_to_ast hst _); [|done]; intros [= <- <-]; reflexivity).
    + destruct (bool_decide (ctx = Store)); [|intros [= <- <-]; reflexivity].
      unfold bind. destruct (new_name id rm) as [e|[iname rm1]] eqn:Hnew; [done|].
      intros [= <- <-] oid fn local Hout. simpl.
      destruct (new_name_frame _ _ _ _ Hnew) as [-> _].
      rewrite lookup_insert_ne; [done|]. intros [= <- <- <-]. by destruct Hout.
  - intros [a|]; [apply (keeps_ret _)|].
    destruct (bool_decide (ctx = Store)); [apply (keeps_raise _)|].
    destruct (_replace_global hst obj ref); [apply (keeps_ret _) | apply (keeps_raise _)].
Qed.

Lemma rpc_map_getitem_same_outside func :
  keeps (same_outside hst obj funcname) (rpc_map_getitem func).
Proof.
  intros rm i rm'. unfold rpc_map_getitem.
  by destruct (rpc_lookup func (rpc_map rm)); intros [= <- <-] oid fn local Hout.
Qed.

Lemma initialize_loop_same_outside rop params : ∀ k_args,
  keeps (same_outside hst obj funcname)
    (initialize_loop hst obj funcname rop params k_args).
Proof.
  induction params as [|arg_ast params IH]; intros k_args; simpl;
    [apply (keeps_ret _)|].
  destruct k_args as [|arg_value k_args]; [apply (keeps_ret _)|].
  destruct (arg_name arg_ast) as [name|]; [|apply (keeps_raise _)].
  apply (keeps_bind _).
  - case_bool_decide.
    + apply (keeps_bind _); [apply set_same_outside | intros; apply (keeps_ret _)].
    + apply (keeps_bind _); [apply get_same_outside | intros; apply (keeps_ret _)].
  - intros init. apply (keeps_bind _); [apply IH | intros; apply (keeps_ret _)].
Qed.
End Scope.

(** X12.  A scope is the owner and the function.  The initialization of
    the parameters of a function on an owner changes no binding of
    another owner or of another function, and neither does the visit of a
    tree for that scope, unless a nested inlining does: the bindings that
    [get] and [set] write are all under the identity of the owner and the
    name of the function. *)
Theorem bindings_stay_in_scope (hst : host) (name : string) (fargs : node)
    (body decorator_list : list node) (returns : option node)
    (obj : value) (k_rest : list value) :
  keeps (same_outside hst obj name)
    (_initialize_function_params hst
       (FunctionDef name fargs body decorator_list returns) (obj :: k_rest))
  ∧ (∀ inline_rec n,
       (∀ k args, keeps (same_outside hst obj name) (inline_rec k args)) →
       keeps (same_outside hst obj name) (visit hst inline_rec obj name n)).
Proof.
  split.
  - unfold _initialize_function_params.
    destruct (_list_read_only_params _); [apply (keeps_raise _)|].
    destruct fargs; try apply (keeps_raise _).
    apply initialize_loop_same_outside.
  - intros inline_rec n Hrec. apply keeps_visit;
      auto using get_same_outside, rpc_map_getitem_same_outside.
    apply _.
Qed.

(** ** A kernel that calls itself *)



(** ** Trees that a visit leaves alone *)

Section Inert.
Context (hst : host).
Variable inline_rec : node → list value → M (list node).
Context (obj : value) (funcname : string).

Local Abbreviation visit_here := (visit hst inline_rec obj funcname).

Local Abbreviation fixes_here := (visit_fixes hst inline_rec obj funcname).

Lemma inert_not_list items : inert (PyList items) = false.
Proof. done. Qed.

Lemma visit_fixes_child c :
  fixes_here c → inert c = true →
  ∀ rm, visit_child_with visit_here c rm = inr (c, rm).
Proof. intros Hc Hic rm. destruct c; try done; apply (Hc Hic rm). Qed.

Lemma visit_fixes_item x :
  fixes_here x → inert x = true →
  ∀ rm, match x with
        | PyList _ => ret [x]
        | _ => v <- visit_here x ;;
               ret (match v with PyList items => items | _ => [v] end)
        end rm = inr ([x], rm).
Proof.
  intros Hx Hix rm.
  destruct x; try done; unfold bind; by rewrite (Hx Hix rm).
Qed.

Lemma visit_fixes_list l :
  Forall fixes_here l → forallb inert l = true →
  ∀ rm, visit_list_with visit_here l rm = inr (l, rm).
Proof.
  induction 1 as [|x l Hx Hl IH]; intros Hin rm; [done|].
  simpl in Hin. apply andb_prop in Hin as [Hix Hil].
  change (visit_list_with visit_here (x :: l) rm)
    with ((r <- match x with
                | PyList _ => ret [x]
                | _ => v <- visit_here x ;;
                       ret (match v with PyList items => items | _ => [v] end)
                end ;;
           rs <- visit_list_with visit_here l ;;
           ret (r ++ rs)) rm).
  unfold bind at 1. rewrite (visit_fixes_item x Hx Hix rm).
  unfold bind. by rewrite (IH Hil rm).
Qed.

Lemma visit_fixes_option o :
  option_Forall fixes_here o → inert_option_with inert o = true →
  ∀ rm, visit_option_with visit_here o rm = inr (o, rm).
Proof.
  destruct o as [c|]; [|done].
  intros Hc Hic rm. unfold visit_option_with, bind.
  by rewrite (visit_fixes_child c Hc Hic rm).
Qed.

Lemma visit_fixes_field f :
  field_Forall fixes_here f → inert_field_with inert f = true →
  ∀ rm, visit_field_with visit_here f rm = inr (f, rm).
Proof.
  destruct f as [c|l|a]; intros Hf Hif rm; [| |done].
  - destruct c; try done; unfold visit_field_with, bind;
      by rewrite (Hf Hif rm).
  - unfold visit_field_with, bind. by rewrite (visit_fixes_list l Hf Hif rm).
Qed.

Lemma visit_fixes_fields fs :
  Forall (field_Forall fixes_here) fs →
  forallb (inert_field_with inert) fs = true →
  ∀ rm, mapM (visit_field_with visit_here) fs rm = inr (fs, rm).
Proof.
  induction 1 as [|f fs Hf Hfs IH]; intros Hin rm; [done|].
  simpl in Hin. apply andb_prop in Hin as [Hif Hifs].
  change (mapM (visit_field_with visit_here) (f :: fs) rm)
    with ((y <- visit_field_with visit_here f ;;
           ys <- mapM (visit_field_with visit_here) fs ;;
           ret (y :: ys)) rm).
  unfold bind at 1. rewrite (visit_fixes_field f Hf Hif rm).
  unfold bind. by rewrite (IH Hifs rm).
Qed.

Lemma visit_fixes_everywhere : ∀ n, fixes_here n.
Proof.
  induction n using node_nested_ind; intros Hin rm; try done.
  - (* Expr *)
    assert (inert n = true) as Hn by (by destruct n).
    assert (visit_here (Expr n) rm
            = (value' <- visit_child_with visit_here n ;; ret (Expr value')) rm) as ->
      by (by destruct n).
    unfold bind. by rewrite (visit_fixes_child n IHn Hn rm).
  - (* FunctionDef *)
    simpl in Hin.
    apply andb_prop in Hin as [Hin Hret]. apply andb_prop in Hin as [Hin Hdec].
    apply andb_prop in Hin as [Hargs Hbody].
    apply bool_decide_eq_true_1 in Hdec as ->.
    change (visit_here (FunctionDef name n body [] returns) rm)
      with ((args' <- visit_child_with visit_here n ;;
             body' <- visit_list_with visit_here body ;;
             returns' <- visit_option_with visit_here returns ;;
             ret (FunctionDef name args' body' [] returns')) rm).
    unfold bind. rewrite (visit_fixes_child n IHn Hargs rm).
    rewrite (visit_fixes_list _ H Hbody rm).
    by rewrite (visit_fixes_option _ H1 Hret rm).
  - (* arguments *)
    simpl in Hin. apply andb_prop in Hin as [Hargs Hmore].
    change (visit_here (arguments args more) rm)
      with ((args' <- visit_list_with visit_here args ;;
             more' <- mapM (visit_field_with visit_here) more ;;
             ret (arguments args' more')) rm).
    unfold bind. rewrite (visit_fixes_list _ H Hargs rm).
    by rewrite (visit_fixes_fields _ H0 Hmore rm).
  - (* arg *)
    change (visit_here (arg a ann) rm)
      with ((annotation' <- visit_option_with visit_here ann ;;
             ret (arg a annotation')) rm).
    unfold bind. by rewrite (visit_fixes_option _ H Hin rm).
  - (* Generic *)
    change (visit_here (Generic cls fields) rm)
      with ((fields' <- mapM (visit_field_with visit_here) fields ;;
             ret (Generic cls fields')) rm).
    unfold bind. by rewrite (visit_fixes_fields _ H Hin rm).
Qed.
End Inert.

(** X14.  A visit changes nothing but references, calls and decorators.
    A tree that holds no name, attribute, subscript or call, no decorator
    and no list in the place of a node is returned as it is, and the
    reference manager is left as it is: the visit resolves nothing, asks
    nothing of the host and never runs a nested inlining, whatever the
    scope.  The same holds for a list of such statements. *)
Theorem visit_leaves_inert_trees (hst : host)
    (inline_rec : node → list value → M (list node)) (obj : value)
    (funcname : string) (rm : _ReferenceManager) :
  (∀ n, inert n = true → visit hst inline_rec obj funcname n rm = inr (n, rm))
  ∧ (∀ body, forallb inert body = true →
       visit_list_with (visit hst inline_rec obj funcname) body rm = inr (body, rm)).
Proof.
  split.
  - intros n Hn. by apply visit_fixes_everywhere.
  - intros body Hbody. apply visit_fixes_list; [|done].
    apply Forall_forall. intros n _. apply visit_fixes_everywhere.
Qed.

(** ** Statement lists *)



(** ** The recursion limit *)

Section Refinement.
Context (hst : host).
Variables rec1 rec2 : node → list value → M (list node).
Context (obj : value) (funcname : string).
Hypothesis rec_refines : ∀ k args, refines (rec1 k args) (rec2 k args).

Lemma refines_refl {A} (m : M A) : refines m m.
Proof. by intros rm r. Qed.

Lemma refines_bind {A B} (m1 m2 : M A) (k1 k2 : A → M B) :
  refines m1 m2 → (∀ a, refines (k1 a) (k2 a)) →
  refines (bind m1 k1) (bind m2 k2).
Proof.
  intros Hm Hk rm r. unfold bind.
  destruct (m1 rm) as [e|[a rm1]] eqn:E; [done|].
  rewrite (Hm _ _ E). apply Hk.
Qed.

Lemma refines_mapM {A B} (f1 f2 : A → M B) (l : list A) :
  Forall (λ x, refines (f1 x) (f2 x)) l → refines (mapM f1 l) (mapM f2 l).
Proof.
  induction 1 as [|x l Hx Hl IH]; simpl; [apply refines_refl|].
  apply refines_bind; [done|]. intros y.
  apply refines_bind; [done|]. intros ys. apply refines_refl.
Qed.

Lemma refines_emit_call func new_args :
  refines (emit_call rec1 func new_args) (emit_call rec2 func new_args).
Proof.
  unfold emit_call. destruct (is_unhashable func); [apply refines_refl|].
  case_bool_decide; [apply refines_refl|].
  destruct func; try apply refines_refl.
  destruct self; [|apply refines_refl].
  apply refines_bind; [apply rec_refines | intros; apply refines_refl].
Qed.

Lemma refines_visit_Call_with args1 args2 func_node :
  refines args1 args2 →
  refines (visit_Call_with hst rec1 obj funcname args1 func_node)
    (visit_Call_with hst rec2 obj funcname args2 func_node).
Proof.
  intros Hargs. unfold visit_Call_with.
  apply refines_bind; [apply refines_refl|]. intros rm.
  destruct (getmodule hst obj); [|apply refines_refl].
  destruct (eval_ast hst func_node _); [apply refines_refl|].
  apply refines_bind; [done|]. intros. apply refines_emit_call.
Qed.

Local Abbreviation visit1 := (visit hst rec1 obj funcname).

Local Abbreviation visit2 := (visit hst rec2 obj funcname).

Local Abbreviation refines_here := (visit_refines_at hst rec1 rec2 obj funcname).

Lemma refines_visit_list l :
  Forall refines_here l →
  refines (visit_list_with visit1 l) (visit_list_with visit2 l).
Proof.
  induction 1 as [|x l [Hx _] Hl IH]; simpl; [apply refines_refl|].
  apply refines_bind.
  - destruct x; try (apply refines_bind; [done | intros; apply refines_refl]).
    apply refines_refl.
  - intros r. apply refines_bind; [done|]. intros. apply refines_refl.
Qed.

Lemma refines_visit_child c :
  refines_here c →
  refines (visit_child_with visit1 c) (visit_child_with visit2 c).
Proof.
  intros [Hc Hitems]. destruct c; try done. simpl.
  apply refines_bind; [by apply Hitems | intros; apply refines_refl].
Qed.

Lemma refines_visit_option o :
  option_Forall refines_here o →
  refines (visit_option_with visit1 o) (visit_option_with visit2 o).
Proof.
  destruct o as [c|]; simpl; [|intros; apply refines_refl].
  intros Hc. apply refines_bind; [by apply refines_visit_child | intros; apply refines_refl].
Qed.

Lemma refines_visit_field f :
  field_Forall refines_here f →
  refines (visit_field_with visit1 f) (visit_field_with visit2 f).
Proof.
  destruct f as [c|l|a]; simpl.
  - intros [Hc Hitems].
    destruct c; try (apply refines_bind; [done | intros; apply refines_refl]).
    apply refines_bind; [by apply Hitems | intros; apply refines_refl].
  - intros Hl. apply refines_bind; [by apply refines_visit_list | intros; apply refines_refl].
  - intros _. apply refines_refl.
Qed.

Lemma refines_visit_fields fs :
  Forall (field_Forall refines_here) fs →
  refines (mapM (visit_field_with visit1) fs) (mapM (visit_field_with visit2) fs).
Proof.
  intros H. apply refines_mapM.
  eapply Forall_impl; [exact H|]. intros f. apply refines_visit_field.
Qed.

Lemma refines_visit_args l :
  Forall refines_here l → refines (mapM visit1 l) (mapM visit2 l).
Proof.
  intros H. apply refines_mapM.
  eapply Forall_impl; [exact H|]. by intros x [? _].
Qed.

Lemma refines_visit_everywhere : ∀ n, refines_here n.
Proof.
  induction n using node_nested_ind; (split; [|try done]).
  - apply refines_refl.
  - apply refines_refl.
  - apply refines_refl.
  - apply refines_refl.
  - apply refines_refl.
  - apply refines_visit_Call_with. by apply refines_visit_args.
  - destruct n; try (apply refines_bind; [by apply refines_visit_child | intros; apply refines_refl]).
    apply refines_bind.
    + destruct IHn as [IH _]. exact IH.
    + intros r. destruct r; apply refines_refl.
  - simpl. apply refines_bind; [by apply refines_visit_child|]. intros.
    apply refines_bind; [by apply refines_visit_list|]. intros.
    apply refines_bind; [by apply refines_visit_option|]. intros. apply refines_refl.
  - simpl. apply refines_bind; [by apply refines_visit_list|]. intros.
    apply refines_bind; [by apply refines_visit_fields|]. intros. apply refines_refl.
  - simpl. apply refines_bind; [by apply refines_visit_option|]. intros. apply refines_refl.
  - simpl. apply refines_bind; [by apply refines_visit_fields|]. intros. apply refines_refl.
  - apply refines_refl.
  - intros items' [= <-]. by apply refines_visit_list.
Qed.

End Refinement.

Lemma refines_inline_with (hst : host)
    (rec1 rec2 : node → list value → M (list node)) funcdef k_args :
  (∀ k args, refines (rec1 k args) (rec2 k args)) →
  refines (inline_with hst rec1 funcdef k_args) (inline_with hst rec2 funcdef k_args).
Proof.
  intros Hrec. unfold inline_with.
  apply refines_bind; [apply refines_refl|]. intros param_init.
  destruct k_args as [|o k_args]; [apply refines_refl|].
  destruct funcdef; try apply refines_refl.
  apply refines_bind; [|intros; apply refines_refl].
  by apply refines_visit_everywhere.
Qed.

Lemma inline_rm_step (hst : host) (fuel : nat) : ∀ k_function k_args,
  refines (inline_rm hst fuel k_function k_args)
    (inline_rm hst (S fuel) k_function k_args).
Proof.
  induction fuel as [|fuel IH]; intros k_function k_args; [by intros rm r|].
  change (refines (inline_with hst (inline_rm hst fuel) k_function k_args)
            (inline_with hst (inline_rm hst (S fuel)) k_function k_args)).
  apply refines_inline_with. intros k args. apply IH.
Qed.

(** X16.  A higher recursion limit changes no result.  When [inline]
    returns with some depth of nested inlining allowed, it returns the
    same statements, the same registry and the same reference manager
    with every greater depth allowed; only a run that fails can turn out
    differently with a higher limit. *)
Theorem inline_result_stable_under_limit (hst : host) (fuel fuel' : nat)
    (k_function : node) (k_args : list value) :
  (fuel ≤ fuel')%nat →
  (∀ rm r, inline_rm hst fuel k_function k_args rm = inr r →
           inline_rm hst fuel' k_function k_args rm = inr r)
  ∧ (∀ r, inline hst fuel k_function k_args = inr r →
          inline hst fuel' k_function k_args = inr r).
Proof.
  intros Hle.
  assert (refines (inline_rm hst fuel k_function k_args)
            (inline_rm hst fuel' k_function k_args)) as H.
  { induction Hle as [|fuel' Hle IH]; [by intros rm r|].
    intros rm r Hr. by apply inline_rm_step, IH. }
  split; [exact H|].
  intros r. unfold inline.
  destruct (inline_rm hst fuel k_function k_args (__init__ hst)) as [e|[body rm']] eqn:E;
    [done|].
  by rewrite (H _ _ E).
Qed.

Lemma inline_result_stable_under_limit_witness :
  (∀ rm r, inline_rm sample_host 3 kernel_k [sample_owner; VNum (PInt 2)] rm = inr r →
           inline_rm sample_host 7 kernel_k [sample_owner; VNum (PInt 2)] rm = inr r)
  ∧ (∀ r, inline sample_host 3 kernel_k [sample_owner; VNum (PInt 2)] = inr r →
          inline sample_host 7 kernel_k [sample_owner; VNum (PInt 2)] = inr r).
Proof.
  apply (inline_result_stable_under_limit sample_host 3 7). lia.
Defined.

(** ** The allocator of names *)

Lemma last_char_None (s : string) : last_char s = None ↔ s = "".
Proof.
  unfold last_char. destruct s as [|c s]; [done|]. simpl. split; [|done].
  intros H. exfalso. revert c H.
  induction s as [|c' s IH]; intros c; simpl; [done|]. apply IH.
Qed.

Lemma string_app_assoc (a b c : string) : (a +:+ b) +:+ c = a +:+ (b +:+ c).
Proof. apply chars_inj. by rewrite !chars_app, app_assoc. Qed.

(** X17.  [new_name] raises only for the empty name, for which the test
    of the last character raises [IndexError].  For every other name the
    answer begins with the name it was asked for, so a renamed variable
    can be traced to its source name; the allocation touches neither the
    bindings nor the registry, and it never lowers or removes a count, so
    a name that is in use or reserved stays so. *)
Theorem new_name_extends_base (base_name : string) (rm : _ReferenceManager) :
  (new_name base_name rm = inl IndexError ↔ base_name = "")
  ∧ (base_name ≠ "" →
     ∃ r rm' suffix,
       new_name base_name rm = inr (r, rm')
       ∧ r = base_name +:+ suffix
       ∧ to_inlined rm' = to_inlined rm
       ∧ rpc_map rm' = rpc_map rm
       ∧ ∀ b n, use_count rm !! b = Some n →
                ∃ n', use_count rm' !! b = Some n' ∧ (n ≤ n')%nat).
Proof.
  unfold new_name.
  destruct (last_char base_name) as [c|] eqn:Hlast.
  - assert (base_name ≠ "") as Hne.
    { intros Hempty. apply last_char_None in Hempty. congruence. }
    split.
    { split; [|done]. by destruct (use_count rm !! _). }
    intros _.
    set (base := if isdigit c then base_name +:+ "_" else base_name).
    assert (∃ u, base = base_name +:+ u) as [u Hu].
    { subst base. destruct (isdigit c); [by exists "_"|].
      exists "". by rewrite string_app_empty_r. }
    destruct (use_count rm !! base) as [n|] eqn:Hn.
    + eexists _, _, (u +:+ str n). split; [reflexivity|].
      split; [by rewrite Hu, string_app_assoc|]. split; [done|]. split; [done|].
      intros b m Hb. simpl. destruct (decide (b = base)) as [->|Hbne].
      * rewrite lookup_insert_eq. exists (S n). split; [done|].
        rewrite Hn in Hb. injection Hb as <-. lia.
      * rewrite lookup_insert_ne by done. by exists m.
    + eexists _, _, u. split; [reflexivity|].
      split; [done|]. split; [done|]. split; [done|].
      intros b m Hb. simpl. destruct (decide (b = base)) as [->|Hbne].
      * congruence.
      * rewrite lookup_insert_ne by done. by exists m.
  - apply last_char_None in Hlast as ->. split; [done|]. by intros [].
Qed.

(** ** Inlining the same function again *)

Lemma set_to_inlined_id key b rm :
  to_inlined rm !! key = Some b → set_to_inlined (<[key := b]>) rm = rm.
Proof.
  intros Hkey. destruct rm as [ti uc rpc]. unfold set_to_inlined. simpl in *.
  by rewrite insert_id.
Qed.

Lemma initialize_loop_rerun (hst : host) obj funcname rop params :
  ∀ names k_args rm init rm',
    arg_names params = Some names → NoDup names →
    initialize_loop hst obj funcname rop params k_args rm = inr (init, rm') →
    ∀ rm2,
      (∀ p, p ∈ names →
         to_inlined rm2 !! (py_id hst obj, funcname, p)
         = to_inlined rm' !! (py_id hst obj, funcname, p)) →
      initialize_loop hst obj funcname rop params k_args rm2 = inr (init, rm2).
Proof.
  induction params as [|arg_ast params IH]; intros names k_args rm init rm' Hnames Hnd.
  - simpl. by intros [= <- <-] rm2 _.
  - simpl in Hnames. destruct (arg_name arg_ast) as [p|] eqn:Hp; [|done].
    destruct (arg_names params) as [names'|] eqn:Hn'; [|done].
    injection Hnames as <-. apply NoDup_cons in Hnd as [Hfresh Hnd].
    simpl. destruct k_args as [|v k_args].
    { by intros [= <- <-] rm2 _. }
    rewrite Hp. unfold bind at 1 4.
    case_bool_decide as Hrop.
    + unfold bind at 1 3. unfold set at 1 2. unfold ret at 1 3. unfold bind at 1 2.
      set (rm1 := set_to_inlined _ rm).
      destruct (initialize_loop hst obj funcname rop params k_args rm1)
        as [e|[rest rm3]] eqn:Hrest; [done|].
      intros [= <- <-] rm2 Hsame.
      destruct (initialize_loop_spec hst _ _ _ _ _ _ _ _ _ Hn' Hnd Hrest)
        as (_ & _ & Hframe).
      rewrite set_to_inlined_id.
      * rewrite (IH _ _ _ _ _ eq_refl Hnd Hrest rm2); [done|].
        intros q Hq. apply Hsame. by right.
      * rewrite Hsame by left. rewrite Hframe by done.
        subst rm1. simpl. by rewrite lookup_insert_eq.
    + unfold bind at 1 3.
      destruct (get hst obj funcname (Name p Store) rm) as [e|[target rm1]] eqn:Hget;
        [done|].
      unfold ret at 1. unfold bind at 1.
      destruct (initialize_loop hst obj funcname rop params k_args rm1)
        as [e|[rest rm3]] eqn:Hrest; [done|].
      intros [= <- <-] rm2 Hsame.
      destruct (initialize_loop_spec hst _ _ _ _ _ _ _ _ _ Hn' Hnd Hrest)
        as (_ & _ & Hframe).
      destruct (get_store_name hst _ _ _ _ _ _ Hget) as (iname & -> & Hkey & _).
      rewrite (get_user_variable hst obj funcname p Store iname rm2).
      * unfold ret at 1, bind.
        rewrite (IH _ _ _ _ _ eq_refl Hnd Hrest rm2); [done|].
        intros q Hq. apply Hsame. by right.
      * rewrite Hsame by left. by rewrite Hframe.
Qed.

(** X18.  The initialization of the parameters can be run again.  On
    the reference manager that it produced, and on every later one that
    has the same bindings for the parameters, the initialization of the
    same function with the same arguments returns the same statements and
    leaves the reference manager exactly as it is: nothing is allocated,
    and each reassigned parameter is initialized into the renamed
    variable it got the first time.  Two inlined calls of one function on
    one owner therefore share their renamed variables. *)
Theorem initialization_rerun_reuses_variables (hst : host) (name : string)
    (params : list node) (more : list field) (body decorator_list : list node)
    (returns : option node) (obj : value) (k_rest : list value)
    (rm rm' : _ReferenceManager) (param_init : list node) (names : list string) :
  _initialize_function_params hst
    (FunctionDef name (arguments params more) body decorator_list returns)
    (obj :: k_rest) rm = inr (param_init, rm') →
  arg_names params = Some names →
  NoDup names →
  ∀ rm2,
    (∀ p, p ∈ names →
       to_inlined rm2 !! (py_id hst obj, name, p)
       = to_inlined rm' !! (py_id hst obj, name, p)) →
    _initialize_function_params hst
      (FunctionDef name (arguments params more) body decorator_list returns)
      (obj :: k_rest) rm2 = inr (param_init, rm2).
Proof.
  intros Hrun Hnames Hnd rm2 Hsame.
  unfold _initialize_function_params in *.
  destruct (_list_read_only_params _) as [e|rop]; [done|].
  by eapply initialize_loop_rerun.
Qed.

Lemma initialization_rerun_reuses_variables_witness :
  _initialize_function_params sample_host kernel_k
    [sample_owner; VNum (PInt 2)] sample_init_k.2
  = inr (sample_init_k.1, sample_init_k.2).
Proof.
  refine (initialization_rerun_reuses_variables sample_host "k"
            [arg "self" None; arg "y" None] [] _ _ None sample_owner [VNum (PInt 2)]
            (__init__ sample_host) sample_init_k.2 sample_init_k.1 ["self"; "y"]
            _ _ _ sample_init_k.2 _).
  - vm_compute. reflexivity.
  - reflexivity.
  - apply NoDup_cons. split; [set_solver|]. apply NoDup_singleton.
  - reflexivity.
Defined.

(** ** Renamed variables and their source names *)

Section StepsInline.
Context (R : relation _ReferenceManager) `{!PreOrder R}.
Context (hst : host).
Hypothesis keeps_get : ∀ obj funcname ref, keeps R (get hst obj funcname ref).
Hypothesis keeps_set : ∀ obj funcname name v, keeps R (set hst obj funcname name v).
Hypothesis keeps_rpc_map_getitem : ∀ func, keeps R (rpc_map_getitem func).

Lemma keeps_initialize_loop obj funcname rop params : ∀ k_args,
  keeps R (initialize_loop hst obj funcname rop params k_args).
Proof.
  induction params as [|arg_ast params IH]; intros k_args; simpl;
    [apply (keeps_ret R)|].
  destruct k_args as [|arg_value k_args]; [apply (keeps_ret R)|].
  destruct (arg_name arg_ast) as [name|]; [|apply (keeps_raise R)].
  apply (keeps_bind R).
  - case_bool_decide.
    + apply (keeps_bind R); [apply keeps_set | intros; apply (keeps_ret R)].
    + apply (keeps_bind R); [apply keeps_get | intros; apply (keeps_ret R)].
  - intros init. apply (keeps_bind R); [apply IH | intros; apply (keeps_ret R)].
Qed.

Lemma keeps_inline_with inline_rec funcdef k_args :
  (∀ k args, keeps R (inline_rec k args)) →
  keeps R (inline_with hst inline_rec funcdef k_args).
Proof.
  intros Hrec. unfold inline_with. apply (keeps_bind R).
  - unfold _initialize_function_params.
    destruct k_args as [|obj k_args]; [apply (keeps_raise R)|].
    destruct funcdef; try apply (keeps_raise R).
    destruct (_list_read_only_params _); [apply (keeps_raise R)|].
    destruct funcdef; try apply (keeps_raise R).
    apply keeps_initialize_loop.
  - intros param_init.
    destruct k_args as [|obj k_args]; [apply (keeps_raise R)|].
    destruct funcdef; try apply (keeps_raise R).
    apply (keeps_bind R).
    + apply (keeps_visit R); auto.
    + intros visited. destruct visited; try apply (keeps_raise R). apply (keeps_ret R).
Qed.

Lemma keeps_inline_rm fuel : ∀ k_function k_args,
  keeps R (inline_rm hst fuel k_function k_args).
Proof.
  induction fuel as [|fuel IH]; intros k_function k_args; simpl.
  - apply (keeps_raise R).
  - by apply keeps_inline_with.
Qed.
End StepsInline.

Global Instance traceable_step_preorder : PreOrder traceable_step.
Proof.
  split.
  - by intros rm H.
  - intros rm1 rm2 rm3 H12 H23 H. by apply H23, H12.
Qed.

Lemma new_name_prefix (base_name : string) rm r rm' :
  new_name base_name rm = inr (r, rm') → ∃ suffix, r = base_name +:+ suffix.
Proof.
  unfold new_name. destruct (last_char base_name) as [c|]; [|done].
  set (base := if isdigit c then base_name +:+ "_" else base_name).
  assert (∃ u, base = base_name +:+ u) as [u Hu].
  { subst base. destruct (isdigit c); [by exists "_"|].
    exists "". by rewrite string_app_empty_r. }
  destruct (use_count rm !! base) as [n|]; intros [= <- <-].
  - exists (u +:+ str n). by rewrite Hu, string_app_assoc.
  - by exists u.
Qed.

Lemma get_traceable (hst : host) obj funcname ref :
  keeps traceable_step (get hst obj funcname ref).
Proof.
  unfold get. destruct (node_ctx ref) as [ctx|]; [|apply (keeps_raise _)].
  apply (keeps_bind _).
  - destruct ref; try apply (keeps_ret _).
    intros rm a rm'. unfold get_name.
    destruct (to_inlined rm !! (py_id hst obj, funcname, id)) as [ival|] eqn:Hkey.
    + destruct ival as [name|v].
      * by intros [= <- <-].
      * destruct v; destruct (bool_decide (ctx = Store)); try done;
          try (by intros [= <- <-]);
          try (destruct (_value_to_ast hst _); [|done]; by intros [= <- <-]).
    + destruct (bool_decide (ctx = Store)); [|by intros [= <- <-]].
      unfold bind. destruct (new_name id rm) as [e|[iname rm1]] eqn:Hnew; [done|].
      intros [= <- <-] Hinv oid fn local name. simpl.
      destruct (new_name_frame _ _ _ _ Hnew) as [-> _].
      destruct (decide ((oid, fn, local) = (py_id hst obj, funcname, id)))
        as [[= -> -> ->]|Hne].
      * rewrite lookup_insert_eq. intros [= <-]. by eapply new_name_prefix.
      * rewrite lookup_insert_ne by done. apply Hinv.
  - intros [a|]; [apply (keeps_ret _)|].
    destruct (bool_decide (ctx = Store)); [apply (keeps_raise _)|].
    destruct (_replace_global hst obj ref); [apply (keeps_ret _) | apply (keeps_raise _)].
Qed.

Lemma set_traceable (hst : host) obj funcname name v :
  keeps traceable_step (set hst obj funcname name v).
Proof.
  intros rm a rm' [= <- <-] Hinv oid fn local iname. simpl.
  destruct (decide ((oid, fn, local) = (py_id hst obj, funcname, name)))
    as [->|Hne].
  - by rewrite lookup_insert_eq.
  - rewrite lookup_insert_ne by done. apply Hinv.
Qed.

Lemma rpc_map_getitem_traceable func :
  keeps traceable_step (rpc_map_getitem func).
Proof.
  intros rm i rm'. unfold rpc_map_getitem.
  by destruct (rpc_lookup func (rpc_map rm)); intros [= <- <-] Hinv.
Qed.

(** X19.  Every renamed variable can be traced to its source name.
    After any run of [inline] that starts from a new reference manager,
    nested inlinings included, each renamed variable that the reference
    manager holds begins with the local name of its scope key: it is the
    name itself, or the name followed by an underscore, a count or
    both. *)
Theorem renamed_variables_begin_with_source_name (hst : host) (fuel : nat)
    (k_function : node) (k_args : list value) (body : list node)
    (rm' : _ReferenceManager) (oid : positive) (fn local name : string) :
  inline_rm hst fuel k_function k_args (__init__ hst) = inr (body, rm') →
  to_inlined rm' !! (oid, fn, local) = Some (_UserVariable name) →
  ∃ suffix, name = local +:+ suffix.
Proof.
  intros Hrun.
  assert (keeps traceable_step (inline_rm hst fuel k_function k_args)) as Hkeeps.
  { apply (keeps_inline_rm traceable_step);
      auto using get_traceable, set_traceable, rpc_map_getitem_traceable. }
  apply (Hkeeps _ _ _ Hrun). by intros ? ? ? ?.
Qed.

Lemma renamed_variables_begin_with_source_name_witness :
  to_inlined sample_run_k.2 !! (py_id sample_host sample_owner, "k", "y")
    = Some (_UserVariable "y")
  ∧ ∃ suffix, "y" = "y" +:+ suffix.
Proof.
  split; [vm_compute; reflexivity|].
  refine (renamed_variables_begin_with_source_name sample_host 3 kernel_k
            [sample_owner; VNum (PInt 2)] sample_run_k.1 sample_run_k.2
            (py_id sample_host sample_owner) "k" "y" "y" _ _).
  - vm_compute. reflexivity.
  - vm_compute. reflexivity.
Defined.

(** ** Reserved names *)

Lemma seeded_other (names : list string) : ∀ (uc : gmap string nat) x,
  x ∉ names →
  foldl (λ uc name, <[name := 1%nat]> uc) uc names !! x = uc !! x.
Proof.
  induction names as [|n names IH]; intros uc x Hx; [done|].
  apply not_elem_of_cons in Hx as [Hne Hx]. simpl.
  rewrite IH by done. by rewrite lookup_insert_ne.
Qed.

Lemma seeded_one (names : list string) : ∀ (uc : gmap string nat) x,
  x ∈ names →
  foldl (λ uc name, <[name := 1%nat]> uc) uc names !! x = Some 1%nat.
Proof.
  induction names as [|n names IH]; intros uc x Hx; [by apply elem_of_nil in Hx|].
  simpl. destruct (decide (x ∈ names)) as [Hin|Hnin]; [by apply IH|].
  apply elem_of_cons in Hx as [->|Hx]; [|done].
  rewrite seeded_other by done. by rewrite lookup_insert_eq.
Qed.

(** X20.  A new reference manager has every reserved name ([Quantity],
    the base units, the kernel globals and [range]) in use with the count
    1.  A local variable that has a reserved name which does not end in a
    digit is therefore never given that name: the first request for it is
    answered with the name followed by 1, and the count goes to 2. *)
Theorem reserved_name_is_taken (hst : host) (base_name : string) :
  base_name ∈ reserved_names hst →
  base_name ≠ "" →
  ends_with_digit base_name = false →
  use_count (__init__ hst) !! base_name = Some 1%nat
  ∧ ∃ rm', new_name base_name (__init__ hst) = inr (base_name +:+ "1", rm')
           ∧ use_count rm' !! base_name = Some 2%nat
           ∧ to_inlined rm' = ∅ ∧ rpc_map rm' = [].
Proof.
  intros Hin Hne Hdigit.
  assert (use_count (__init__ hst) !! base_name = Some 1%nat) as Hone.
  { by apply (seeded_one (reserved_names hst) ∅ base_name). }
  split; [done|]. unfold new_name.
  destruct (last_char base_name) as [c|] eqn:Hlast.
  - unfold ends_with_digit in Hdigit. rewrite Hlast in Hdigit. rewrite Hdigit, Hone.
    eexists. split; [reflexivity|]. split; [|done]. simpl. by rewrite lookup_insert_eq.
  - by apply last_char_None in Hlast.
Qed.

Lemma reserved_name_is_taken_witness :
  use_count (__init__ sample_host) !! "range" = Some 1%nat
  ∧ ∃ rm', new_name "range" (__init__ sample_host) = inr ("range" +:+ "1", rm')
           ∧ use_count rm' !! "range" = Some 2%nat
           ∧ to_inlined rm' = ∅ ∧ rpc_map rm' = [].
Proof.
  apply (reserved_name_is_taken sample_host "range").
  - vm_compute. set_solver.
  - done.
  - reflexivity.
Defined.

(** The statements [pass; 1; return None] come back as they are, on any
    reference manager. *)
Example visit_inert_statements :
  visit_list_with (visit sample_host (inline_rm sample_host 0) sample_owner "p")
    inert_statements (__init__ sample_host)
  = inr (inert_statements, __init__ sample_host).
Proof. reflexivity. Qed.
